(** * United Pharmacy LMS automation: the reconciliation engine of
      [src/services/excelService.ts]

    The development embeds the pure part of the service: [cleanText],
    [normalizeKeys] with the [COLUMN_ALIASES] table, [processData] with its
    local [calculateRate], and the counting done by [generateExcelFile] and
    its local [createPivotTable].

    Conventions of the embedding.
    - A JavaScript string is the list of its UTF-16 code units.
    - A JavaScript number is [NaN], an infinity or an exact rational.  Every
      double is a rational; [-0] is identified with [0] (both are falsy,
      compare equal and print as "0").  The completion rate [count / size] is
      kept as the exact quotient: for a number of lesson columns below 2^40
      the rounded double compares against another rate and against the
      literals 0 and 0.999 exactly as the quotient does.
    - A plain object is the list of its own properties in creation order;
      [own_keys] gives the order in which [Object.keys] and [Object.entries]
      enumerate them.
    - The parts of the JavaScript runtime that depend on Unicode tables or on
      the engine are fields of [Runtime]. *)

From Stdlib Require Import List NArith ZArith QArith Bool String Ascii Lia.
From Stdlib Require Import Qabs Permutation Sorted DecimalPos DecimalN.
Import ListNotations.

(* ================================================================== *)
(** ** Strings *)

Definition jsstring := list N.

(** An ASCII literal as a JavaScript string. *)
Definition str (s : string) : jsstring :=
  map N_of_ascii (list_ascii_of_string s).

Fixpoint str_eqb (a b : jsstring) : bool :=
  match a, b with
  | [], [] => true
  | x :: a', y :: b' => N.eqb x y && str_eqb a' b'
  | _, _ => false
  end.

Definition is_empty (s : jsstring) : bool :=
  match s with [] => true | _ => false end.

Definition SPACE : N := 32%N.

(** The class [\u00A0\u1680\u180E\u2000-\u200B\u202F\u205F\u3000\uFEFF] of the
    first [replace] in [cleanText]. *)
Definition is_special (c : N) : bool :=
  (N.eqb c 0xA0 || N.eqb c 0x1680 || N.eqb c 0x180E
   || (N.leb 0x2000 c && N.leb c 0x200B)
   || N.eqb c 0x202F || N.eqb c 0x205F || N.eqb c 0x3000
   || N.eqb c 0xFEFF)%N.

(** The class [\s] of a regular expression, which is also what [trim]
    strips: WhiteSpace and LineTerminator of ECMAScript. *)
Definition is_space (c : N) : bool :=
  ((N.leb 9 c && N.leb c 13) || N.eqb c 32
   || N.eqb c 0xA0 || N.eqb c 0x1680
   || (N.leb 0x2000 c && N.leb c 0x200A)
   || N.eqb c 0x2028 || N.eqb c 0x2029
   || N.eqb c 0x202F || N.eqb c 0x205F || N.eqb c 0x3000
   || N.eqb c 0xFEFF)%N.

(** [.replace(/[...]/g, ' ')] *)
Definition replace_special (s : jsstring) : jsstring :=
  map (fun c => if is_special c then SPACE else c) s.

(** [.replace(/\s+/g, ' ')]: every maximal run of [\s] becomes one space.
    [in_run] tells that the previous code unit belonged to a run. *)
Fixpoint collapse_from (in_run : bool) (s : jsstring) : jsstring :=
  match s with
  | [] => []
  | c :: t =>
      if is_space c
      then (if in_run then collapse_from true t
            else SPACE :: collapse_from true t)
      else c :: collapse_from false t
  end.

Definition collapse_ws (s : jsstring) : jsstring := collapse_from false s.

Fixpoint trim_start (s : jsstring) : jsstring :=
  match s with
  | [] => []
  | c :: t => if is_space c then trim_start t else s
  end.

Fixpoint trim_end (s : jsstring) : jsstring :=
  match s with
  | [] => []
  | c :: t =>
      match trim_end t with
      | [] => if is_space c then [] else [c]
      | r => c :: r
      end
  end.

(** [String.prototype.trim] *)
Definition trim (s : jsstring) : jsstring := trim_end (trim_start s).

(** The three whitespace steps of [cleanText], before [toLowerCase]. *)
Definition squash (s : jsstring) : jsstring :=
  trim (collapse_ws (replace_special s)).

(** [squashed prev s]: [s] has no special code unit, its only whitespace is
    the plain space, and no space follows a space ([prev] tells whether a
    space precedes [s]). *)
Fixpoint squashed (prev : bool) (s : jsstring) : bool :=
  match s with
  | [] => true
  | c :: t =>
      if is_space c
      then N.eqb c SPACE && negb prev && squashed true t
      else negb (is_special c) && squashed false t
  end.

(** Lower-casing of the ASCII letters only; [toLowerCase] agrees with it on
    ASCII strings. *)
Definition ascii_lower_unit (c : N) : N :=
  if (N.leb 65 c && N.leb c 90)%N then (c + 32)%N else c.

Definition ascii_lower (s : jsstring) : jsstring := map ascii_lower_unit s.

Definition is_ascii (s : jsstring) : bool :=
  forallb (fun c => N.ltb c 128) s.

(* ================================================================== *)
(** ** Numbers and values *)

Inductive number : Type :=
| NaN
| NegInf
| Fin (q : Q)
| PosInf.

(** ToBoolean on a number: [NaN] and zero are falsy. *)
Definition num_truthy (n : number) : bool :=
  match n with
  | NaN => false
  | Fin q => negb (Qeq_bool q 0)
  | _ => true
  end.

(** [a > b] on numbers. *)
Definition num_gt (a b : number) : bool :=
  match a, b with
  | NaN, _ | _, NaN => false
  | PosInf, PosInf => false
  | PosInf, _ => true
  | _, PosInf => false
  | NegInf, _ => false
  | Fin _, NegInf => true
  | Fin x, Fin y => negb (Qle_bool x y)
  end.

(** [a || b] on numbers. *)
Definition num_or (a b : number) : number :=
  if num_truthy a then a else b.

Inductive value : Type :=
| VUndefined
| VNull
| VBool (b : bool)
| VNum (n : number)
| VStr (s : jsstring).

(** ToBoolean *)
Definition truthy (v : value) : bool :=
  match v with
  | VUndefined | VNull => false
  | VBool b => b
  | VNum n => num_truthy n
  | VStr s => negb (is_empty s)
  end.

(** [a || b] *)
Definition js_or (a b : value) : value := if truthy a then a else b.

(** [typeof v === 'string'] *)
Definition is_string (v : value) : bool :=
  match v with VStr _ => true | _ => false end.

(** The code units of a decimal numeral. *)
Fixpoint units_of_uint (d : Decimal.uint) : jsstring :=
  match d with
  | Decimal.Nil => []
  | Decimal.D0 d' => 48%N :: units_of_uint d'
  | Decimal.D1 d' => 49%N :: units_of_uint d'
  | Decimal.D2 d' => 50%N :: units_of_uint d'
  | Decimal.D3 d' => 51%N :: units_of_uint d'
  | Decimal.D4 d' => 52%N :: units_of_uint d'
  | Decimal.D5 d' => 53%N :: units_of_uint d'
  | Decimal.D6 d' => 54%N :: units_of_uint d'
  | Decimal.D7 d' => 55%N :: units_of_uint d'
  | Decimal.D8 d' => 56%N :: units_of_uint d'
  | Decimal.D9 d' => 57%N :: units_of_uint d'
  end.

(** The decimal numeral of a natural number and of an integer. *)
Definition decimal (n : N) : jsstring := units_of_uint (N.to_uint n).

Definition decimalZ (z : Z) : jsstring :=
  match z with
  | Zneg p => 45%N :: decimal (Npos p)
  | _ => decimal (Z.to_N z)
  end.

(** The engine and the Unicode tables. *)
Record Runtime : Type := {
  (** [String.prototype.toLowerCase] *)
  toLowerCase : jsstring -> jsstring;
  (** Number::toString on a finite number that is not an integer below
      2^53 in magnitude (fractions, rounded digits and exponent forms) *)
  fractionToString : Q -> jsstring;
  (** StringToNumber, the string case of [Number(v)] *)
  StringToNumber : jsstring -> number;
  (** [Date.parse], the string case of [new Date(v).getTime()] *)
  DateParse : jsstring -> number;
  (** the property key that the member of [Object.prototype] of the given
      name converts to (the source text of a built-in function) *)
  inheritedKey : jsstring -> jsstring
}.

(** What the development assumes of [toLowerCase]. *)
Definition lower_idempotent (rt : Runtime) : Prop :=
  forall s, toLowerCase rt (toLowerCase rt s) = toLowerCase rt s.

Definition lower_keeps_squashed (rt : Runtime) : Prop :=
  forall s, squash s = s -> squash (toLowerCase rt s) = toLowerCase rt s.

Definition lower_on_ascii (rt : Runtime) : Prop :=
  forall s, is_ascii s = true -> toLowerCase rt s = ascii_lower s.

Section Engine.

Variable rt : Runtime.

(** Number::toString *)
Definition NumberToString (n : number) : jsstring :=
  match n with
  | NaN => str "NaN"
  | PosInf => str "Infinity"
  | NegInf => str "-Infinity"
  | Fin q =>
      let r := Qred q in
      if (Pos.eqb (Qden r) 1 && Z.ltb (Z.abs (Qnum r)) (2 ^ 53))%Z
      then decimalZ (Qnum r)
      else fractionToString rt r
  end.

(** [String(v)] *)
Definition ToString (v : value) : jsstring :=
  match v with
  | VUndefined => str "undefined"
  | VNull => str "null"
  | VBool true => str "true"
  | VBool false => str "false"
  | VNum n => NumberToString n
  | VStr s => s
  end.

(** [cleanText] *)
Definition cleanText (val : value) : jsstring :=
  match val with
  | VNull | VUndefined => []
  | _ => toLowerCase rt
           (trim (collapse_ws (replace_special (ToString val))))
  end.

End Engine.

(* ================================================================== *)
(** ** Plain objects and maps *)

(** An object with values in [V]: its own properties in creation order.
    The same lists model a [Map] with string keys, which iterates in
    insertion order. *)
Definition assoc (V : Type) := list (jsstring * V).

Fixpoint assoc_get {V} (o : assoc V) (k : jsstring) : option V :=
  match o with
  | [] => None
  | (k', v) :: t => if str_eqb k' k then Some v else assoc_get t k
  end.

(** Assignment [o[k] = v] and [Map.prototype.set]: an existing key keeps its
    place. *)
Fixpoint assoc_set {V} (o : assoc V) (k : jsstring) (v : V) : assoc V :=
  match o with
  | [] => [(k, v)]
  | (k', v') :: t =>
      if str_eqb k' k then (k', v) :: t else (k', v') :: assoc_set t k v
  end.

Definition mem (k : jsstring) (l : list jsstring) : bool :=
  existsb (str_eqb k) l.

(** [Set.prototype.add] *)
Definition set_add (k : jsstring) (s : list jsstring) : list jsstring :=
  if mem k s then s else s ++ [k].

(** A row of a sheet. *)
Definition obj := assoc value.

(** [o[k]] for a key that [Object.prototype] does not define, or whose
    inherited value cannot change the outcome (see [processData]). *)
Definition get (o : obj) (k : jsstring) : value :=
  match assoc_get o k with
  | Some v => v
  | None => VUndefined
  end.

Fixpoint digits_value (acc : N) (s : jsstring) : option N :=
  match s with
  | [] => Some acc
  | c :: t =>
      if (N.leb 48 c && N.leb c 57)%N
      then digits_value (10 * acc + (c - 48))%N t
      else None
  end.

(** An array index: the canonical decimal form of an integer below
    2^32 - 1.  Such keys are enumerated first. *)
Definition array_index (k : jsstring) : option N :=
  match k with
  | [] => None
  | c :: t =>
      if N.eqb c 48 && negb (is_empty t) then None
      else match digits_value 0 k with
           | Some n => if N.leb n 4294967294 then Some n else None
           | None => None
           end
  end.

Definition is_index (k : jsstring) : bool :=
  match array_index k with Some _ => true | None => false end.

Definition index_of (k : jsstring) : N :=
  match array_index k with Some n => n | None => 0%N end.

Fixpoint insert_index {V} (e : jsstring * V) (l : assoc V) : assoc V :=
  match l with
  | [] => [e]
  | e' :: t =>
      if N.leb (index_of (fst e)) (index_of (fst e'))
      then e :: l
      else e' :: insert_index e t
  end.

Definition sort_index {V} (l : assoc V) : assoc V :=
  fold_right insert_index [] l.

(** [Object.entries]: the array indices in ascending order, then the other
    keys in creation order. *)
Definition own_entries {V} (o : assoc V) : assoc V :=
  sort_index (filter (fun e => is_index (fst e)) o)
  ++ filter (fun e => negb (is_index (fst e))) o.

(** [Object.keys] *)
Definition own_keys {V} (o : assoc V) : list jsstring :=
  map fst (own_entries o).

(** The names that every plain object inherits from [Object.prototype]
    (all of them functions, but [__proto__], which is the prototype). *)
Definition object_prototype_names : list jsstring :=
  [ str "constructor"; str "hasOwnProperty"; str "isPrototypeOf";
    str "propertyIsEnumerable"; str "toLocaleString"; str "toString";
    str "valueOf"; str "__proto__"; str "__defineGetter__";
    str "__defineSetter__"; str "__lookupGetter__"; str "__lookupSetter__" ].

(* ================================================================== *)
(** ** Column aliases *)

Definition USERNAME_EMAIL : jsstring := str "Username (Email)".
Definition USER_EMPLOYEE_ID : jsstring := str "User/Employee ID".
Definition DISPLAY_NAME : jsstring := str "Display Name (Pharmacist name)".
Definition PHONE_NUMBER : jsstring := str "Phone number (Whatsapp)".
Definition PHARMACY_NO : jsstring := str "Pharmacy No.".
Definition SUPERVISOR_NAME : jsstring := str "Supervisor Name".

Definition COLUMN_ALIASES : assoc jsstring :=
  [ (str "Email address", USERNAME_EMAIL);
    (str "Username", USERNAME_EMAIL);
    (str "Email", USERNAME_EMAIL);
    (str "User Email", USERNAME_EMAIL);
    (str "E-mail", USERNAME_EMAIL);
    (str "User ID", USER_EMPLOYEE_ID);
    (str "Employee ID", USER_EMPLOYEE_ID);
    (str "EmployeeID", USER_EMPLOYEE_ID);
    (str "UserID", USER_EMPLOYEE_ID);
    (str "User/EmployeeID", USER_EMPLOYEE_ID);
    (str "ID", USER_EMPLOYEE_ID);
    (str "Emp ID", USER_EMPLOYEE_ID);
    (str "Display Name", DISPLAY_NAME);
    (str "Pharmacist Name", DISPLAY_NAME);
    (str "Pharmacist", DISPLAY_NAME);
    (str "Full Name", DISPLAY_NAME);
    (str "Name", DISPLAY_NAME);
    (str "Phone", PHONE_NUMBER);
    (str "Mobile", PHONE_NUMBER);
    (str "Phone Number", PHONE_NUMBER);
    (str "Whatsapp", PHONE_NUMBER);
    (str "Contact No", PHONE_NUMBER);
    (str "Pharmacy ID", PHARMACY_NO);
    (str "Pharmacy #", PHARMACY_NO);
    (str "Pharmacy Code", PHARMACY_NO);
    (str "Supervisor", SUPERVISOR_NAME);
    (str "Manager", SUPERVISOR_NAME) ].

(** What the variable [cleanKey] of [normalizeKeys] may hold: a string, a
    member inherited from [Object.prototype], or [undefined]. *)
Inductive keyval : Type :=
| KString (s : jsstring)
| KInherited (name : jsstring)
| KUndefined.

(** [COLUMN_ALIASES[k]] *)
Definition COLUMN_ALIASES_at (k : jsstring) : keyval :=
  match assoc_get COLUMN_ALIASES k with
  | Some canonical => KString canonical
  | None => if mem k object_prototype_names then KInherited k else KUndefined
  end.

Definition key_truthy (c : keyval) : bool :=
  match c with
  | KString s => negb (is_empty s)
  | KInherited _ => true
  | KUndefined => false
  end.

Definition is_undefined (v : value) : bool :=
  match v with VUndefined => true | _ => false end.

(** [v === ""] *)
Definition is_empty_string (v : value) : bool :=
  match v with VStr [] => true | _ => false end.

Section Resolver.

Variable rt : Runtime.

(** The property key that [cleanKey] converts to in [newObj[cleanKey]]. *)
Definition property_key (c : keyval) : jsstring :=
  match c with
  | KString s => s
  | KInherited name => inheritedKey rt name
  | KUndefined => str "undefined"
  end.

(** The value of [cleanKey] when the body of the loop of [normalizeKeys]
    reaches [if (cleanKey)]. *)
Definition resolveKey (key : jsstring) : keyval :=
  let cleanKey := trim key in
  if key_truthy (COLUMN_ALIASES_at cleanKey)
  then COLUMN_ALIASES_at cleanKey
  else
    let lowerKey := toLowerCase rt cleanKey in
    match find (fun k => str_eqb (toLowerCase rt k) lowerKey)
               (own_keys COLUMN_ALIASES) with
    | Some aliasMatch =>
        if negb (is_empty aliasMatch) then COLUMN_ALIASES_at aliasMatch
        else KString cleanKey
    | None => KString cleanKey
    end.

(** The body of the [forEach] of [normalizeKeys]. *)
Definition normalizeKey (o : obj) (newObj : obj) (key : jsstring) : obj :=
  let cleanKey := resolveKey key in
  if key_truthy cleanKey then
    let val := get o key in
    let p := property_key cleanKey in
    if is_undefined (get newObj p)
       || (is_empty_string (get newObj p)
           && negb (is_empty_string val) && negb (is_undefined val))
    then assoc_set newObj p val
    else newObj
  else newObj.

Definition normalizeKeys (o : obj) : obj :=
  fold_left (normalizeKey o) (own_keys o) [].

End Resolver.

(* ================================================================== *)
(** ** Reconciliation: [processData] *)

Definition TARGET_VALUE_COMPLETED : jsstring :=
  str "completed (achieved pass grade)".
Definition TARGET_VALUE_COMPLETED_SIMPLE : jsstring := str "completed".
Definition TARGET_VALUE_NOT_COMPLETED : jsstring := str "not completed".

(** The value [{ row, rate }] of [lmsMap]. *)
Record entry : Type := { row : obj; rate : Q }.

(** The string fields of a final row. *)
Inductive field : Type :=
| District | City | SupervisorName | PharmacyNo | UserEmployeeID
| UsernameEmail | DisplayName | PhoneNumber | SCFHS.

Definition field_name (f : field) : jsstring :=
  match f with
  | District => str "District"
  | City => str "City"
  | SupervisorName => SUPERVISOR_NAME
  | PharmacyNo => PHARMACY_NO
  | UserEmployeeID => USER_EMPLOYEE_ID
  | UsernameEmail => USERNAME_EMAIL
  | DisplayName => DISPLAY_NAME
  | PhoneNumber => PHONE_NUMBER
  | SCFHS => str "SCFHS"
  end.

Record FinalReportRow : Type := {
  r_District : jsstring;
  r_City : jsstring;
  r_SupervisorName : jsstring;
  r_PharmacyNo : jsstring;
  r_UserEmployeeID : jsstring;
  r_UsernameEmail : jsstring;
  r_DisplayName : jsstring;
  r_PhoneNumber : jsstring;
  r_SCFHS : jsstring;
  CompletionRate : Q
}.

(** [r[f]] for a string field [f]. *)
Definition field_of (f : field) (r : FinalReportRow) : jsstring :=
  match f with
  | District => r_District r
  | City => r_City r
  | SupervisorName => r_SupervisorName r
  | PharmacyNo => r_PharmacyNo r
  | UserEmployeeID => r_UserEmployeeID r
  | UsernameEmail => r_UsernameEmail r
  | DisplayName => r_DisplayName r
  | PhoneNumber => r_PhoneNumber r
  | SCFHS => r_SCFHS r
  end.

(** TimeClip of a number: the time value of [new Date(n)]. *)
Definition TimeClip (n : number) : number :=
  match n with
  | Fin q =>
      if Qle_bool (Qabs q) (inject_Z 8640000000000000)
      then Fin (inject_Z (Z.quot (Qnum q) (Zpos (Qden q))))
      else NaN
  | _ => NaN
  end.

Section Reconciliation.

Variable rt : Runtime.

(** [Number(v)] *)
Definition ToNumber (v : value) : number :=
  match v with
  | VUndefined => NaN
  | VNull => Fin 0
  | VBool true => Fin 1
  | VBool false => Fin 0
  | VNum n => n
  | VStr s => StringToNumber rt s
  end.

(** [new Date(v).getTime()] *)
Definition DateGetTime (v : value) : number :=
  match v with
  | VStr s => DateParse rt s
  | _ => TimeClip (ToNumber v)
  end.

(** [new Date(row.Date).getTime() || Number(row.Date) || 0] *)
Definition resolvedDate (r : obj) : number :=
  let d := get r (str "Date") in
  num_or (num_or (DateGetTime d) (ToNumber d)) (Fin 0).

Definition is_target (val : jsstring) : bool :=
  str_eqb val TARGET_VALUE_COMPLETED
  || str_eqb val TARGET_VALUE_NOT_COMPLETED
  || str_eqb val TARGET_VALUE_COMPLETED_SIMPLE.

Definition is_done (val : jsstring) : bool :=
  str_eqb val TARGET_VALUE_COMPLETED
  || str_eqb val TARGET_VALUE_COMPLETED_SIMPLE.

(** The set [allKeys]. *)
Definition allKeys (combinedLMS : list obj) : list jsstring :=
  fold_left
    (fun acc r => fold_left (fun a k => set_add k a) (own_keys r) acc)
    combinedLMS [].

(** [combinedLMS.some(row => ...)].  A key that a row lacks reads as
    [undefined], or as an inherited function whose text is none of the three
    phrases: either way the test fails for that row. *)
Definition isLessonCol (combinedLMS : list obj) (key : jsstring) : bool :=
  existsb (fun r => is_target (cleanText rt (get r key))) combinedLMS.

(** The set [lessonColumns]. *)
Definition lessonColumns (combinedLMS : list obj) : list jsstring :=
  fold_left
    (fun acc key => if isLessonCol combinedLMS key then set_add key acc else acc)
    (allKeys combinedLMS) [].

Definition completedCount (cols : list jsstring) (r : obj) : nat :=
  List.length (filter (fun colKey => is_done (cleanText rt (get r colKey))) cols).

(** [calculateRate], for the set [cols] of lesson columns. *)
Definition calculateRate (cols : list jsstring) (r : obj) : Q :=
  if Nat.eqb (List.length cols) 0 then 0
  else inject_Z (Z.of_nat (completedCount cols r))
       / inject_Z (Z.of_nat (List.length cols)).

(** The body of the [forEach] that fills [lmsMap]. *)
Definition dedupStep (cols : list jsstring) (lmsMap : assoc entry) (r : obj)
  : assoc entry :=
  let rawEmail := get r USERNAME_EMAIL in
  if negb (truthy rawEmail) || negb (is_string rawEmail) then lmsMap
  else
    let emailKey := cleanText rt rawEmail in
    if is_empty emailKey || str_eqb emailKey (str "undefined") then lmsMap
    else
      let newRate := calculateRate cols r in
      match assoc_get lmsMap emailKey with
      | Some existing =>
          if negb (Qle_bool newRate (rate existing)) then
            assoc_set lmsMap emailKey {| row := r; rate := newRate |}
          else if Qeq_bool newRate (rate existing) then
            let dateA := resolvedDate r in
            let dateB := resolvedDate (row existing) in
            if num_gt dateA dateB
            then assoc_set lmsMap emailKey {| row := r; rate := newRate |}
            else lmsMap
          else lmsMap
      | None => assoc_set lmsMap emailKey {| row := r; rate := newRate |}
      end.

Definition dedupe (cols : list jsstring) (combinedLMS : list obj)
  : assoc entry :=
  fold_left (dedupStep cols) combinedLMS [].

(** The map [masterMap]. *)
Definition masterIndex (master : list obj) : assoc obj :=
  fold_left
    (fun masterMap r =>
       let rawEmail := get r USERNAME_EMAIL in
       if truthy rawEmail then assoc_set masterMap (cleanText rt rawEmail) r
       else masterMap)
    master [].

(** [masterRow?.[name] || lmsRow[name] || ''] *)
Definition mergeField (masterRow : option obj) (lmsRow : obj)
                      (name : jsstring) : value :=
  js_or (js_or (match masterRow with
                | Some m => get m name
                | None => VUndefined
                end)
               (get lmsRow name))
        (VStr []).

(** The body of the [forEach] that fills [finalRows]: the row pushed, if
    any. *)
Definition mergeEntry (masterRow : option obj) (lmsEntry : entry)
  : option FinalReportRow :=
  let lmsRow := row lmsEntry in
  let completionRate := rate lmsEntry in
  let resolve f := mergeField masterRow lmsRow (field_name f) in
  if truthy (resolve UserEmployeeID) || truthy (resolve UsernameEmail)
     || truthy (resolve DisplayName)
  then Some {| r_District := ToString rt (resolve District);
               r_City := ToString rt (resolve City);
               r_SupervisorName := ToString rt (resolve SupervisorName);
               r_PharmacyNo := ToString rt (resolve PharmacyNo);
               r_UserEmployeeID := ToString rt (resolve UserEmployeeID);
               r_UsernameEmail := ToString rt (resolve UsernameEmail);
               r_DisplayName := ToString rt (resolve DisplayName);
               r_PhoneNumber := ToString rt (resolve PhoneNumber);
               r_SCFHS := ToString rt (resolve SCFHS);
               CompletionRate := completionRate |}
  else None.

Definition finalRows (lmsMap : assoc entry) (masterMap : assoc obj)
  : list FinalReportRow :=
  flat_map
    (fun kv => match mergeEntry (assoc_get masterMap (fst kv)) (snd kv) with
               | Some r => [r]
               | None => []
               end)
    lmsMap.

Definition processData (lms1 lms2 master : list obj) : list FinalReportRow :=
  let combinedLMS := lms1 ++ lms2 in
  let cols := lessonColumns combinedLMS in
  finalRows (dedupe cols combinedLMS) (masterIndex master).

End Reconciliation.

(* ================================================================== *)
(** ** Aggregation: [generateExcelFile] and [createPivotTable] *)

Definition FULL : Q := 999 # 1000.

(** [rate >= 0.999] *)
Definition rate_completed (q : Q) : bool := Qle_bool FULL q.

(** [rate > 0 && rate < 0.999] *)
Definition rate_inProgress (q : Q) : bool :=
  negb (Qle_bool q 0) && negb (Qle_bool FULL q).

(** [rate === 0] *)
Definition rate_notStarted (q : Q) : bool := Qeq_bool q 0.

Definition count_rows (p : Q -> bool) (data : list FinalReportRow) : nat :=
  List.length (filter (fun d => p (CompletionRate d)) data).

(** [total > 0 ? n / total : 0] *)
Definition share (n total : nat) : Q :=
  if Nat.ltb 0 total
  then inject_Z (Z.of_nat n) / inject_Z (Z.of_nat total)
  else 0.

(** The numbers of [summaryData], row by row: count and percentage. *)
Record Summary : Type := {
  total : nat;
  completed : nat;
  completedShare : Q;
  inProgress : nat;
  inProgressShare : Q;
  notStarted : nat;
  notStartedShare : Q
}.

Definition summaryData (data : list FinalReportRow) : Summary :=
  let total := List.length data in
  let completed := count_rows rate_completed data in
  let inProgress := count_rows rate_inProgress data in
  let notStarted := count_rows rate_notStarted data in
  {| total := total;
     completed := completed;
     completedShare := share completed total;
     inProgress := inProgress;
     inProgressShare := share inProgress total;
     notStarted := notStarted;
     notStartedShare := share notStarted total |}.

(** The counters of one group of a pivot table. *)
Record stats : Type := {
  g_total : nat; g_comp : nat; g_prog : nat; g_not : nat
}.

Definition BLANK : jsstring := str "(Blank)".

(** [String(row[groupByField] || '(Blank)')] *)
Definition groupKey (groupByField : field) (r : FinalReportRow) : jsstring :=
  let v := field_of groupByField r in
  if is_empty v then BLANK else v.

(** [groups[key].total++] and the three-way count. *)
Definition tally (s : stats) (q : Q) : stats :=
  let s1 := {| g_total := S (g_total s); g_comp := g_comp s;
               g_prog := g_prog s; g_not := g_not s |} in
  if rate_completed q then
    {| g_total := g_total s1; g_comp := S (g_comp s1);
       g_prog := g_prog s1; g_not := g_not s1 |}
  else if rate_inProgress q then
    {| g_total := g_total s1; g_comp := g_comp s1;
       g_prog := S (g_prog s1); g_not := g_not s1 |}
  else
    {| g_total := g_total s1; g_comp := g_comp s1;
       g_prog := g_prog s1; g_not := S (g_not s1) |}.

(** The body of [data.forEach] in [createPivotTable].  For a group name
    that [Object.prototype] defines, [groups[key]] is the inherited member:
    no own property is created and the counters of that member are the ones
    incremented. *)
Definition groupStep (groupByField : field) (groups : assoc stats)
                     (r : FinalReportRow) : assoc stats :=
  let key := groupKey groupByField r in
  match assoc_get groups key with
  | Some s => assoc_set groups key (tally s (CompletionRate r))
  | None =>
      if mem key object_prototype_names then groups
      else assoc_set groups key
             (tally {| g_total := 0; g_comp := 0; g_prog := 0; g_not := 0 |}
                    (CompletionRate r))
  end.

Definition groupsOf (groupByField : field) (data : list FinalReportRow)
  : assoc stats :=
  fold_left (groupStep groupByField) data [].

(** [Array.prototype.sort] with [(a, b) => b[1].total - a[1].total]: the
    stable sort by descending total.  An entry is inserted before the first
    entry whose total is not greater. *)
Fixpoint insert_desc (e : jsstring * stats) (l : assoc stats) : assoc stats :=
  match l with
  | [] => [e]
  | e' :: t =>
      if Nat.ltb (g_total (snd e)) (g_total (snd e'))
      then e' :: insert_desc e t
      else e :: l
  end.

Definition sort_desc (l : assoc stats) : assoc stats :=
  fold_right insert_desc [] l.

(** [Object.entries(groups).sort(...)] *)
Definition pivotGroups (groupByField : field) (data : list FinalReportRow)
  : assoc stats :=
  sort_desc (own_entries (groupsOf groupByField data)).

(** A cell of the array of arrays given to the sheet. *)
Inductive cell : Type :=
| CText (s : jsstring)
| CNumber (q : Q).

Definition CNat (n : nat) : cell := CNumber (inject_Z (Z.of_nat n)).

(** [stats.total ? stats.comp / stats.total : 0] *)
Definition pivotRow (e : jsstring * stats) : list cell :=
  let s := snd e in
  [ CText (fst e); CNat (g_total s); CNat (g_comp s); CNat (g_prog s);
    CNat (g_not s); CNumber (share (g_comp s) (g_total s)) ].

Definition createPivotTable (groupByField : field) (title : jsstring)
                            (data : list FinalReportRow) : list (list cell) :=
  [ CText title; CText []; CText []; CText []; CText []; CText [] ]
  :: [ CText (field_name groupByField); CText (str "Total Count");
       CText (str "Completed"); CText (str "In Progress");
       CText (str "Not Started"); CText (str "Completion %") ]
  :: map pivotRow (pivotGroups groupByField data)
  ++ [ [ CText [] ] ].

(* ================================================================== *)
(** ** A runtime to run the definitions on *)

(** ASCII lower-casing; no string is read as a date or as a number; a
    fraction is printed as its numerator over its denominator; the members
    of [Object.prototype] print as V8 prints them. *)
Definition ascii_runtime : Runtime := {|
  toLowerCase := ascii_lower;
  fractionToString := fun q =>
    decimalZ (Qnum q) ++ str "/" ++ decimal (Npos (Qden q));
  StringToNumber := fun _ => NaN;
  DateParse := fun _ => NaN;
  inheritedKey := fun k =>
    if str_eqb k (str "__proto__") then str "[object Object]"
    else str "function "
         ++ (if str_eqb k (str "constructor") then str "Object" else k)
         ++ str "() { [native code] }"
|}.


(* ================================================================== *)
(** ** The rules in the words of the specification *)

(** [a === b] on numbers. *)
Definition num_eqb (a b : number) : bool :=
  match a, b with
  | Fin x, Fin y => Qeq_bool x y
  | PosInf, PosInf => true
  | NegInf, NegInf => true
  | _, _ => false
  end.

(** A number that [||] lets through: neither [NaN] nor zero. *)
Definition usable (n : number) : bool :=
  match n with
  | NaN => false
  | Fin q => negb (Qeq_bool q 0)
  | _ => true
  end.

(** The epoch timestamp of the parsed date.  A text is parsed as a date; a
    number is a count of milliseconds, cut to a whole number, and no date
    beyond 8.64e15; [true], [false] and [null] count as 1, 0 and 0; a
    missing cell is no date. *)
Definition spec_timestamp (rt : Runtime) (d : value) : number :=
  match d with
  | VStr s => DateParse rt s
  | VNum (Fin q) =>
      if Qle_bool (Qabs q) (inject_Z 8640000000000000)
      then Fin (inject_Z (Z.quot (Qnum q) (Zpos (Qden q))))
      else NaN
  | VNum _ => NaN
  | VBool true => Fin 1
  | VBool false => Fin 0
  | VNull => Fin 0
  | VUndefined => NaN
  end.

(** The value parsed as a plain number. *)
Definition spec_plain_number (rt : Runtime) (d : value) : number :=
  match d with
  | VStr s => StringToNumber rt s
  | VNum n => n
  | VBool true => Fin 1
  | VBool false => Fin 0
  | VNull => Fin 0
  | VUndefined => NaN
  end.

(** The date of a row, resolved in three steps: the epoch timestamp of the
    parsed date; else the value parsed as a plain number; else 0.  A step
    yields nothing usable when its result is [NaN] or zero. *)
Definition spec_resolved_date (rt : Runtime) (r : obj) : number :=
  let d := get r (str "Date") in
  if usable (spec_timestamp rt d) then spec_timestamp rt d
  else if usable (spec_plain_number rt d) then spec_plain_number rt d
  else Fin 0.

(** [a] is strictly later than [b]. *)
Definition spec_later (a b : number) : Prop :=
  match a, b with
  | Fin x, Fin y => y < x
  | PosInf, Fin _ | PosInf, NegInf | Fin _, NegInf => True
  | _, _ => False
  end.

(** The new row replaces the stored entry: its score is strictly greater,
    or the scores tie and its resolved date is strictly later. *)
Definition spec_replaces (rt : Runtime) (newRow : obj) (newRate : Q)
                         (old : entry) : Prop :=
  rate old < newRate
  \/ (newRate == rate old
      /\ spec_later (spec_resolved_date rt newRow)
                    (spec_resolved_date rt (row old))).

(** The claim on a new key, as it is worded: a row whose identity key is
    neither empty nor "undefined" and not yet stored is recorded with its
    score. *)
Definition claimed_new_key_recorded (rt : Runtime) (cols : list jsstring)
                                    (lmsMap : assoc entry) (r : obj) : Prop :=
  let key := cleanText rt (get r USERNAME_EMAIL) in
  key <> [] -> key <> str "undefined" ->
  assoc_get lmsMap key = None ->
  dedupStep rt cols lmsMap r
  = lmsMap ++ [(key, {| row := r; rate := calculateRate rt cols r |})].

(** The value of a merged field: the master value when a master record
    exists and the value is truthy, else the LMS value when it is truthy,
    else the empty string. *)
Definition spec_precedence (masterRow : option obj) (lmsRow : obj)
                           (name : jsstring) : value :=
  match masterRow with
  | Some m =>
      if truthy (get m name) then get m name
      else if truthy (get lmsRow name) then get lmsRow name
      else VStr []
  | None =>
      if truthy (get lmsRow name) then get lmsRow name else VStr []
  end.

(** The name a source key resolves to: the canonical name of the table
    entry that the trimmed key matches exactly; else that of the first table
    entry that it matches without regard to case; else the trimmed key
    itself, which is dropped when it is empty. *)
Definition spec_resolve (rt : Runtime) (key : jsstring) : option jsstring :=
  let k := trim key in
  match assoc_get COLUMN_ALIASES k with
  | Some canonical => Some canonical
  | None =>
      match find (fun e => str_eqb (toLowerCase rt (fst e)) (toLowerCase rt k))
                 COLUMN_ALIASES with
      | Some e => Some (snd e)
      | None => if is_empty k then None else Some k
      end
  end.

(** The name a source key resolves to if, as the claim has it, an unmatched
    key passes through unchanged. *)
Definition claimed_resolve (rt : Runtime) (key : jsstring) : jsstring :=
  match assoc_get COLUMN_ALIASES (trim key) with
  | Some canonical => canonical
  | None =>
      match find (fun e => str_eqb (toLowerCase rt (fst e))
                                   (toLowerCase rt (trim key)))
                 COLUMN_ALIASES with
      | Some e => snd e
      | None => key
      end
  end.

(** A value that may overwrite a stored empty string. *)
Definition non_empty (v : value) : bool :=
  negb (is_empty_string v) && negb (is_undefined v).

(** What one more source value does to the value stored under a name. *)
Definition spec_collide (stored : option value) (val : value) : option value :=
  match stored with
  | None => Some val
  | Some cur => if is_empty_string cur && non_empty val then Some val
                else Some cur
  end.

(** The value kept under a name, given the values of the source keys that
    resolve to it in the order encountered: the first non-empty one, and
    the first one when all are empty. *)
Definition spec_kept (vals : list value) : option value :=
  match vals with
  | [] => None
  | v0 :: _ =>
      match find non_empty vals with
      | Some v => Some v
      | None => Some v0
      end
  end.

(** The values, in [Object.keys] order, of the source keys of [o] that
    resolve to [name]. *)
Definition sources (rt : Runtime) (o : obj) (name : jsstring) : list value :=
  map (get o)
      (filter (fun key => match spec_resolve rt key with
                          | Some p => str_eqb p name
                          | None => false
                          end)
              (own_keys o)).

(** A row as the sheet reader yields it: no key is, once trimmed, a name
    that [Object.prototype] defines, and no cell is [undefined]. *)
Definition sheet_row (o : obj) : Prop :=
  (forall key, In key (map fst o) ->
               mem (trim key) object_prototype_names = false)
  /\ (forall key, In key (map fst o) -> get o key <> VUndefined).

Fixpoint distinct (l : list jsstring) : bool :=
  match l with
  | [] => true
  | x :: t => negb (mem x t) && distinct t
  end.

(** The claim on keys: every source key of the row is found in the result
    under the name it resolves to, an unmatched key unchanged. *)
Definition claimed_pass_through (rt : Runtime) (o : obj) : Prop :=
  forall key, In key (map fst o) ->
              In (claimed_resolve rt key) (map fst (normalizeKeys rt o)).

(** The group names in the order in which the rows first show them. *)
Definition first_seen (keys : list jsstring) : list jsstring :=
  fold_left (fun acc k => set_add k acc) keys [].

(** The number of rows of a group. *)
Definition occurrences (k : jsstring) (keys : list jsstring) : nat :=
  List.length (filter (str_eqb k) keys).

Definition has_total (n : nat) (e : jsstring * stats) : bool :=
  Nat.eqb (g_total (snd e)) n.

(** [a] may stand before [b] in a pivot table. *)
Definition desc (a b : jsstring * stats) : Prop :=
  (g_total (snd b) <= g_total (snd a))%nat.

(** [a] may stand before [b] among the array indices. *)
Definition index_le {V} (a b : jsstring * V) : Prop :=
  (index_of (fst a) <= index_of (fst b))%N.

(** The claim on ties: the groups of any one total are listed in the order
    in which the rows first show them. *)
Definition claimed_ties (groupByField : field) (data : list FinalReportRow)
  : Prop :=
  let keys := map (groupKey groupByField) data in
  forall n,
    map fst (filter (has_total n) (pivotGroups groupByField data))
    = filter (fun k => Nat.eqb (occurrences k keys) n) (first_seen keys).

(** No group name is a name that [Object.prototype] defines. *)
Definition plain_groups (groupByField : field) (data : list FinalReportRow)
  : Prop :=
  forall r, In r data ->
            mem (groupKey groupByField r) object_prototype_names = false.

(* ================================================================== *)
(** ** Notions used in the proofs *)

(** The rows that the guards of the deduplication loop let through. *)
Definition admitted (rt : Runtime) (r : obj) : bool :=
  truthy (get r USERNAME_EMAIL) && is_string (get r USERNAME_EMAIL)
  && negb (is_empty (cleanText rt (get r USERNAME_EMAIL)))
  && negb (str_eqb (cleanText rt (get r USERNAME_EMAIL)) (str "undefined")).

(** An entry of [lmsMap] is a row of the input, under its own identity key
    and with its own score. *)
Definition stored_ok (rt : Runtime) (cols : list jsstring) (rows : list obj)
                     (kv : jsstring * entry) : Prop :=
  In (row (snd kv)) rows
  /\ admitted rt (row (snd kv)) = true
  /\ fst kv = cleanText rt (get (row (snd kv)) USERNAME_EMAIL)
  /\ rate (snd kv) = calculateRate rt cols (row (snd kv)).

(** No stored value is [undefined]. *)
Definition defined_values (o : obj) : Prop :=
  forall name, assoc_get o name <> Some VUndefined.

(** A decimal digit. *)
Definition is_digit (c : N) : Prop := (48 <= c <= 57)%N.

(* ================================================================== *)
(** ** ASCII data *)

(** The runtime [rt] with ASCII lower-casing in the place of
    [toLowerCase]: on ASCII data nothing else is asked of lower-casing. *)
Definition with_ascii_lower (rt : Runtime) : Runtime := {|
  toLowerCase := ascii_lower;
  fractionToString := fractionToString rt;
  StringToNumber := StringToNumber rt;
  DateParse := DateParse rt;
  inheritedKey := inheritedKey rt
|}.

(** A value whose text, once squashed, is ASCII. *)
Definition ascii_text (v : value) : bool :=
  match v with
  | VStr s => is_ascii (squash s)
  | VNum _ => false
  | _ => true
  end.

Definition ascii_row (r : obj) : bool :=
  forallb (fun kv => ascii_text (snd kv)) r.

Definition ascii_keys (o : obj) : bool :=
  forallb (fun kv => is_ascii (trim (fst kv))) o.

(* ================================================================== *)
(** ** Sample data *)

(** The end-to-end scenario of the specification. *)
Definition sheetA_row : obj :=
  [ (str "email", VStr (str "a@x.com"));
    (str "Date", VStr (str "2024-01-01"));
    (str "Lesson1", VStr (str "Completed"));
    (str "Lesson2", VStr (str "Not Completed")) ].

Definition sheetB_row : obj :=
  [ (str "email", VStr (str "A@X.com"));
    (str "Date", VStr (str "2024-02-01"));
    (str "Lesson1", VStr (str "Completed"));
    (str "Lesson2", VStr (str "Completed")) ].

Definition master_row : obj :=
  [ (str "Username (Email)", VStr (str "a@x.com"));
    (str "District", VStr (str "Riyadh")) ].

(** The rows of the scenario after alias resolution. *)
Definition lmsA : obj :=
  [ (USERNAME_EMAIL, VStr (str "a@x.com"));
    (str "Date", VStr (str "2024-01-01"));
    (str "Lesson1", VStr (str "Completed"));
    (str "Lesson2", VStr (str "Not Completed")) ].

Definition lmsB : obj :=
  [ (USERNAME_EMAIL, VStr (str "A@X.com"));
    (str "Date", VStr (str "2024-02-01"));
    (str "Lesson1", VStr (str "Completed"));
    (str "Lesson2", VStr (str "Completed")) ].

Definition lessons : list jsstring := [ str "Lesson1"; str "Lesson2" ].

(** The one row of the report of the scenario. *)
Definition scenario_row : FinalReportRow :=
  {| r_District := str "Riyadh"; r_City := []; r_SupervisorName := [];
     r_PharmacyNo := []; r_UserEmployeeID := [];
     r_UsernameEmail := str "a@x.com"; r_DisplayName := [];
     r_PhoneNumber := []; r_SCFHS := []; CompletionRate := 2 # 2 |}.

(** A sheet row with two email columns, the first one empty, and a padded
    name column. *)
Definition two_emails_row : obj :=
  [ (str "Email", VStr []);
    (str "E-MAIL", VStr (str "x@y.sa"));
    (str " Name ", VStr (str "Noura"));
    (str "Lesson 1", VStr (str "Completed")) ].

(** An LMS row whose email cell holds the number 12345. *)
Definition numeric_email_row : obj :=
  [ (USERNAME_EMAIL, VNum (Fin (inject_Z 12345)));
    (str "Lesson1", VStr (str "Completed")) ].

(** Two rows of one person and one score, dated by day serials. *)
Definition dated_row (serial : Z) : obj :=
  [ (USERNAME_EMAIL, VStr (str "a@x.com"));
    (str "Date", VNum (Fin (inject_Z serial)));
    (str "Lesson1", VStr (str "Completed"));
    (str "Lesson2", VStr (str "Not Completed")) ].

(** A sheet whose only header is one space. *)
Definition blank_header_row : obj := [ (str " ", VStr (str "x")) ].

(** A final row with a district and a rate, the other fields empty. *)
Definition district_row (d : jsstring) (q : Q) : FinalReportRow :=
  {| r_District := d; r_City := []; r_SupervisorName := [];
     r_PharmacyNo := []; r_UserEmployeeID := []; r_UsernameEmail := [];
     r_DisplayName := []; r_PhoneNumber := []; r_SCFHS := [];
     CompletionRate := q |}.

(** Two districts of one row each, the second named by a number. *)
Definition numbered_district_data : list FinalReportRow :=
  [ district_row (str "B") 1; district_row (str "7") 1 ].

(** The rates of the aggregation example of the specification, with one
    district seen twice and an empty district. *)
Definition aggregation_data : list FinalReportRow :=
  [ district_row (str "Riyadh") 1; district_row [] (999 # 1000);
    district_row (str "Jeddah") (1 # 2); district_row (str "Riyadh") 0 ].

(** A runtime that reads two ISO dates, as [Date.parse] does. *)
Definition calendar_runtime : Runtime := {|
  toLowerCase := ascii_lower;
  fractionToString := fractionToString ascii_runtime;
  StringToNumber := fun _ => NaN;
  DateParse := fun s =>
    if str_eqb s (str "2024-01-01") then Fin (inject_Z 1704067200000)
    else if str_eqb s (str "2024-02-01") then Fin (inject_Z 1706745600000)
    else NaN;
  inheritedKey := inheritedKey ascii_runtime
|}.

(** Two rows of one person and one score, dated by a text. *)
Definition texted_row (date : string) : obj :=
  [ (USERNAME_EMAIL, VStr (str "a@x.com"));
    (str "Date", VStr (str date));
    (str "Lesson1", VStr (str "Completed"));
    (str "Lesson2", VStr (str "Not Completed")) ].

(* ================================================================== *)
(** ** The rest of the service *)

(** A code unit that [cleanText] turns into whitespace: one of the class
    [\s] or of the class of the first [replace]. *)
Definition blank (c : N) : bool := is_space c || is_special c.

(** A text of ASCII code units and of such whitespace. *)
Definition ascii_or_blank (s : jsstring) : bool :=
  forallb (fun c => N.ltb c 128 || blank c) s.


(** *** [getXLSX] *)

(** A candidate for the library object: [utils] tells whether its [utils]
    property is truthy. *)
Record library : Type := { lib_id : nat; utils : bool }.

(** What [getXLSX] looks at: [window.XLSX] when [window] exists and the
    property is truthy, and the imported package when truthy, with its
    truthy [default] and [XLSX] exports. *)
Record package : Type := {
  pkg_self : library;
  pkg_default : option library;
  pkg_XLSX : option library
}.

Record environment : Type := {
  window_XLSX : option library;
  XLSXPkg : option package
}.

Definition has_utils (l : option library) : bool :=
  match l with Some x => utils x | None => false end.

Definition getXLSX (env : environment) : option library :=
  if has_utils (window_XLSX env) then window_XLSX env
  else
    match XLSXPkg env with
    | Some pkg =>
        if utils (pkg_self pkg) then Some (pkg_self pkg)
        else if has_utils (pkg_default pkg) then pkg_default pkg
        else if has_utils (pkg_XLSX pkg) then pkg_XLSX pkg
        else None
    | None => None
    end.

(** The candidates in the order in which [getXLSX] tries them. *)
Definition candidates (env : environment) : list library :=
  match window_XLSX env with Some l => [l] | None => [] end
  ++ match XLSXPkg env with
     | Some pkg =>
         pkg_self pkg
         :: match pkg_default pkg with Some l => [l] | None => [] end
         ++ match pkg_XLSX pkg with Some l => [l] | None => [] end
     | None => []
     end.

(** *** [parseExcel] *)

(** How the promise of [parseExcel] settles. *)
Inductive outcome (A : Type) : Type :=
| Resolved (a : A)
| Rejected (message : jsstring).

Arguments Resolved {A} a.
Arguments Rejected {A} message.

(** A workbook as [lib.read] returns it: [SheetNames], [None] when falsy,
    and [Sheets[name]], [None] when falsy. *)
Record workbook (sheet : Type) : Type := {
  SheetNames : option (list jsstring);
  Sheets : jsstring -> option sheet
}.

Arguments SheetNames {sheet} w.
Arguments Sheets {sheet} w name.

Definition LIBRARY_MISSING : jsstring :=
  str "Excel library (XLSX) not found. Please ensure your internet connection allows loading external scripts.".
Definition FILE_EMPTY : jsstring :=
  str "The uploaded file appears to be empty or invalid.".
Definition SHEET_MISSING : jsstring := str "Sheet could not be loaded.".

Section Parse.

Variable rt : Runtime.
Variable sheet : Type.
(** [lib.utils.sheet_to_json(sheet, { defval: '' })] *)
Variable sheet_to_json : sheet -> list obj.

(** The body of [reader.onload]: [lib] is the result of [getXLSX()], and
    [read] what [lib.read(data, { type: 'array' })] does, a workbook or an
    error thrown. *)
Definition parseExcel (lib : option library)
                      (read : outcome (workbook sheet)) : outcome (list obj) :=
  match lib with
  | None => Rejected LIBRARY_MISSING
  | Some l =>
      if negb (utils l) then Rejected LIBRARY_MISSING
      else
        match read with
        | Rejected error => Rejected error
        | Resolved wb =>
            match SheetNames wb with
            | None | Some [] => Rejected FILE_EMPTY
            | Some (firstSheetName :: _) =>
                match Sheets wb firstSheetName with
                | None => Rejected SHEET_MISSING
                | Some sh =>
                    Resolved (map (normalizeKeys rt) (sheet_to_json sh))
                end
            end
        end
  end.

End Parse.

(** *** The dashboard *)

(** The font colour of a cell of the completion column. *)
Definition rateColor (val : Q) : jsstring :=
  let color := str "000000" in
  if Qle_bool FULL val then str "008000"
  else if negb (Qle_bool val 0) then str "F4A460"
  else str "808080".

(** The sum of a counter over the groups of a pivot table. *)
Definition sum_of (f : stats -> nat) (groups : assoc stats) : nat :=
  fold_right (fun e acc => (f (snd e) + acc)%nat) 0%nat groups.

(** The identity key of an LMS row. *)
Definition identity (rt : Runtime) (r : obj) : jsstring :=
  cleanText rt (get r USERNAME_EMAIL).

(** Two optional rates are the same number, or both missing. *)
Definition same_rate (a b : option entry) : Prop :=
  match a, b with
  | Some x, Some y => rate x == rate y
  | None, None => True
  | _, _ => False
  end.

(** A column name that alias resolution leaves as it is. *)
Definition settled (rt : Runtime) (p : jsstring) : Prop :=
  trim p = p
  /\ mem p object_prototype_names = false
  /\ spec_resolve rt p = Some p.

(** Two sheet rows that differ in their headers only. *)
Definition shouted_row : obj :=
  [ (str "E-MAIL", VStr (str "x@y.sa")); (str "Manager", VStr (str "Huda")) ].

Definition canonical_row : obj :=
  [ (str "Username (Email)", VStr (str "x@y.sa"));
    (str "Supervisor Name", VStr (str "Huda")) ].
(* ================================================================== *)
(** ** Strings: lemmas *)

Lemma str_eqb_eq (a b : jsstring) : str_eqb a b = true <-> a = b.
Proof.
  revert b; induction a as [|x a IH]; intros [|y b]; simpl;
    try (split; [discriminate | congruence]); try tauto.
  rewrite andb_true_iff, N.eqb_eq, IH.
  split; [intros [-> ->]; reflexivity | intros [= -> ->]; auto].
Qed.

Lemma str_eqb_refl (a : jsstring) : str_eqb a a = true.
Proof. apply str_eqb_eq; reflexivity. Qed.

Lemma str_eqb_neq (a b : jsstring) : str_eqb a b = false <-> a <> b.
Proof.
  rewrite <- str_eqb_eq. destruct (str_eqb a b); split; congruence.
Qed.

Lemma str_eqb_sym (a b : jsstring) : str_eqb a b = str_eqb b a.
Proof.
  destruct (str_eqb a b) eqn:E.
  - apply str_eqb_eq in E; subst; symmetry; apply str_eqb_refl.
  - symmetry; apply str_eqb_neq; apply str_eqb_neq in E; congruence.
Qed.

Lemma squashed_weaken s : squashed true s = true -> squashed false s = true.
Proof.
  destruct s as [|c t]; simpl; auto.
  destruct (is_space c); auto.
  rewrite !andb_true_iff; intros [[_ H] _]; discriminate.
Qed.

Lemma replace_special_clean s :
  Forall (fun c => is_special c = false) (replace_special s).
Proof.
  induction s as [|c t IH]; simpl; constructor; auto.
  destruct (is_special c) eqn:E; auto.
Qed.

Lemma collapse_squashed b s :
  Forall (fun c => is_special c = false) s ->
  squashed b (collapse_from b s) = true.
Proof.
  intros H; revert b; induction H as [|c t Hc _ IH]; intros b; simpl; auto.
  destruct (is_space c) eqn:E.
  - destruct b; simpl; auto.
  - simpl. rewrite E, Hc. simpl. apply IH.
Qed.

Lemma trim_start_squashed b s :
  squashed b s = true -> squashed true (trim_start s) = true.
Proof.
  revert b; induction s as [|c t IH]; intros b; simpl; auto.
  destruct (is_space c) eqn:E.
  - rewrite !andb_true_iff; intros [_ H]; eauto.
  - simpl; rewrite E; auto.
Qed.

Lemma trim_end_squashed b s :
  squashed b s = true -> squashed b (trim_end s) = true.
Proof.
  revert b; induction s as [|c t IH]; intros b; simpl; auto.
  destruct (is_space c) eqn:E.
  - rewrite !andb_true_iff; intros [[Hc Hb] Ht].
    apply IH in Ht.
    destruct (trim_end t) as [|d r]; auto.
    remember (d :: r) as u. simpl. rewrite E, Hc, Hb, Ht. reflexivity.
  - rewrite !andb_true_iff; intros [Hc Ht].
    apply IH in Ht.
    destruct (trim_end t) as [|d r]; simpl; rewrite ?E, ?Hc; auto.
Qed.

Lemma trim_end_idem s : trim_end (trim_end s) = trim_end s.
Proof.
  induction s as [|c t IH]; simpl; auto.
  destruct (trim_end t) as [|d r] eqn:Et.
  - destruct (is_space c) eqn:E; simpl; rewrite ?E; auto.
  - remember (d :: r) as u. simpl. rewrite IH. subst u. reflexivity.
Qed.

Lemma squashed_replace b s :
  squashed b s = true -> replace_special s = s.
Proof.
  revert b; induction s as [|c t IH]; intros b; simpl; auto.
  destruct (is_space c) eqn:E; rewrite !andb_true_iff.
  - intros [[Hc _] Ht]. apply N.eqb_eq in Hc; subst c.
    simpl. f_equal; eauto.
  - intros [Hc Ht]. apply negb_true_iff in Hc. rewrite Hc. f_equal; eauto.
Qed.

Lemma squashed_collapse b s :
  squashed b s = true -> collapse_from b s = s.
Proof.
  revert b; induction s as [|c t IH]; intros b; simpl; auto.
  destruct (is_space c) eqn:E; rewrite !andb_true_iff.
  - intros [[Hc Hb] Ht]. apply N.eqb_eq in Hc; subst c.
    apply negb_true_iff in Hb; subst b. f_equal; eauto.
  - intros [_ Ht]. f_equal; eauto.
Qed.

Lemma squashed_trim_start s :
  squashed true s = true -> trim_start s = s.
Proof.
  destruct s as [|c t]; simpl; auto.
  destruct (is_space c); auto.
  rewrite andb_false_r; discriminate.
Qed.

Lemma squash_squashed s : squashed true (squash s) = true.
Proof.
  unfold squash, trim, collapse_ws.
  apply trim_end_squashed.
  apply trim_start_squashed with (b := false).
  apply collapse_squashed, replace_special_clean.
Qed.

(** The whitespace steps reach a fixed point at once. *)
Lemma squash_idem s : squash (squash s) = squash s.
Proof.
  pose proof (squash_squashed s) as H.
  unfold squash at 1.
  rewrite (squashed_replace _ _ H).
  unfold collapse_ws.
  rewrite (squashed_collapse _ _ (squashed_weaken _ H)).
  unfold trim. rewrite (squashed_trim_start _ H).
  unfold squash, trim. apply trim_end_idem.
Qed.

Lemma ascii_lower_idem s : ascii_lower (ascii_lower s) = ascii_lower s.
Proof.
  unfold ascii_lower. rewrite map_map. apply map_ext. intros c.
  unfold ascii_lower_unit.
  destruct (N.leb 65 c && N.leb c 90)%N eqn:E; rewrite ?E; auto.
  apply andb_true_iff in E. destruct E as [E1 E2].
  apply N.leb_le in E1, E2.
  assert (N.leb (c + 32) 90 = false)%N as -> by (apply N.leb_gt; lia).
  rewrite andb_false_r. reflexivity.
Qed.

Lemma ascii_lower_unit_space c : is_space (ascii_lower_unit c) = is_space c.
Proof.
  unfold ascii_lower_unit.
  destruct (N.leb 65 c && N.leb c 90)%N eqn:E; auto.
  apply andb_true_iff in E. destruct E as [E1 E2].
  apply N.leb_le in E1, E2.
  unfold is_space.
  repeat match goal with
  | |- context [N.eqb ?a ?b] =>
      let H := fresh in
      assert (H : N.eqb a b = false) by (apply N.eqb_neq; lia); rewrite H; clear H
  | |- context [N.leb ?a ?b] =>
      let H := fresh in
      first [ assert (H : N.leb a b = false) by (apply N.leb_gt; lia)
            | assert (H : N.leb a b = true) by (apply N.leb_le; lia) ];
      rewrite H; clear H
  end.
  reflexivity.
Qed.

Lemma ascii_lower_unit_special c :
  is_space c = false -> is_special (ascii_lower_unit c) = is_special c.
Proof.
  intros _. unfold ascii_lower_unit.
  destruct (N.leb 65 c && N.leb c 90)%N eqn:E; auto.
  apply andb_true_iff in E. destruct E as [E1 E2].
  apply N.leb_le in E1, E2.
  unfold is_special.
  repeat match goal with
  | |- context [N.eqb ?a ?b] =>
      let H := fresh in
      assert (H : N.eqb a b = false) by (apply N.eqb_neq; lia); rewrite H; clear H
  | |- context [N.leb ?a ?b] =>
      let H := fresh in
      first [ assert (H : N.leb a b = false) by (apply N.leb_gt; lia)
            | assert (H : N.leb a b = true) by (apply N.leb_le; lia) ];
      rewrite H; clear H
  end.
  reflexivity.
Qed.

Lemma ascii_lower_unit_is_space c :
  is_space c = true -> ascii_lower_unit c = c.
Proof.
  intros H. unfold ascii_lower_unit.
  destruct (N.leb 65 c && N.leb c 90)%N eqn:E; auto.
  rewrite <- ascii_lower_unit_space in H. unfold ascii_lower_unit in H.
  rewrite E in H.
  apply andb_true_iff in E. destruct E as [E1 E2].
  apply N.leb_le in E1, E2.
  unfold is_space in H.
  repeat match type of H with
  | context [N.eqb ?a ?b] =>
      let H' := fresh in
      assert (H' : N.eqb a b = false) by (apply N.eqb_neq; lia);
      rewrite H' in H; clear H'
  | context [N.leb ?a ?b] =>
      let H' := fresh in
      first [ assert (H' : N.leb a b = false) by (apply N.leb_gt; lia)
            | assert (H' : N.leb a b = true) by (apply N.leb_le; lia) ];
      rewrite H' in H; clear H'
  end.
  discriminate.
Qed.

Lemma ascii_lower_squashed b s :
  squashed b s = true -> squashed b (ascii_lower s) = true.
Proof.
  revert b; induction s as [|c t IH]; intros b; simpl; auto.
  rewrite ascii_lower_unit_space.
  destruct (is_space c) eqn:E.
  - rewrite (ascii_lower_unit_is_space _ E).
    rewrite !andb_true_iff; intros [[Hc Hb] Ht]; repeat split; auto.
  - rewrite (ascii_lower_unit_special _ E).
    rewrite !andb_true_iff; intros [Hc Ht]; split; auto.
Qed.

Lemma ascii_lower_trim_end s :
  trim_end (ascii_lower s) = ascii_lower (trim_end s).
Proof.
  induction s as [|c t IH]; simpl; auto.
  fold (ascii_lower t). rewrite IH, ascii_lower_unit_space.
  destruct (trim_end t) as [|d r]; simpl.
  - destruct (is_space c); reflexivity.
  - reflexivity.
Qed.

(** A string is a fixed point of [squash] exactly when it is squashed and
    has no trailing space. *)
Lemma squash_fixed_iff s :
  squash s = s <-> squashed true s = true /\ trim_end s = s.
Proof.
  split.
  - intros H. split.
    + rewrite <- H. apply squash_squashed.
    + rewrite <- H. unfold squash, trim. apply trim_end_idem.
  - intros [H1 H2]. unfold squash, collapse_ws, trim.
    rewrite (squashed_replace _ _ H1).
    rewrite (squashed_collapse _ _ (squashed_weaken _ H1)).
    rewrite (squashed_trim_start _ H1). exact H2.
Qed.

Lemma ascii_runtime_idempotent : lower_idempotent ascii_runtime.
Proof. intros s. apply ascii_lower_idem. Qed.

Lemma ascii_runtime_keeps_squashed : lower_keeps_squashed ascii_runtime.
Proof.
  intros s H. simpl. apply squash_fixed_iff in H. destruct H as [H1 H2].
  apply squash_fixed_iff. split.
  - apply ascii_lower_squashed; assumption.
  - rewrite ascii_lower_trim_end, H2. reflexivity.
Qed.

Lemma ascii_runtime_on_ascii : lower_on_ascii ascii_runtime.
Proof. intros s _. reflexivity. Qed.

(* ================================================================== *)
(** ** Text normalisation *)

Section NormalizerFacts.

Variable rt : Runtime.

Lemma cleanText_VStr s : cleanText rt (VStr s) = toLowerCase rt (squash s).
Proof. reflexivity. Qed.

Lemma lower_nil : lower_on_ascii rt -> toLowerCase rt [] = [].
Proof. intros H. rewrite H; reflexivity. Qed.

Lemma cleanText_squashed :
  lower_keeps_squashed rt -> forall v, squash (cleanText rt v) = cleanText rt v.
Proof.
  intros H v.
  destruct v; try reflexivity; simpl; apply H, squash_idem.
Qed.

End NormalizerFacts.


(* ================================================================== *)
(** ** Whitespace that normalisation does not see *)

Lemma blank_replaced c :
  blank c = true -> is_space (if is_special c then SPACE else c) = true.
Proof.
  unfold blank. destruct (is_special c); [reflexivity|].
  rewrite orb_false_r. auto.
Qed.

Lemma blank_run_replaced w :
  forallb blank w = true ->
  Forall (fun c => is_space c = true) (replace_special w).
Proof.
  induction w as [|c t IH]; simpl; [constructor|].
  rewrite andb_true_iff. intros [H1 H2].
  constructor; [apply blank_replaced; exact H1 | auto].
Qed.

(** A run of whitespace collapses to one space, or to nothing inside a run
    already begun. *)
Lemma collapse_run st w rest :
  w <> [] -> Forall (fun c => is_space c = true) w ->
  collapse_from st (w ++ rest)
  = (if st then [] else [SPACE]) ++ collapse_from true rest.
Proof.
  intros Hne H. revert st. induction H as [|c t Hc Ht IH]; [congruence|].
  intros st. simpl. rewrite Hc.
  destruct t as [|d t'].
  - simpl. destruct st; reflexivity.
  - rewrite IH by discriminate. destruct st; reflexivity.
Qed.

Lemma collapse_run_or_nil st w rest :
  Forall (fun c => is_space c = true) w ->
  collapse_from st (w ++ rest) = collapse_from st rest
  \/ collapse_from st (w ++ rest)
     = (if st then [] else [SPACE]) ++ collapse_from true rest.
Proof.
  intros H. destruct w as [|c t]; [left; reflexivity|].
  right. apply collapse_run; [discriminate | exact H].
Qed.

Lemma collapse_prefix st a x y :
  (forall st', collapse_from st' x = collapse_from st' y) ->
  collapse_from st (a ++ x) = collapse_from st (a ++ y).
Proof.
  intros H. revert st. induction a as [|c t IH]; intros st; simpl; [apply H|].
  destruct (is_space c); [destruct st|]; rewrite IH; reflexivity.
Qed.

Lemma trim_start_collapse s :
  trim_start (collapse_from true s) = trim_start (collapse_from false s).
Proof.
  destruct s as [|c t]; [reflexivity|]. simpl.
  destruct (is_space c) eqn:E; [reflexivity|]. reflexivity.
Qed.

Lemma trim_end_snoc x c : is_space c = true -> trim_end (x ++ [c]) = trim_end x.
Proof.
  intros Hc. induction x as [|a t IH]; simpl.
  - rewrite Hc. reflexivity.
  - rewrite IH. reflexivity.
Qed.

Lemma trim_snoc x c : is_space c = true -> trim (x ++ [c]) = trim x.
Proof.
  intros Hc. unfold trim. induction x as [|a t IH]; simpl.
  - rewrite Hc. reflexivity.
  - destruct (is_space a); [exact IH|].
    apply (trim_end_snoc (a :: t) c Hc).
Qed.

(** Whitespace after the text adds at most one space to the collapsed
    text. *)
Lemma collapse_suffix st s w :
  Forall (fun c => is_space c = true) w ->
  collapse_from st (s ++ w) = collapse_from st s
  \/ collapse_from st (s ++ w) = collapse_from st s ++ [SPACE].
Proof.
  intros H. revert st. induction s as [|c t IH]; intros st.
  - simpl. destruct w as [|d w']; [left; reflexivity|].
    rewrite <- (app_nil_r (d :: w')).
    rewrite collapse_run by (discriminate || exact H).
    simpl. destruct st; [left | right]; reflexivity.
  - simpl. destruct (is_space c).
    + destruct st.
      * apply IH.
      * destruct (IH true) as [E|E]; rewrite E; [left | right]; reflexivity.
    + destruct (IH false) as [E|E]; rewrite E; [left | right]; reflexivity.
Qed.

Lemma squash_padding pre s post :
  forallb blank pre = true -> forallb blank post = true ->
  squash (pre ++ s ++ post) = squash s.
Proof.
  intros Hpre Hpost. unfold squash, collapse_ws.
  unfold replace_special. rewrite !map_app.
  fold (replace_special pre) (replace_special s) (replace_special post).
  pose proof (blank_run_replaced pre Hpre) as Hp.
  pose proof (blank_run_replaced post Hpost) as Hq.
  set (p := replace_special pre) in *. set (q := replace_special post) in *.
  set (m := replace_special s).
  assert (Tail : forall st, trim_end (collapse_from st (m ++ q))
                            = trim_end (collapse_from st m)
                 /\ trim (collapse_from st (m ++ q)) = trim (collapse_from st m)).
  { intros st. destruct (collapse_suffix st m q Hq) as [E|E]; rewrite E.
    - split; reflexivity.
    - split; [apply trim_end_snoc | apply trim_snoc]; reflexivity. }
  destruct (collapse_run_or_nil false p (m ++ q) Hp) as [E|E]; rewrite E.
  - apply Tail.
  - cbn [app]. unfold trim. cbn [trim_start].
    change (is_space SPACE) with true. cbv iota.
    rewrite !trim_start_collapse. apply (Tail false).
Qed.

Lemma squash_inner_run a w1 w2 b :
  w1 <> [] -> w2 <> [] ->
  forallb blank w1 = true -> forallb blank w2 = true ->
  squash (a ++ w1 ++ b) = squash (a ++ w2 ++ b).
Proof.
  intros N1 N2 H1 H2. unfold squash, collapse_ws. f_equal.
  unfold replace_special. rewrite !map_app.
  fold (replace_special a) (replace_special w1) (replace_special w2)
       (replace_special b).
  apply collapse_prefix. intros st.
  rewrite !collapse_run; auto using blank_run_replaced.
  - destruct w2; [congruence | discriminate].
  - destruct w1; [congruence | discriminate].
Qed.

(* ================================================================== *)
(** ** Letter case that normalisation does not see *)

Lemma ascii_lower_unit_keeps_special c :
  is_special (ascii_lower_unit c) = is_special c.
Proof.
  unfold ascii_lower_unit.
  destruct (N.leb 65 c && N.leb c 90)%N eqn:E; auto.
  apply andb_true_iff in E. destruct E as [E1 E2].
  apply N.leb_le in E1, E2.
  unfold is_special.
  repeat match goal with
  | |- context [N.eqb ?a ?b] =>
      let H := fresh in
      assert (H : N.eqb a b = false) by (apply N.eqb_neq; lia); rewrite H; clear H
  | |- context [N.leb ?a ?b] =>
      let H := fresh in
      first [ assert (H : N.leb a b = false) by (apply N.leb_gt; lia)
            | assert (H : N.leb a b = true) by (apply N.leb_le; lia) ];
      rewrite H; clear H
  end.
  reflexivity.
Qed.

Lemma ascii_lower_replace_special s :
  replace_special (ascii_lower s) = ascii_lower (replace_special s).
Proof.
  unfold replace_special, ascii_lower. rewrite !map_map.
  apply map_ext. intros c. rewrite ascii_lower_unit_keeps_special.
  destruct (is_special c); reflexivity.
Qed.

Lemma ascii_lower_collapse b s :
  collapse_from b (ascii_lower s) = ascii_lower (collapse_from b s).
Proof.
  revert b. induction s as [|c t IH]; intros b; [reflexivity|].
  cbn [ascii_lower map collapse_from]. fold (ascii_lower t).
  rewrite ascii_lower_unit_space.
  destruct (is_space c), b; cbn [ascii_lower map]; rewrite IH; reflexivity.
Qed.

Lemma ascii_lower_trim_start s :
  trim_start (ascii_lower s) = ascii_lower (trim_start s).
Proof.
  induction s as [|c t IH]; [reflexivity|].
  cbn [ascii_lower map trim_start]. fold (ascii_lower t).
  rewrite ascii_lower_unit_space.
  destruct (is_space c); [exact IH | reflexivity].
Qed.

Lemma ascii_lower_squash s : squash (ascii_lower s) = ascii_lower (squash s).
Proof.
  unfold squash, trim, collapse_ws.
  rewrite ascii_lower_replace_special, ascii_lower_collapse,
          ascii_lower_trim_start, ascii_lower_trim_end.
  reflexivity.
Qed.

Lemma replace_special_plain s :
  ascii_or_blank s = true ->
  forallb (fun c => N.ltb c 128 || is_space c) (replace_special s) = true.
Proof.
  unfold ascii_or_blank, replace_special, blank.
  induction s as [|c t IH]; [reflexivity|].
  cbn [forallb map]. rewrite !andb_true_iff. intros [Hc Ht].
  split; [|exact (IH Ht)].
  destruct (is_special c); [reflexivity|].
  rewrite orb_false_r in Hc. exact Hc.
Qed.

Lemma collapse_ascii b s :
  forallb (fun c => N.ltb c 128 || is_space c) s = true ->
  is_ascii (collapse_from b s) = true.
Proof.
  unfold is_ascii. revert b. induction s as [|c t IH]; intros b; [reflexivity|].
  cbn [forallb collapse_from]. rewrite andb_true_iff. intros [Hc Ht].
  destruct (is_space c).
  - destruct b; cbn [forallb]; [|change (N.ltb SPACE 128) with true];
      apply IH; exact Ht.
  - cbn [forallb]. rewrite orb_false_r in Hc. rewrite Hc. apply IH. exact Ht.
Qed.

Lemma trim_start_ascii s : is_ascii s = true -> is_ascii (trim_start s) = true.
Proof.
  unfold is_ascii. induction s as [|c t IH]; [reflexivity|].
  cbn [trim_start]. destruct (is_space c); [|auto].
  cbn [forallb]. rewrite andb_true_iff. intros [_ Ht]. auto.
Qed.

Lemma trim_end_ascii s : is_ascii s = true -> is_ascii (trim_end s) = true.
Proof.
  unfold is_ascii. induction s as [|c t IH]; [reflexivity|].
  cbn [forallb trim_end]. rewrite andb_true_iff. intros [Hc Ht].
  specialize (IH Ht).
  destruct (trim_end t) as [|d r].
  - destruct (is_space c); [reflexivity|]. cbn [forallb]. rewrite Hc. reflexivity.
  - change (forallb (fun c0 => N.ltb c0 128) (c :: d :: r))
      with (N.ltb c 128 && forallb (fun c0 => N.ltb c0 128) (d :: r)).
    rewrite Hc, IH. reflexivity.
Qed.

Lemma squash_ascii s : ascii_or_blank s = true -> is_ascii (squash s) = true.
Proof.
  intros H. unfold squash, trim, collapse_ws.
  apply trim_end_ascii, trim_start_ascii, collapse_ascii, replace_special_plain.
  exact H.
Qed.

Lemma cleanText_any_case rt s s' :
  lower_on_ascii rt ->
  ascii_or_blank s = true -> ascii_or_blank s' = true ->
  ascii_lower s = ascii_lower s' ->
  cleanText rt (VStr s) = cleanText rt (VStr s').
Proof.
  intros Hascii H1 H2 E. rewrite !cleanText_VStr.
  rewrite (Hascii _ (squash_ascii s H1)), (Hascii _ (squash_ascii s' H2)).
  rewrite <- !ascii_lower_squash, E. reflexivity.
Qed.

(** C8.  [cleanText] is defined on every value, with [undefined] and [null]
    mapped to the empty string; normalising a normalised text changes
    nothing.  It does not see whitespace: neither padding around a text,
    nor which whitespace, and how much of it, separates two parts.  It does
    not see letter case: two texts of ASCII letters and whitespace that
    agree up to case have the same normal form.  So " A\u00A0B " and "a b"
    have the same normal form, "a b". *)
Theorem cleanText_total_idempotent (rt : Runtime) :
  lower_idempotent rt -> lower_keeps_squashed rt -> lower_on_ascii rt ->
  (forall v, exists s, cleanText rt v = s)
  /\ cleanText rt VUndefined = [] /\ cleanText rt VNull = []
  /\ (forall v, cleanText rt (VStr (cleanText rt v)) = cleanText rt v)
  /\ (forall s, cleanText rt (VStr (squash s)) = cleanText rt (VStr s))
  /\ cleanText rt (VStr [32; 65; 160; 66; 32]%N) = str "a b"
  /\ cleanText rt (VStr (str "a b")) = str "a b"
  /\ (forall pre s post,
        forallb blank pre = true -> forallb blank post = true ->
        cleanText rt (VStr (pre ++ s ++ post)) = cleanText rt (VStr s))
  /\ (forall a w1 w2 b,
        w1 <> [] -> w2 <> [] ->
        forallb blank w1 = true -> forallb blank w2 = true ->
        cleanText rt (VStr (a ++ w1 ++ b)) = cleanText rt (VStr (a ++ w2 ++ b)))
  /\ (forall s s',
        ascii_or_blank s = true -> ascii_or_blank s' = true ->
        ascii_lower s = ascii_lower s' ->
        cleanText rt (VStr s) = cleanText rt (VStr s')).
Proof.
  intros Hidem Hsq Hascii.
  split; [intros v; eexists; reflexivity|].
  split; [reflexivity|]. split; [reflexivity|].
  split; [|split; [|split; [|split; [|split; [|split]]]]].
  - intros v.
    assert (E : cleanText rt (VStr (cleanText rt v))
                = toLowerCase rt (squash (cleanText rt v))) by reflexivity.
    rewrite E, (cleanText_squashed rt Hsq).
    destruct v; simpl; try apply Hidem; apply lower_nil; assumption.
  - intros s. rewrite !cleanText_VStr, squash_idem. reflexivity.
  - rewrite cleanText_VStr, Hascii; reflexivity.
  - rewrite cleanText_VStr, Hascii; reflexivity.
  - intros pre s post Hpre Hpost. rewrite !cleanText_VStr.
    rewrite (squash_padding pre s post Hpre Hpost). reflexivity.
  - intros a w1 w2 b N1 N2 H1 H2. rewrite !cleanText_VStr.
    rewrite (squash_inner_run a w1 w2 b N1 N2 H1 H2). reflexivity.
  - intros s s'. apply cleanText_any_case. exact Hascii.
Qed.

Lemma cleanText_total_idempotent_witness :
  (forall v, cleanText ascii_runtime (VStr (cleanText ascii_runtime v))
             = cleanText ascii_runtime v)
  /\ cleanText ascii_runtime (VStr [32; 65; 160; 66; 32]%N) = str "a b"
  /\ cleanText ascii_runtime (VStr ([9; 160] ++ str "Ali  Omar" ++ [8203; 10])%N)
     = cleanText ascii_runtime (VStr (str "Ali  Omar"))
  /\ cleanText ascii_runtime (VStr (str "Ali" ++ [32; 32]%N ++ str "Omar"))
     = cleanText ascii_runtime (VStr (str "Ali" ++ [12288]%N ++ str "Omar"))
  /\ cleanText ascii_runtime (VStr (str "ALI Omar"))
     = cleanText ascii_runtime (VStr (str "ali oMAR")).
Proof.
  pose proof (cleanText_total_idempotent ascii_runtime
                ascii_runtime_idempotent ascii_runtime_keeps_squashed
                ascii_runtime_on_ascii) as H.
  destruct H as (_ & _ & _ & H1 & _ & H2 & _ & H3 & H4 & H5).
  split; [exact H1|]. split; [exact H2|].
  split; [apply H3; reflexivity|].
  split; [apply H4; solve [reflexivity | discriminate]|].
  apply H5; reflexivity.
Defined.


(* ================================================================== *)
(** ** Objects, maps and sets: lemmas *)

Lemma mem_In k l : mem k l = true <-> In k l.
Proof.
  unfold mem. rewrite existsb_exists. split.
  - intros (x & Hx & E). apply str_eqb_eq in E. subst; assumption.
  - intros H. exists k. split; [assumption | apply str_eqb_refl].
Qed.

Lemma mem_false k l : mem k l = false <-> ~ In k l.
Proof.
  rewrite <- mem_In. destruct (mem k l); split; congruence.
Qed.

Section AssocFacts.

Variable V : Type.
Implicit Types (o l : assoc V) (k : jsstring) (v : V).

Lemma assoc_get_Some_In o k v : assoc_get o k = Some v -> In (k, v) o.
Proof.
  induction o as [|[k' v'] t IH]; simpl; [discriminate|].
  destruct (str_eqb k' k) eqn:E.
  - apply str_eqb_eq in E. intros [= ->]. subst. left; reflexivity.
  - intros H. right. auto.
Qed.

Lemma assoc_get_None o k : assoc_get o k = None <-> ~ In k (map fst o).
Proof.
  induction o as [|[k' v'] t IH]; simpl; [tauto|].
  destruct (str_eqb k' k) eqn:E.
  - apply str_eqb_eq in E. split; [discriminate | intros H; tauto].
  - apply str_eqb_neq in E. rewrite IH. tauto.
Qed.

Lemma assoc_get_In_key o k : In k (map fst o) -> exists v, assoc_get o k = Some v.
Proof.
  intros H. destruct (assoc_get o k) as [v|] eqn:E; [eauto|].
  apply assoc_get_None in E. contradiction.
Qed.

Lemma assoc_set_get_eq o k v : assoc_get (assoc_set o k v) k = Some v.
Proof.
  induction o as [|[k' v'] t IH]; simpl.
  - rewrite str_eqb_refl. reflexivity.
  - destruct (str_eqb k' k) eqn:E; simpl; rewrite E; auto.
Qed.

Lemma assoc_set_get_neq o k k' v :
  k <> k' -> assoc_get (assoc_set o k v) k' = assoc_get o k'.
Proof.
  intros Hne. apply str_eqb_neq in Hne.
  induction o as [|[k0 v0] t IH]; simpl.
  - rewrite Hne. reflexivity.
  - destruct (str_eqb k0 k) eqn:E; simpl.
    + apply str_eqb_eq in E. subst k0. rewrite Hne. reflexivity.
    + rewrite IH. reflexivity.
Qed.

(** A new key goes to the end. *)
Lemma assoc_set_fresh o k v :
  assoc_get o k = None -> assoc_set o k v = o ++ [(k, v)].
Proof.
  induction o as [|[k' v'] t IH]; simpl; auto.
  destruct (str_eqb k' k); [discriminate|].
  intros H. rewrite IH; auto.
Qed.

(** An existing key keeps its place. *)
Lemma assoc_set_keys o k v v0 :
  assoc_get o k = Some v0 -> map fst (assoc_set o k v) = map fst o.
Proof.
  induction o as [|[k' v'] t IH]; simpl; [discriminate|].
  destruct (str_eqb k' k); simpl; auto.
  intros H. rewrite IH; auto.
Qed.

Lemma assoc_set_In o k v k' v' :
  In (k', v') (assoc_set o k v) -> (k' = k /\ v' = v) \/ In (k', v') o.
Proof.
  induction o as [|[k0 v0] t IH]; simpl.
  - intros [[= <- <-]|[]]. auto.
  - destruct (str_eqb k0 k) eqn:E; simpl.
    + apply str_eqb_eq in E. subst k0.
      intros [[= <- <-]|H]; auto.
    + intros [H|H]; auto. apply IH in H. tauto.
Qed.

Lemma assoc_set_NoDup o k v :
  NoDup (map fst o) -> NoDup (map fst (assoc_set o k v)).
Proof.
  intros H. destruct (assoc_get o k) as [v0|] eqn:E.
  - rewrite (assoc_set_keys _ _ v _ E). assumption.
  - rewrite (assoc_set_fresh _ _ v E), map_app. simpl.
    apply assoc_get_None in E.
    apply NoDup_app; auto.
    + constructor; [intros [] | constructor].
    + intros x Hx [<-|[]]. contradiction.
Qed.

Lemma insert_index_perm (e : jsstring * V) l :
  Permutation (insert_index e l) (e :: l).
Proof.
  induction l as [|e' t IH]; simpl; auto.
  destruct (N.leb (index_of (fst e)) (index_of (fst e'))); auto.
  rewrite IH. apply perm_swap.
Qed.

Lemma sort_index_perm l : Permutation (sort_index l) l.
Proof.
  induction l as [|e t IH]; simpl; auto.
  rewrite insert_index_perm, IH. reflexivity.
Qed.

Lemma filter_split_perm (f : jsstring * V -> bool) l :
  Permutation (filter f l ++ filter (fun e => negb (f e)) l) l.
Proof.
  induction l as [|e t IH]; simpl; auto.
  destruct (f e); simpl.
  - constructor; assumption.
  - rewrite <- Permutation_middle. constructor; assumption.
Qed.

Lemma own_entries_perm o : Permutation (own_entries o) o.
Proof.
  unfold own_entries. rewrite sort_index_perm. apply filter_split_perm.
Qed.

Lemma own_keys_In o k : In k (own_keys o) <-> In k (map fst o).
Proof.
  unfold own_keys.
  pose proof (Permutation_map fst (own_entries_perm o)) as P.
  split; apply Permutation_in; [assumption | symmetry; assumption].
Qed.

(** Without array indices the enumeration is the creation order. *)
Lemma own_entries_plain o :
  (forall k, In k (map fst o) -> is_index k = false) -> own_entries o = o.
Proof.
  intros H. unfold own_entries.
  assert (E : filter (fun e : jsstring * V => is_index (fst e)) o = []).
  { induction o as [|e t IH]; simpl; auto.
    rewrite (H (fst e)) by (left; reflexivity).
    apply IH. intros k Hk. apply H. right; assumption. }
  rewrite E. simpl.
  induction o as [|e t IH]; simpl; auto.
  rewrite (H (fst e)) by (left; reflexivity). simpl. f_equal.
  apply IH.
  - intros k Hk. apply H. right; assumption.
  - simpl in E. rewrite (H (fst e)) in E by (left; reflexivity). exact E.
Qed.

End AssocFacts.

Lemma set_add_In k x s : In x (set_add k s) <-> x = k \/ In x s.
Proof.
  unfold set_add. destruct (mem k s) eqn:E.
  - apply mem_In in E. split; [tauto | intros [->|H]; assumption].
  - rewrite in_app_iff. simpl. split; intros H; intuition congruence.
Qed.

Lemma set_add_NoDup k s : NoDup s -> NoDup (set_add k s).
Proof.
  intros H. unfold set_add. destruct (mem k s) eqn:E; auto.
  apply mem_false in E. apply NoDup_app; auto.
  - constructor; [intros [] | constructor].
  - intros x Hx [<-|[]]. contradiction.
Qed.

Lemma fold_set_add_In l acc x :
  In x (fold_left (fun a k => set_add k a) l acc) <-> In x acc \/ In x l.
Proof.
  revert acc; induction l as [|k t IH]; intros acc; simpl; [tauto|].
  rewrite IH, set_add_In. intuition congruence.
Qed.

Lemma fold_set_add_NoDup l acc :
  NoDup acc -> NoDup (fold_left (fun a k => set_add k a) l acc).
Proof.
  revert acc; induction l as [|k t IH]; intros acc H; simpl; auto.
  apply IH, set_add_NoDup, H.
Qed.

Lemma get_defined_key (o : obj) k : get o k <> VUndefined -> In k (map fst o).
Proof.
  unfold get. intros H.
  destruct (assoc_get o k) eqn:E; [|congruence].
  apply assoc_get_Some_In in E. apply (in_map fst) in E. exact E.
Qed.

(* ================================================================== *)
(** ** Lesson columns and the completion score *)

Lemma is_target_iff val :
  is_target val = true <->
  val = TARGET_VALUE_COMPLETED \/ val = TARGET_VALUE_COMPLETED_SIMPLE
  \/ val = TARGET_VALUE_NOT_COMPLETED.
Proof.
  unfold is_target. rewrite !orb_true_iff, !str_eqb_eq. tauto.
Qed.

Lemma is_done_iff val :
  is_done val = true <->
  val = TARGET_VALUE_COMPLETED_SIMPLE \/ val = TARGET_VALUE_COMPLETED.
Proof.
  unfold is_done. rewrite !orb_true_iff, !str_eqb_eq. tauto.
Qed.

Section ScoreFacts.

Variable rt : Runtime.
Implicit Types (combinedLMS : list obj) (r : obj) (key : jsstring).
Implicit Types (cols keys acc : list jsstring).

Lemma allKeys_from_In combinedLMS acc key :
  In key (fold_left
            (fun acc r => fold_left (fun a k => set_add k a) (own_keys r) acc)
            combinedLMS acc)
  <-> In key acc \/ exists r, In r combinedLMS /\ In key (map fst r).
Proof.
  revert acc; induction combinedLMS as [|r t IH]; intros acc; simpl.
  - split; [tauto | intros [H|(r & [] & _)]; assumption].
  - rewrite IH, fold_set_add_In, own_keys_In. split.
    + intros [[H|H]|(r' & H1 & H2)]; eauto.
    + intros [H|(r' & [<-|H1] & H2)]; eauto.
Qed.

Lemma allKeys_In combinedLMS key :
  In key (allKeys combinedLMS)
  <-> exists r, In r combinedLMS /\ In key (map fst r).
Proof.
  unfold allKeys. rewrite allKeys_from_In. simpl. tauto.
Qed.

Lemma allKeys_NoDup combinedLMS : NoDup (allKeys combinedLMS).
Proof.
  unfold allKeys. generalize (NoDup_nil jsstring).
  generalize (@nil jsstring) as acc.
  induction combinedLMS as [|r t IH]; intros acc H; simpl; auto.
  apply IH, fold_set_add_NoDup, H.
Qed.

Lemma lessonColumns_from_In (p : jsstring -> bool) keys acc key :
  In key (fold_left (fun acc k => if p k then set_add k acc else acc) keys acc)
  <-> In key acc \/ (In key keys /\ p key = true).
Proof.
  revert acc; induction keys as [|k t IH]; intros acc; simpl; [tauto|].
  rewrite IH. destruct (p k) eqn:E.
  - rewrite set_add_In. split.
    + intros [[->|H]|[H1 H2]]; auto.
    + intros [H|[[->|H1] H2]]; auto.
  - split.
    + intros [H|[H1 H2]]; auto.
    + intros [H|[[->|H1] H2]]; auto. congruence.
Qed.

Lemma lessonColumns_from_NoDup (p : jsstring -> bool) keys acc :
  NoDup acc ->
  NoDup (fold_left (fun acc k => if p k then set_add k acc else acc) keys acc).
Proof.
  revert acc; induction keys as [|k t IH]; intros acc H; simpl; auto.
  apply IH. destruct (p k); auto using set_add_NoDup.
Qed.

Lemma target_read_defined (r : obj) key :
  is_target (cleanText rt (get r key)) = true -> In key (map fst r).
Proof.
  intros H. apply get_defined_key. intros E. rewrite E in H. discriminate.
Qed.

Lemma completedCount_le cols r :
  (completedCount rt cols r <= List.length cols)%nat.
Proof. unfold completedCount. apply filter_length_le. Qed.

Lemma completedCount_all cols r :
  (forall c, In c cols -> is_done (cleanText rt (get r c)) = true) ->
  completedCount rt cols r = List.length cols.
Proof.
  unfold completedCount. induction cols as [|c t IH]; simpl; auto.
  intros H. rewrite (H c) by auto. simpl. f_equal. auto.
Qed.

Lemma completedCount_none cols r :
  (forall c, In c cols -> is_done (cleanText rt (get r c)) = false) ->
  completedCount rt cols r = 0%nat.
Proof.
  unfold completedCount. induction cols as [|c t IH]; simpl; auto.
  intros H. rewrite (H c) by auto. auto.
Qed.

Lemma Zpos_of_nat_S n : Z.pos (Pos.of_nat (S n)) = Z.of_nat (S n).
Proof. lia. Qed.

Lemma calculateRate_quotient cols r :
  cols <> [] ->
  calculateRate rt cols r
  == Z.of_nat (completedCount rt cols r) # Pos.of_nat (List.length cols).
Proof.
  intros H. unfold calculateRate.
  destruct cols as [|c t]; [congruence|].
  cbn [List.length Nat.eqb].
  rewrite Qmake_Qdiv, Zpos_of_nat_S. reflexivity.
Qed.

End ScoreFacts.

(** C5.  The score of a row is 0 for an empty set of lesson columns and
    otherwise the number of lesson columns whose normalised value is
    "completed" or "completed (achieved pass grade)" over the number of
    lesson columns; it lies in [0,1], is 1 when every lesson column is
    completed and 0 when none is. *)
Theorem calculateRate_score (rt : Runtime) (cols : list jsstring) (r : obj) :
  (forall c, is_done (cleanText rt (get r c)) = true <->
             cleanText rt (get r c) = str "completed"
             \/ cleanText rt (get r c) = str "completed (achieved pass grade)")
  /\ (cols = [] -> calculateRate rt cols r = 0)
  /\ (cols <> [] ->
      calculateRate rt cols r
      == Z.of_nat (List.length
                     (filter (fun c => is_done (cleanText rt (get r c))) cols))
         # Pos.of_nat (List.length cols))
  /\ 0 <= calculateRate rt cols r <= 1
  /\ (cols <> [] ->
      (forall c, In c cols -> is_done (cleanText rt (get r c)) = true) ->
      calculateRate rt cols r == 1)
  /\ ((forall c, In c cols -> is_done (cleanText rt (get r c)) = false) ->
      calculateRate rt cols r == 0).
Proof.
  split; [intros c; apply is_done_iff|].
  split; [intros ->; reflexivity|].
  split; [apply calculateRate_quotient|].
  destruct cols as [|c0 t].
  { cbn. repeat split; try discriminate; try reflexivity; congruence. }
  assert (Hne : c0 :: t <> []) by discriminate.
  pose proof (calculateRate_quotient rt (c0 :: t) r Hne) as E.
  pose proof (completedCount_le rt (c0 :: t) r) as Hle.
  set (n := List.length (c0 :: t)) in *.
  assert (Hn : n = S (List.length t)) by reflexivity.
  split; [|split].
  - rewrite E. unfold Qle. cbn [Qnum Qden]. split; lia.
  - intros _ Hall. rewrite E, (completedCount_all rt _ _ Hall).
    fold n. unfold Qeq. cbn [Qnum Qden]. lia.
  - intros Hnone. rewrite E, (completedCount_none rt _ _ Hnone).
    unfold Qeq. cbn [Qnum Qden]. lia.
Qed.

(** C4.  [allKeys] is the union of the column names of the combined rows,
    and a column is a lesson column exactly when some row has under it a
    normalised value that is one of the three phrases. *)
Theorem lessonColumns_iff (rt : Runtime) (combinedLMS : list obj)
                          (key : jsstring) :
  (In key (allKeys combinedLMS)
   <-> exists r, In r combinedLMS /\ In key (map fst r))
  /\ (In key (lessonColumns rt combinedLMS)
      <-> exists r, In r combinedLMS
                    /\ (cleanText rt (get r key)
                          = str "completed (achieved pass grade)"
                        \/ cleanText rt (get r key) = str "completed"
                        \/ cleanText rt (get r key) = str "not completed"))
  /\ ((forall r, In r combinedLMS ->
       cleanText rt (get r key) <> str "completed (achieved pass grade)"
       /\ cleanText rt (get r key) <> str "completed"
       /\ cleanText rt (get r key) <> str "not completed") ->
      ~ In key (lessonColumns rt combinedLMS))
  /\ NoDup (lessonColumns rt combinedLMS).
Proof.
  assert (main : In key (lessonColumns rt combinedLMS)
      <-> exists r, In r combinedLMS
                    /\ (cleanText rt (get r key)
                          = str "completed (achieved pass grade)"
                        \/ cleanText rt (get r key) = str "completed"
                        \/ cleanText rt (get r key) = str "not completed")).
  { unfold lessonColumns. rewrite lessonColumns_from_In. simpl.
    unfold isLessonCol. rewrite existsb_exists. split.
    - intros [[]|[_ (r & Hr & Ht)]]. exists r. split; auto.
      apply is_target_iff in Ht. exact Ht.
    - intros (r & Hr & Ht). right.
      assert (Ht' : is_target (cleanText rt (get r key)) = true)
        by (apply is_target_iff; exact Ht).
      split; [|exists r; auto].
      apply allKeys_In. exists r. split; auto.
      apply (target_read_defined rt). exact Ht'. }
  split; [apply allKeys_In|].
  split; [exact main|]. split.
  - intros Hno Hin. apply main in Hin. destruct Hin as (r & Hr & Ht).
    destruct (Hno r Hr) as (H1 & H2 & H3). tauto.
  - unfold lessonColumns. apply lessonColumns_from_NoDup. constructor.
Qed.

(* ================================================================== *)
(** ** Deduplication by identity *)

Lemma Qgt_bool_iff x y : negb (Qle_bool x y) = true <-> y < x.
Proof.
  rewrite negb_true_iff. split.
  - intros H. apply Qnot_le_lt. intros L.
    apply Qle_bool_iff in L. congruence.
  - intros H. destruct (Qle_bool x y) eqn:E; auto.
    apply Qle_bool_iff in E. apply Qlt_not_le in H. contradiction.
Qed.

Lemma num_gt_later a b : num_gt a b = true <-> spec_later a b.
Proof.
  destruct a, b; simpl; try (split; [discriminate | tauto]);
    try (split; [intros _; exact I | reflexivity]).
  apply Qgt_bool_iff.
Qed.

Lemma later_or_same a b :
  a <> NaN -> b <> NaN ->
  spec_later a b \/ spec_later b a \/ num_eqb a b = true.
Proof.
  destruct a as [| |x|], b as [| |y|]; simpl; intros Ha Hb;
    try congruence; auto.
  destruct (Q_dec x y) as [[H|H]|H]; auto.
  right; right. apply Qeq_bool_iff. exact H.
Qed.

Lemma same_not_later a b : num_eqb a b = true -> ~ spec_later a b.
Proof.
  destruct a as [| |x|], b as [| |y|]; simpl; try discriminate; auto.
  intros H L. apply Qeq_bool_iff in H. rewrite H in L.
  apply (Qlt_irrefl _ L).
Qed.

Section DedupFacts.

Variable rt : Runtime.
Variable cols : list jsstring.
Implicit Types (lmsMap : assoc entry) (r : obj).

Lemma DateGetTime_spec d : DateGetTime rt d = spec_timestamp rt d.
Proof. destruct d as [| |[|]|[| |q|]|s]; reflexivity. Qed.

Lemma ToNumber_spec d : ToNumber rt d = spec_plain_number rt d.
Proof. destruct d as [| |[|]|n|s]; reflexivity. Qed.

Lemma resolvedDate_spec r : resolvedDate rt r = spec_resolved_date rt r.
Proof.
  unfold resolvedDate, spec_resolved_date, num_or. cbv zeta.
  rewrite DateGetTime_spec, ToNumber_spec.
  generalize (spec_timestamp rt (get r (str "Date")))
             (spec_plain_number rt (get r (str "Date"))).
  intros a b. change num_truthy with usable.
  destruct (usable a) eqn:E1; cbv iota; [rewrite E1|]; reflexivity.
Qed.

Lemma resolvedDate_not_NaN r : resolvedDate rt r <> NaN.
Proof.
  unfold resolvedDate, num_or.
  destruct (num_truthy (DateGetTime rt (get r (str "Date")))) eqn:E1.
  - rewrite E1. intros H. rewrite H in E1. discriminate.
  - destruct (num_truthy (ToNumber rt (get r (str "Date")))) eqn:E2.
    + intros H. rewrite H in E2. discriminate.
    + discriminate.
Qed.

Lemma dedupStep_rejected lmsMap r :
  admitted rt r = false -> dedupStep rt cols lmsMap r = lmsMap.
Proof.
  unfold admitted, dedupStep. cbv zeta.
  destruct (truthy (get r USERNAME_EMAIL)); simpl; auto.
  destruct (is_string (get r USERNAME_EMAIL)); simpl; auto.
  destruct (is_empty (cleanText rt (get r USERNAME_EMAIL))); simpl; auto.
  intros H. apply negb_false_iff in H. rewrite H. reflexivity.
Qed.

Lemma dedupStep_admitted lmsMap r :
  admitted rt r = true ->
  dedupStep rt cols lmsMap r =
  let emailKey := cleanText rt (get r USERNAME_EMAIL) in
  let new := {| row := r; rate := calculateRate rt cols r |} in
  match assoc_get lmsMap emailKey with
  | Some existing =>
      if negb (Qle_bool (rate new) (rate existing)) then
        assoc_set lmsMap emailKey new
      else if Qeq_bool (rate new) (rate existing) then
        if num_gt (resolvedDate rt r) (resolvedDate rt (row existing))
        then assoc_set lmsMap emailKey new
        else lmsMap
      else lmsMap
  | None => assoc_set lmsMap emailKey new
  end.
Proof.
  unfold admitted, dedupStep. cbv zeta.
  rewrite !andb_true_iff, !negb_true_iff.
  intros [[[H1 H2] H3] H4]. rewrite H1, H2, H3, H4. reflexivity.
Qed.

Lemma dedupStep_stored rows lmsMap r :
  In r rows ->
  Forall (stored_ok rt cols rows) lmsMap ->
  Forall (stored_ok rt cols rows) (dedupStep rt cols lmsMap r).
Proof.
  intros Hr Hm. destruct (admitted rt r) eqn:Ea.
  2:{ rewrite dedupStep_rejected; assumption. }
  rewrite dedupStep_admitted by assumption. cbv zeta.
  assert (Hset : Forall (stored_ok rt cols rows)
            (assoc_set lmsMap (cleanText rt (get r USERNAME_EMAIL))
               {| row := r; rate := calculateRate rt cols r |})).
  { apply Forall_forall. intros [k e] Hin.
    apply assoc_set_In in Hin. destruct Hin as [[-> ->]|Hin].
    - repeat split; assumption.
    - rewrite Forall_forall in Hm. apply Hm. assumption. }
  destruct (assoc_get lmsMap _); auto.
  destruct (negb _); auto.
  destruct (Qeq_bool _ _); auto.
  destruct (num_gt _ _); auto.
Qed.

Lemma dedupStep_NoDup lmsMap r :
  NoDup (map fst lmsMap) -> NoDup (map fst (dedupStep rt cols lmsMap r)).
Proof.
  intros H. destruct (admitted rt r) eqn:Ea.
  2:{ rewrite dedupStep_rejected; assumption. }
  rewrite dedupStep_admitted by assumption. cbv zeta.
  destruct (assoc_get lmsMap _); auto using assoc_set_NoDup.
  destruct (negb _); auto using assoc_set_NoDup.
  destruct (Qeq_bool _ _); auto.
  destruct (num_gt _ _); auto using assoc_set_NoDup.
Qed.

Lemma fold_dedupStep_stored rows seen lmsMap :
  incl seen rows ->
  Forall (stored_ok rt cols rows) lmsMap ->
  Forall (stored_ok rt cols rows) (fold_left (dedupStep rt cols) seen lmsMap).
Proof.
  revert lmsMap; induction seen as [|r t IH]; intros lmsMap Hi Hm; simpl; auto.
  apply IH.
  - intros x Hx. apply Hi. right; assumption.
  - apply dedupStep_stored; auto. apply Hi. left; reflexivity.
Qed.

Lemma fold_dedupStep_NoDup seen lmsMap :
  NoDup (map fst lmsMap) ->
  NoDup (map fst (fold_left (dedupStep rt cols) seen lmsMap)).
Proof.
  revert lmsMap; induction seen as [|r t IH]; intros lmsMap H; simpl; auto.
  apply IH, dedupStep_NoDup, H.
Qed.

Lemma dedupe_stored rows : Forall (stored_ok rt cols rows) (dedupe rt cols rows).
Proof.
  unfold dedupe. apply fold_dedupStep_stored; [apply incl_refl | constructor].
Qed.

Lemma dedupe_NoDup rows : NoDup (map fst (dedupe rt cols rows)).
Proof. unfold dedupe. apply fold_dedupStep_NoDup. constructor. Qed.

End DedupFacts.

Lemma NoDup_assoc_get {V} (o : assoc V) k v :
  NoDup (map fst o) -> In (k, v) o -> assoc_get o k = Some v.
Proof.
  induction o as [|[k' v'] t IH]; simpl; [tauto|].
  intros Hnd [[= -> ->]|Hin].
  - rewrite str_eqb_refl. reflexivity.
  - inversion Hnd as [|? ? Hnot Hnd']; subst.
    destruct (str_eqb k' k) eqn:E; auto.
    apply str_eqb_eq in E. subst k'.
    exfalso. apply Hnot. apply (in_map fst) in Hin. exact Hin.
Qed.

(** The rows that the guards let through. *)
Lemma admitted_iff rt r :
  admitted rt r = true
  <-> is_string (get r USERNAME_EMAIL) = true
      /\ get r USERNAME_EMAIL <> VStr []
      /\ cleanText rt (get r USERNAME_EMAIL) <> []
      /\ cleanText rt (get r USERNAME_EMAIL) <> str "undefined".
Proof.
  unfold admitted.
  rewrite !andb_true_iff, !negb_true_iff, str_eqb_neq.
  destruct (get r USERNAME_EMAIL) as [| |b|n|s] eqn:E;
    try (split; [intros [[[_ H] _] _] | intros [H _]]; discriminate).
  assert (K : is_empty (cleanText rt (VStr s)) = false
              <-> cleanText rt (VStr s) <> []).
  { destruct (cleanText rt (VStr s)); simpl;
      split; congruence. }
  rewrite K. destruct s as [|c s]; simpl.
  - split; [intros [[[H _] _] _]; discriminate | intros (_ & H & _); congruence].
  - split; [intros [[_ H1] H2] | intros (_ & _ & H1 & H2)];
      repeat split; auto; discriminate.
Qed.

(** C2, as stated, fails: the row whose email cell holds the number 12345
    has the identity key "12345", neither empty nor "undefined" and not
    stored, and yet the row is skipped. *)
Lemma numeric_email_not_recorded :
  cleanText ascii_runtime (get numeric_email_row USERNAME_EMAIL) = str "12345"
  /\ dedupStep ascii_runtime lessons [] numeric_email_row = []
  /\ ~ claimed_new_key_recorded ascii_runtime lessons [] numeric_email_row.
Proof.
  split; [vm_compute; reflexivity|].
  split; [reflexivity|].
  intros H. unfold claimed_new_key_recorded in H. cbv zeta in H.
  assert (E : dedupStep ascii_runtime lessons [] numeric_email_row = [])
    by reflexivity.
  rewrite E in H.
  assert (F : forall x : jsstring * entry, [] <> [] ++ [x]) by discriminate.
  eapply F. apply H.
  - vm_compute. discriminate.
  - vm_compute. discriminate.
  - reflexivity.
Qed.

(** C2, amended.  The loop runs over the rows of the first sheet and then
    of the second.  A row is skipped when its email cell is not a string or
    is the empty string, or when its identity key is empty or "undefined";
    otherwise a new key is appended with the row and its score, and for a
    stored key the entry is replaced exactly when the new score is strictly
    greater, or the scores tie and the new resolved date is strictly later;
    with equal score and equal resolved date the stored row stays.  The
    date is resolved by the three-step fallback: the timestamp of a text
    that parses to a date, else the text read as a number, else 0; a whole
    number of milliseconds is its own timestamp and a missing date is 0.
    A resolved date is never [NaN], so that two resolved dates are equal or
    one of them is strictly later. *)
Theorem dedup_policy (rt : Runtime) (cols : list jsstring)
                     (lmsMap : assoc entry) (r : obj) :
  let email := get r USERNAME_EMAIL in
  let key := cleanText rt email in
  let new := {| row := r; rate := calculateRate rt cols r |} in
  (forall lms1 lms2,
     dedupe rt cols (lms1 ++ lms2)
     = fold_left (dedupStep rt cols) lms2
         (fold_left (dedupStep rt cols) lms1 []))
  /\ (is_string email = false \/ email = VStr []
      \/ key = [] \/ key = str "undefined" ->
      dedupStep rt cols lmsMap r = lmsMap)
  /\ (is_string email = true -> email <> VStr [] ->
      key <> [] -> key <> str "undefined" ->
      (assoc_get lmsMap key = None ->
       dedupStep rt cols lmsMap r = lmsMap ++ [(key, new)])
      /\ (forall old,
            assoc_get lmsMap key = Some old ->
            (spec_replaces rt r (rate new) old ->
             dedupStep rt cols lmsMap r = assoc_set lmsMap key new)
            /\ (~ spec_replaces rt r (rate new) old ->
                dedupStep rt cols lmsMap r = lmsMap)
            /\ (rate new == rate old ->
                num_eqb (spec_resolved_date rt r)
                        (spec_resolved_date rt (row old)) = true ->
                dedupStep rt cols lmsMap r = lmsMap)))
  /\ (forall x, resolvedDate rt x = spec_resolved_date rt x)
  /\ (forall x s t,
        get x (str "Date") = VStr s -> DateParse rt s = Fin t -> ~ t == 0 ->
        resolvedDate rt x = Fin t)
  /\ (forall x s n,
        get x (str "Date") = VStr s -> usable (DateParse rt s) = false ->
        StringToNumber rt s = Fin n -> ~ n == 0 ->
        resolvedDate rt x = Fin n)
  /\ (forall x z,
        get x (str "Date") = VNum (Fin (inject_Z z)) ->
        z <> 0%Z -> (Z.abs z <= 8640000000000000)%Z ->
        resolvedDate rt x = Fin (inject_Z z))
  /\ (forall x, get x (str "Date") = VUndefined -> resolvedDate rt x = Fin 0)
  /\ (forall x y,
        resolvedDate rt x <> NaN
        /\ (spec_later (resolvedDate rt x) (resolvedDate rt y)
            \/ spec_later (resolvedDate rt y) (resolvedDate rt x)
            \/ num_eqb (resolvedDate rt x) (resolvedDate rt y) = true)
        /\ (num_eqb (resolvedDate rt x) (resolvedDate rt y) = true ->
            ~ spec_later (resolvedDate rt x) (resolvedDate rt y))).
Proof.
  cbv zeta.
  pose proof (admitted_iff rt r) as Hadm.
  split; [intros; unfold dedupe; apply fold_left_app|].
  split; [|split].
  - intros Hk. apply dedupStep_rejected.
    apply not_true_is_false. intros E.
    apply Hadm in E. destruct E as (E1 & E2 & E3 & E4).
    destruct Hk as [H|[H|[H|H]]]; congruence.
  - intros H1 H2 H3 H4.
    assert (A : admitted rt r = true) by (apply Hadm; auto).
    split.
    + intros Hget. rewrite (dedupStep_admitted rt cols lmsMap r A). cbv zeta.
      rewrite Hget. apply assoc_set_fresh. exact Hget.
    + intros old Hget.
      assert (Hstep := dedupStep_admitted rt cols lmsMap r A).
      cbv zeta in Hstep. rewrite Hget in Hstep.
      rewrite !resolvedDate_spec in Hstep.
      set (new := {| row := r; rate := calculateRate rt cols r |}) in *.
      assert (Hkeep : ~ spec_replaces rt r (rate new) old ->
                      dedupStep rt cols lmsMap r = lmsMap).
      { intros Hno. rewrite Hstep.
        destruct (negb (Qle_bool (rate new) (rate old))) eqn:E1.
        { apply Qgt_bool_iff in E1. exfalso. apply Hno. left. exact E1. }
        destruct (Qeq_bool (rate new) (rate old)) eqn:E2; auto.
        destruct (num_gt _ _) eqn:E3; auto.
        apply Qeq_bool_iff in E2. apply num_gt_later in E3.
        exfalso. apply Hno. right. split; auto. }
      split; [|split; [exact Hkeep|]].
      * intros [Hlt|[Heq Hgt]]; rewrite Hstep.
        -- apply Qgt_bool_iff in Hlt. rewrite Hlt. reflexivity.
        -- destruct (negb (Qle_bool (rate new) (rate old))); auto.
           apply Qeq_bool_iff in Heq. apply num_gt_later in Hgt.
           rewrite Heq, Hgt. reflexivity.
      * intros Heq Hsame. apply Hkeep. intros [Hlt|[_ Hgt]].
        -- rewrite Heq in Hlt. apply Qlt_irrefl in Hlt. exact Hlt.
        -- apply (same_not_later _ _ Hsame Hgt).
  - split; [apply resolvedDate_spec|].
    split; [|split; [|split; [|split]]].
    + intros x s t Hd Hp Hz. rewrite resolvedDate_spec.
      unfold spec_resolved_date. cbv zeta. rewrite Hd.
      cbn [spec_timestamp]. rewrite Hp. cbn [usable].
      destruct (Qeq_bool t 0) eqn:E; [|reflexivity].
      apply Qeq_bool_iff in E. contradiction.
    + intros x s n Hd Hu Hn Hz. rewrite resolvedDate_spec.
      unfold spec_resolved_date. cbv zeta. rewrite Hd.
      cbn [spec_timestamp spec_plain_number]. rewrite Hu, Hn. cbn [usable].
      destruct (Qeq_bool n 0) eqn:E; [|reflexivity].
      apply Qeq_bool_iff in E. contradiction.
    + intros x z Hd Hz Hle. rewrite resolvedDate_spec.
      unfold spec_resolved_date. cbv zeta. rewrite Hd.
      cbn [spec_timestamp].
      assert (B : Qle_bool (Qabs (inject_Z z)) (inject_Z 8640000000000000)
                  = true).
      { apply Qle_bool_iff. unfold Qle, Qabs, inject_Z. cbn [Qnum Qden]. lia. }
      rewrite B.
      assert (T : Z.quot (Qnum (inject_Z z)) (Z.pos (Qden (inject_Z z))) = z)
        by (unfold inject_Z; cbn [Qnum Qden]; apply Z.quot_1_r).
      rewrite T. cbn [usable].
      destruct (Qeq_bool (inject_Z z) 0) eqn:E; [|reflexivity].
      apply Qeq_bool_iff in E. unfold Qeq, inject_Z in E. cbn [Qnum Qden] in E.
      lia.
    + intros x Hd. rewrite resolvedDate_spec.
      unfold spec_resolved_date. cbv zeta. rewrite Hd. reflexivity.
    + intros x y. split; [apply resolvedDate_not_NaN|]. split.
      * apply later_or_same; apply resolvedDate_not_NaN.
      * apply same_not_later.
Qed.

(** *** The kept entry has the best score *)

Section BestScore.

Variable rt : Runtime.
Variable cols : list jsstring.
Implicit Types (lmsMap : assoc entry) (r : obj).

Lemma dedupStep_monotone lmsMap r k e :
  assoc_get lmsMap k = Some e ->
  exists e', assoc_get (dedupStep rt cols lmsMap r) k = Some e'
             /\ rate e <= rate e'.
Proof.
  intros He.
  assert (Same : exists e', assoc_get lmsMap k = Some e' /\ rate e <= rate e')
    by (exists e; split; [exact He | apply Qle_refl]).
  destruct (admitted rt r) eqn:Ea.
  2:{ rewrite dedupStep_rejected by assumption. exact Same. }
  rewrite dedupStep_admitted by assumption. cbv zeta.
  set (key := cleanText rt (get r USERNAME_EMAIL)).
  set (new := {| row := r; rate := calculateRate rt cols r |}).
  destruct (str_eqb key k) eqn:Ek.
  - apply str_eqb_eq in Ek. subst k. rewrite He.
    destruct (negb (Qle_bool (rate new) (rate e))) eqn:E1.
    + exists new. split; [apply assoc_set_get_eq|].
      apply Qgt_bool_iff in E1. apply Qlt_le_weak. exact E1.
    + destruct (Qeq_bool (rate new) (rate e)) eqn:E2; [|exact Same].
      destruct (num_gt _ _); [|exact Same].
      exists new. split; [apply assoc_set_get_eq|].
      apply Qeq_bool_iff in E2. rewrite E2. apply Qle_refl.
  - apply str_eqb_neq in Ek.
    assert (Other : exists e', assoc_get (assoc_set lmsMap key new) k = Some e'
                               /\ rate e <= rate e').
    { rewrite assoc_set_get_neq by exact Ek. exact Same. }
    destruct (assoc_get lmsMap key) as [old|]; [|exact Other].
    destruct (negb _); [exact Other|].
    destruct (Qeq_bool _ _); [|exact Same].
    destruct (num_gt _ _); [exact Other | exact Same].
Qed.

Lemma dedupStep_covers lmsMap r :
  admitted rt r = true ->
  exists e, assoc_get (dedupStep rt cols lmsMap r)
                      (cleanText rt (get r USERNAME_EMAIL)) = Some e
            /\ calculateRate rt cols r <= rate e.
Proof.
  intros Ea. rewrite dedupStep_admitted by assumption. cbv zeta.
  set (key := cleanText rt (get r USERNAME_EMAIL)).
  set (new := {| row := r; rate := calculateRate rt cols r |}).
  assert (New : exists e, assoc_get (assoc_set lmsMap key new) key = Some e
                          /\ calculateRate rt cols r <= rate e).
  { exists new. split; [apply assoc_set_get_eq | apply Qle_refl]. }
  destruct (assoc_get lmsMap key) as [old|] eqn:E; [|exact New].
  destruct (negb (Qle_bool (rate new) (rate old))) eqn:E1; [exact New|].
  assert (Old : exists e, assoc_get lmsMap key = Some e
                          /\ calculateRate rt cols r <= rate e).
  { exists old. split; [exact E|].
    apply negb_false_iff, Qle_bool_iff in E1. exact E1. }
  destruct (Qeq_bool _ _); [|exact Old].
  destruct (num_gt _ _); [exact New | exact Old].
Qed.

(** Whatever the order of arrival, the entry kept for a key scores at least
    as high as every admitted row of that key. *)
Lemma dedupe_keeps_best rows r :
  In r rows -> admitted rt r = true ->
  exists e, assoc_get (dedupe rt cols rows)
                      (cleanText rt (get r USERNAME_EMAIL)) = Some e
            /\ calculateRate rt cols r <= rate e.
Proof.
  unfold dedupe. generalize (@nil (jsstring * entry)) as lmsMap.
  induction rows as [|x t IH]; intros lmsMap Hin Ea; [destruct Hin|].
  simpl. destruct Hin as [->|Hin]; [|apply IH; assumption].
  destruct (dedupStep_covers lmsMap r Ea) as (e & He & Hle).
  clear IH. revert He. generalize (dedupStep rt cols lmsMap r) as m.
  revert e Hle. induction t as [|y t' IHt]; intros e Hle m He; simpl.
  - exists e. split; assumption.
  - destruct (dedupStep_monotone m y _ e He) as (e' & He' & Hle').
    apply (IHt e'); [|exact He'].
    eapply Qle_trans; eassumption.
Qed.

End BestScore.

(* ================================================================== *)
(** ** Numbers as text *)

Lemma units_of_uint_digits d : Forall is_digit (units_of_uint d).
Proof.
  induction d; simpl; constructor; auto; unfold is_digit; lia.
Qed.

Lemma decimal_nonempty n : decimal n <> [].
Proof.
  unfold decimal. destruct n as [|p]; [discriminate|].
  pose proof (Unsigned.to_uint_nonnil p) as H. simpl.
  destruct (Pos.to_uint p); [congruence | discriminate ..].
Qed.

Lemma decimalZ_shape z :
  decimalZ z <> []
  /\ Forall (fun c => is_digit c \/ c = 45%N) (decimalZ z).
Proof.
  assert (D : forall n, Forall (fun c => is_digit c \/ c = 45%N) (decimal n)).
  { intros n. eapply Forall_impl; [|apply units_of_uint_digits].
    intros c Hc. left. exact Hc. }
  destruct z as [|p|p]; simpl.
  - split; [apply decimal_nonempty | apply D].
  - split; [apply decimal_nonempty | apply D].
  - split; [discriminate|]. constructor; [right; reflexivity | apply D].
Qed.

(** A code unit of a numeral: neither whitespace, nor special, nor a capital
    letter, and ASCII. *)
Lemma numeral_unit c :
  is_digit c \/ c = 45%N ->
  is_space c = false /\ is_special c = false
  /\ ascii_lower_unit c = c /\ N.ltb c 128 = true.
Proof.
  intros H.
  assert (R : (45 <= c <= 57)%N) by (unfold is_digit in H; lia).
  unfold is_space, is_special, ascii_lower_unit.
  repeat match goal with
  | |- context [N.eqb ?a ?b] =>
      let H := fresh in
      assert (H : N.eqb a b = false) by (apply N.eqb_neq; lia); rewrite H; clear H
  | |- context [N.leb ?a ?b] =>
      let H := fresh in
      first [ assert (H : N.leb a b = false) by (apply N.leb_gt; lia)
            | assert (H : N.leb a b = true) by (apply N.leb_le; lia) ];
      rewrite H; clear H
  end.
  simpl. repeat split; auto. apply N.ltb_lt. lia.
Qed.

Lemma plain_squash s :
  Forall (fun c => is_space c = false /\ is_special c = false) s ->
  squash s = s.
Proof.
  intros H. apply squash_fixed_iff. split.
  - assert (G : forall b, squashed b s = true); [|apply G].
    induction H as [|c t [H1 H2] _ IH]; intros b; simpl; auto.
    rewrite H1, H2. simpl. apply IH.
  - induction H as [|c t [H1 H2] _ IH]; simpl; auto.
    rewrite IH, H1. destruct t; reflexivity.
Qed.

Lemma numeral_clean rt s :
  lower_on_ascii rt ->
  Forall (fun c => is_digit c \/ c = 45%N) s ->
  toLowerCase rt (squash s) = s.
Proof.
  intros Hascii H.
  rewrite plain_squash.
  2:{ eapply Forall_impl; [|exact H]. intros c Hc.
      destruct (numeral_unit c Hc) as (H1 & H2 & _). auto. }
  rewrite Hascii.
  - unfold ascii_lower. induction H as [|c t Hc _ IH]; simpl; auto.
    destruct (numeral_unit c Hc) as (_ & _ & H3 & _). rewrite H3, IH. reflexivity.
  - unfold is_ascii. apply forallb_forall. rewrite Forall_forall in H.
    intros c Hc. apply (numeral_unit c (H c Hc)).
Qed.

Lemma Qred_inject_Z z : Qred (inject_Z z) = inject_Z z.
Proof.
  unfold Qred, inject_Z.
  pose proof (Z.ggcd_gcd z 1) as Hg.
  pose proof (Z.ggcd_correct_divisors z 1) as Hd.
  destruct (Z.ggcd z 1) as [g [aa bb]]. simpl in Hg, Hd |- *.
  rewrite Z.gcd_1_r in Hg. subst g. destruct Hd as [Ha Hb].
  assert (E1 : aa = z) by lia. assert (E2 : bb = 1%Z) by lia.
  rewrite E1, E2. reflexivity.
Qed.

(** The normal form of an integer cell is its decimal numeral. *)
Lemma cleanText_integer rt z :
  lower_on_ascii rt -> (Z.abs z < 2 ^ 53)%Z ->
  cleanText rt (VNum (Fin (inject_Z z))) = decimalZ z.
Proof.
  intros Hascii Hz. unfold cleanText, ToString, NumberToString.
  rewrite Qred_inject_Z. cbn [inject_Z Qnum Qden Pos.eqb andb].
  apply Z.ltb_lt in Hz. rewrite Hz.
  apply numeral_clean; [assumption | apply decimalZ_shape].
Qed.

(** C10.  A row whose email is not a string (a numeric cell, say) leaves the
    identity map as it is, so the report has no row for it, although for an
    integer cell the normalised value is a non-empty key, the numeral. *)
Theorem non_string_email_skipped (rt : Runtime) (cols : list jsstring)
                                 (before after : list obj) (r : obj) :
  lower_on_ascii rt ->
  is_string (get r USERNAME_EMAIL) = false ->
  (forall lmsMap, dedupStep rt cols lmsMap r = lmsMap)
  /\ dedupe rt cols (before ++ r :: after) = dedupe rt cols (before ++ after)
  /\ (forall masterMap,
        finalRows rt (dedupe rt cols (before ++ r :: after)) masterMap
        = finalRows rt (dedupe rt cols (before ++ after)) masterMap)
  /\ (forall z, (Z.abs z < 2 ^ 53)%Z ->
        get r USERNAME_EMAIL = VNum (Fin (inject_Z z)) ->
        cleanText rt (get r USERNAME_EMAIL) = decimalZ z
        /\ cleanText rt (get r USERNAME_EMAIL) <> []).
Proof.
  intros Hascii Hns.
  assert (Hskip : forall lmsMap, dedupStep rt cols lmsMap r = lmsMap).
  { intros lmsMap. apply dedupStep_rejected. unfold admitted.
    rewrite Hns, andb_false_r. reflexivity. }
  assert (Heq : dedupe rt cols (before ++ r :: after)
                = dedupe rt cols (before ++ after)).
  { unfold dedupe. rewrite !fold_left_app. simpl. rewrite Hskip. reflexivity. }
  split; [exact Hskip|]. split; [exact Heq|].
  split; [intros; rewrite Heq; reflexivity|].
  intros z Hz E. rewrite E, (cleanText_integer rt z Hascii Hz).
  split; [reflexivity | apply decimalZ_shape].
Qed.

(* ================================================================== *)
(** ** Merging with the master sheet *)

Lemma mergeField_spec masterRow lmsRow name :
  mergeField masterRow lmsRow name = spec_precedence masterRow lmsRow name.
Proof.
  unfold mergeField, spec_precedence, js_or.
  destruct masterRow as [m|]; simpl.
  - destruct (truthy (get m name)) eqn:E; [rewrite E; reflexivity|].
    destruct (truthy (get lmsRow name)) eqn:E'; rewrite ?E'; reflexivity.
  - destruct (truthy (get lmsRow name)) eqn:E'; rewrite ?E'; reflexivity.
Qed.

(** A merged value is truthy or the empty string. *)
Lemma spec_precedence_empty masterRow lmsRow name :
  truthy (spec_precedence masterRow lmsRow name) = false
  <-> spec_precedence masterRow lmsRow name = VStr [].
Proof.
  split; [|intros ->; reflexivity].
  unfold spec_precedence.
  destruct masterRow as [m|].
  - destruct (truthy (get m name)) eqn:E; [congruence|].
    destruct (truthy (get lmsRow name)) eqn:E'; [congruence | reflexivity].
  - destruct (truthy (get lmsRow name)) eqn:E'; [congruence | reflexivity].
Qed.

Section MergeFacts.

Variable rt : Runtime.

Lemma mergeEntry_None masterRow lmsEntry :
  mergeEntry rt masterRow lmsEntry = None
  <-> spec_precedence masterRow (row lmsEntry) USER_EMPLOYEE_ID = VStr []
      /\ spec_precedence masterRow (row lmsEntry) USERNAME_EMAIL = VStr []
      /\ spec_precedence masterRow (row lmsEntry) DISPLAY_NAME = VStr [].
Proof.
  unfold mergeEntry. cbv zeta. rewrite !mergeField_spec. cbn [field_name].
  rewrite <- !spec_precedence_empty.
  destruct (truthy (spec_precedence masterRow (row lmsEntry) USER_EMPLOYEE_ID));
  destruct (truthy (spec_precedence masterRow (row lmsEntry) USERNAME_EMAIL));
  destruct (truthy (spec_precedence masterRow (row lmsEntry) DISPLAY_NAME));
  simpl; split; try discriminate; try tauto;
  intros (H1 & H2 & H3); discriminate.
Qed.

Lemma mergeEntry_Some masterRow lmsEntry out :
  mergeEntry rt masterRow lmsEntry = Some out ->
  (forall f, field_of f out
             = ToString rt (spec_precedence masterRow (row lmsEntry)
                                            (field_name f)))
  /\ CompletionRate out = rate lmsEntry.
Proof.
  unfold mergeEntry. cbv zeta. rewrite !mergeField_spec.
  destruct (_ || _ || _); [|discriminate].
  intros [= <-]. split; [intros []; reflexivity | reflexivity].
Qed.

Lemma finalRows_In lmsMap masterMap out :
  In out (finalRows rt lmsMap masterMap)
  <-> exists emailKey lmsEntry,
        In (emailKey, lmsEntry) lmsMap
        /\ mergeEntry rt (assoc_get masterMap emailKey) lmsEntry = Some out.
Proof.
  unfold finalRows. rewrite in_flat_map. split.
  - intros ([k e] & Hin & Hout). simpl in Hout.
    destruct (mergeEntry rt (assoc_get masterMap k) e) as [r|] eqn:E;
      [|contradiction].
    destruct Hout as [<-|[]]. eauto.
  - intros (k & e & Hin & E). exists (k, e). split; auto.
    simpl. rewrite E. left; reflexivity.
Qed.

(** The master index holds, under a key, a master row with that key. *)
Lemma masterIndex_Some master emailKey m :
  assoc_get (masterIndex rt master) emailKey = Some m ->
  In m master /\ truthy (get m USERNAME_EMAIL) = true
  /\ cleanText rt (get m USERNAME_EMAIL) = emailKey.
Proof.
  unfold masterIndex.
  assert (G : forall seen acc,
    (forall k x, assoc_get acc k = Some x ->
       In x master /\ truthy (get x USERNAME_EMAIL) = true
       /\ cleanText rt (get x USERNAME_EMAIL) = k) ->
    incl seen master ->
    forall k x,
    assoc_get (fold_left
      (fun masterMap r =>
         if truthy (get r USERNAME_EMAIL)
         then assoc_set masterMap (cleanText rt (get r USERNAME_EMAIL)) r
         else masterMap) seen acc) k = Some x ->
    In x master /\ truthy (get x USERNAME_EMAIL) = true
    /\ cleanText rt (get x USERNAME_EMAIL) = k).
  { induction seen as [|r t IH]; intros acc Hacc Hi k x; simpl; [apply Hacc|].
    apply IH; [|intros y Hy; apply Hi; right; exact Hy].
    intros k' x'. destruct (truthy (get r USERNAME_EMAIL)) eqn:Et; [|apply Hacc].
    destruct (str_eqb (cleanText rt (get r USERNAME_EMAIL)) k') eqn:Ek.
    - apply str_eqb_eq in Ek. subst k'. rewrite assoc_set_get_eq.
      intros [= <-]. repeat split; auto. apply Hi. left; reflexivity.
    - apply str_eqb_neq in Ek. rewrite assoc_set_get_neq by exact Ek.
      apply Hacc. }
  apply (G master []); [discriminate | apply incl_refl].
Qed.

(** No entry under a key: no master row with a truthy email has that key. *)
Lemma masterIndex_None master emailKey :
  assoc_get (masterIndex rt master) emailKey = None ->
  forall m, In m master -> truthy (get m USERNAME_EMAIL) = true ->
            cleanText rt (get m USERNAME_EMAIL) <> emailKey.
Proof.
  unfold masterIndex. generalize (@nil (jsstring * obj)) as acc.
  induction master as [|r t IH]; intros acc Hnone m Hin Ht; [destruct Hin|].
  simpl in Hnone. destruct Hin as [<-|Hin]; [|eapply IH; eauto].
  rewrite Ht in Hnone. intros E.
  assert (K : forall seen acc',
            assoc_get acc' emailKey <> None ->
            assoc_get (fold_left
              (fun masterMap r0 =>
                 if truthy (get r0 USERNAME_EMAIL)
                 then assoc_set masterMap (cleanText rt (get r0 USERNAME_EMAIL)) r0
                 else masterMap) seen acc') emailKey <> None).
  { induction seen as [|r0 t0 IH0]; intros acc' H; simpl; auto.
    apply IH0. destruct (truthy (get r0 USERNAME_EMAIL)); auto.
    destruct (str_eqb (cleanText rt (get r0 USERNAME_EMAIL)) emailKey) eqn:Ek.
    - apply str_eqb_eq in Ek. rewrite Ek, assoc_set_get_eq. discriminate.
    - apply str_eqb_neq in Ek. rewrite assoc_set_get_neq by exact Ek. exact H. }
  apply (K t _) in Hnone; auto.
  rewrite E, assoc_set_get_eq. discriminate.
Qed.

End MergeFacts.

(** C3.  Every final row comes from one identity key and its winning LMS
    row.  Each text field is the master value when a master record of that
    key exists and the value is truthy, else the LMS value when truthy, else
    the empty string (converted by [String]); the completion rate is the
    score of the winning LMS row and no value of the master sheet. *)
Theorem merge_precedence (rt : Runtime) (lms1 lms2 master : list obj)
                         (out : FinalReportRow) :
  In out (processData rt lms1 lms2 master) ->
  let combinedLMS := lms1 ++ lms2 in
  let cols := lessonColumns rt combinedLMS in
  exists emailKey lmsRow,
    assoc_get (dedupe rt cols combinedLMS) emailKey
    = Some {| row := lmsRow; rate := calculateRate rt cols lmsRow |}
    /\ In lmsRow combinedLMS
    /\ emailKey = cleanText rt (get lmsRow USERNAME_EMAIL)
    /\ (forall f,
          field_of f out
          = ToString rt
              (spec_precedence (assoc_get (masterIndex rt master) emailKey)
                               lmsRow (field_name f)))
    /\ CompletionRate out = calculateRate rt cols lmsRow
    /\ (forall m, assoc_get (masterIndex rt master) emailKey = Some m ->
                  In m master
                  /\ cleanText rt (get m USERNAME_EMAIL) = emailKey)
    /\ (assoc_get (masterIndex rt master) emailKey = None ->
        forall m, In m master -> truthy (get m USERNAME_EMAIL) = true ->
                  cleanText rt (get m USERNAME_EMAIL) <> emailKey).
Proof.
  intros Hin combinedLMS cols. unfold processData in Hin.
  fold combinedLMS in Hin. fold cols in Hin.
  apply finalRows_In in Hin. destruct Hin as (k & e & Hin & Hm).
  pose proof (dedupe_stored rt cols combinedLMS) as Hs.
  rewrite Forall_forall in Hs. destruct (Hs _ Hin) as (H1 & H2 & H3 & H4).
  simpl in H1, H2, H3, H4.
  apply mergeEntry_Some in Hm. destruct Hm as [Hf Hr].
  exists k, (row e). split; [|repeat split].
  - rewrite <- H4. destruct e as [er eq]. simpl.
    apply NoDup_assoc_get; [apply dedupe_NoDup | exact Hin].
  - exact H1.
  - exact H3.
  - exact Hf.
  - rewrite Hr. exact H4.
  - apply (masterIndex_Some rt master k m H).
  - apply (masterIndex_Some rt master k m H).
  - apply masterIndex_None.
Qed.

(** C7.  The merged record of an entry is pushed exactly when one of the
    merged employee id, email and display name is not the empty string,
    whatever the other fields hold; and the final report is made of the
    records pushed for the entries of the identity map. *)
Theorem suppression_iff (rt : Runtime) (masterRow : option obj)
                        (lmsEntry : entry) :
  let id := spec_precedence masterRow (row lmsEntry) (str "User/Employee ID") in
  let email := spec_precedence masterRow (row lmsEntry) (str "Username (Email)") in
  let name := spec_precedence masterRow (row lmsEntry)
                (str "Display Name (Pharmacist name)") in
  ((exists out, mergeEntry rt masterRow lmsEntry = Some out)
   <-> id <> VStr [] \/ email <> VStr [] \/ name <> VStr [])
  /\ (mergeEntry rt masterRow lmsEntry = None
      <-> id = VStr [] /\ email = VStr [] /\ name = VStr [])
  /\ (forall lms1 lms2 master out,
        In out (processData rt lms1 lms2 master)
        <-> exists emailKey e,
              In (emailKey, e)
                 (dedupe rt (lessonColumns rt (lms1 ++ lms2)) (lms1 ++ lms2))
              /\ mergeEntry rt (assoc_get (masterIndex rt master) emailKey) e
                 = Some out).
Proof.
  intros id email name.
  pose proof (mergeEntry_None rt masterRow lmsEntry) as HN.
  fold id email name in HN.
  change (spec_precedence masterRow (row lmsEntry) USER_EMPLOYEE_ID) with id in HN.
  change (spec_precedence masterRow (row lmsEntry) USERNAME_EMAIL) with email in HN.
  change (spec_precedence masterRow (row lmsEntry) DISPLAY_NAME) with name in HN.
  split; [|split; [exact HN|]].
  - destruct (mergeEntry rt masterRow lmsEntry) as [out|] eqn:E.
    + split; [|eauto]. intros _.
      assert (Hn : ~ (id = VStr [] /\ email = VStr [] /\ name = VStr [])).
      { intros H. apply HN in H. discriminate. }
      assert (Dec : forall v : value, v = VStr [] \/ v <> VStr []).
      { intros [| |b|n|[|c s]]; auto; right; discriminate. }
      destruct (Dec id); auto. destruct (Dec email); auto.
      destruct (Dec name); auto. tauto.
    + split; [intros [out H]; discriminate|].
      destruct (proj1 HN eq_refl) as (H1 & H2 & H3). tauto.
  - intros. unfold processData. apply finalRows_In.
Qed.

(* ================================================================== *)
(** ** Column aliases *)

Lemma distinct_NoDup l : distinct l = true -> NoDup l.
Proof.
  induction l as [|x t IH]; simpl; [constructor|].
  rewrite andb_true_iff, negb_true_iff. intros [H1 H2].
  constructor; [apply mem_false; exact H1 | auto].
Qed.

Lemma COLUMN_ALIASES_NoDup : NoDup (map fst COLUMN_ALIASES).
Proof. apply distinct_NoDup. vm_compute. reflexivity. Qed.

Lemma COLUMN_ALIASES_nonempty :
  forall a c, In (a, c) COLUMN_ALIASES -> is_empty a = false /\ is_empty c = false.
Proof.
  assert (H : forallb (fun e => negb (is_empty (fst e)) && negb (is_empty (snd e)))
                      COLUMN_ALIASES = true) by (vm_compute; reflexivity).
  rewrite forallb_forall in H. intros a c Hin.
  specialize (H _ Hin). simpl in H.
  apply andb_true_iff in H. rewrite !negb_true_iff in H. exact H.
Qed.

Lemma COLUMN_ALIASES_keys : own_keys COLUMN_ALIASES = map fst COLUMN_ALIASES.
Proof. vm_compute. reflexivity. Qed.

(** The first key that satisfies [p] and the first entry whose key does. *)
Lemma find_key_entry {V} (T : assoc V) (p : jsstring -> bool) :
  NoDup (map fst T) ->
  match find p (map fst T) with
  | Some a => exists c, find (fun e => p (fst e)) T = Some (a, c)
                        /\ assoc_get T a = Some c
  | None => find (fun e => p (fst e)) T = None
  end.
Proof.
  induction T as [|[a0 c0] t IH]; simpl; auto.
  intros Hnd. inversion Hnd as [|? ? Hnot Hnd']; subst.
  destruct (p a0) eqn:E.
  - exists c0. rewrite str_eqb_refl. auto.
  - specialize (IH Hnd'). destruct (find p (map fst t)) as [a|] eqn:F; auto.
    destruct IH as (c & H1 & H2). exists c. split; auto.
    destruct (str_eqb a0 a) eqn:Ea; auto.
    apply str_eqb_eq in Ea. subst a0.
    apply assoc_get_Some_In in H2. apply (in_map fst) in H2. contradiction.
Qed.

Lemma COLUMN_ALIASES_at_own k c :
  assoc_get COLUMN_ALIASES k = Some c ->
  COLUMN_ALIASES_at k = KString c /\ key_truthy (KString c) = true.
Proof.
  intros E. unfold COLUMN_ALIASES_at. rewrite E. split; [reflexivity|].
  apply assoc_get_Some_In, COLUMN_ALIASES_nonempty in E.
  unfold key_truthy. destruct E as [_ ->]. reflexivity.
Qed.

Lemma COLUMN_ALIASES_at_none k :
  assoc_get COLUMN_ALIASES k = None ->
  mem k object_prototype_names = false ->
  COLUMN_ALIASES_at k = KUndefined.
Proof.
  intros E Hp. unfold COLUMN_ALIASES_at. rewrite E, Hp. reflexivity.
Qed.

Section ResolverFacts.

Variable rt : Runtime.

(** Off the names of [Object.prototype], [resolveKey] is [spec_resolve]. *)
Lemma resolveKey_spec key :
  mem (trim key) object_prototype_names = false ->
  (if key_truthy (resolveKey rt key)
   then Some (property_key rt (resolveKey rt key)) else None)
  = spec_resolve rt key.
Proof.
  intros Hp. unfold resolveKey, spec_resolve. cbv zeta.
  destruct (assoc_get COLUMN_ALIASES (trim key)) as [c|] eqn:E.
  - destruct (COLUMN_ALIASES_at_own _ _ E) as [-> Ht].
    rewrite Ht, Ht. reflexivity.
  - rewrite (COLUMN_ALIASES_at_none _ E Hp).
    cbn [key_truthy]. rewrite COLUMN_ALIASES_keys.
    pose proof (find_key_entry COLUMN_ALIASES
                  (fun k => str_eqb (toLowerCase rt k) (toLowerCase rt (trim key)))
                  COLUMN_ALIASES_NoDup) as F.
    destruct (find _ (map fst COLUMN_ALIASES)) as [a|].
    + destruct F as (c & F1 & F2). rewrite F1.
      destruct (COLUMN_ALIASES_at_own _ _ F2) as [-> Ht].
      apply assoc_get_Some_In, COLUMN_ALIASES_nonempty in F2.
      destruct F2 as [-> _]. cbn [negb]. rewrite Ht. reflexivity.
    + rewrite F. unfold key_truthy, property_key.
      destruct (is_empty (trim key)); reflexivity.
Qed.

End ResolverFacts.

Lemma spec_collide_fold c vals :
  fold_left spec_collide vals (Some c)
  = Some (if is_empty_string c
          then match find non_empty vals with Some v => v | None => c end
          else c).
Proof.
  revert c; induction vals as [|v t IH]; intros c; simpl.
  - destruct (is_empty_string c); reflexivity.
  - destruct (is_empty_string c) eqn:Ec; simpl.
    + destruct (non_empty v) eqn:Ev; rewrite IH.
      * unfold non_empty in Ev. apply andb_true_iff in Ev.
        destruct Ev as [Ev _]. apply negb_true_iff in Ev. rewrite Ev.
        reflexivity.
      * rewrite Ec. reflexivity.
    + rewrite IH, Ec. reflexivity.
Qed.

Lemma spec_collide_kept vals :
  Forall (fun v => v <> VUndefined) vals ->
  fold_left spec_collide vals None = spec_kept vals.
Proof.
  destruct vals as [|v0 t]; [reflexivity|].
  intros H. inversion H as [|? ? Hv0 _]; subst.
  cbn [fold_left spec_collide]. rewrite spec_collide_fold.
  unfold spec_kept. cbn [find].
  destruct (is_empty_string v0) eqn:E.
  - unfold non_empty at 2. rewrite E. cbn [negb andb].
    destruct (find non_empty t); reflexivity.
  - assert (Hn : non_empty v0 = true).
    { unfold non_empty. rewrite E. destruct v0; try reflexivity. congruence. }
    rewrite Hn. reflexivity.
Qed.

Section NormalizeFacts.

Variable rt : Runtime.
Variable o : obj.

(** One source key: the name is added with the value of the key, or a
    stored empty string gives way to a non-empty value, or nothing
    changes. *)
Lemma normalizeKey_spec newObj key :
  mem (trim key) object_prototype_names = false ->
  defined_values newObj ->
  normalizeKey rt o newObj key =
  match spec_resolve rt key with
  | None => newObj
  | Some p =>
      match assoc_get newObj p with
      | None => newObj ++ [(p, get o key)]
      | Some cur =>
          if is_empty_string cur && non_empty (get o key)
          then assoc_set newObj p (get o key)
          else newObj
      end
  end.
Proof.
  intros Hp Hd. rewrite <- (resolveKey_spec rt key Hp).
  unfold normalizeKey. cbv zeta.
  destruct (key_truthy (resolveKey rt key)); [|reflexivity].
  set (p := property_key rt (resolveKey rt key)).
  assert (G : get newObj p = match assoc_get newObj p with
                             | Some v => v
                             | None => VUndefined
                             end) by reflexivity.
  rewrite G. clear G.
  destruct (assoc_get newObj p) as [cur|] eqn:E.
  - assert (Hc : is_undefined cur = false).
    { destruct cur; try reflexivity. exfalso. apply (Hd p). exact E. }
    rewrite Hc. cbn [orb]. unfold non_empty. rewrite andb_assoc. reflexivity.
  - cbn [is_undefined orb]. apply assoc_set_fresh. exact E.
Qed.

Lemma normalizeKey_get newObj key name :
  mem (trim key) object_prototype_names = false ->
  defined_values newObj ->
  assoc_get (normalizeKey rt o newObj key) name
  = match spec_resolve rt key with
    | Some p => if str_eqb p name
                then spec_collide (assoc_get newObj name) (get o key)
                else assoc_get newObj name
    | None => assoc_get newObj name
    end.
Proof.
  intros Hp Hd. rewrite (normalizeKey_spec newObj key Hp Hd).
  destruct (spec_resolve rt key) as [p|]; [|reflexivity].
  destruct (str_eqb p name) eqn:En.
  - apply str_eqb_eq in En. subst p. unfold spec_collide.
    destruct (assoc_get newObj name) as [cur|] eqn:E.
    + destruct (is_empty_string cur && non_empty (get o key)).
      * apply assoc_set_get_eq.
      * exact E.
    + rewrite <- (assoc_set_fresh _ _ _ (get o key) E). apply assoc_set_get_eq.
  - apply str_eqb_neq in En.
    destruct (assoc_get newObj p) as [cur|] eqn:E.
    + destruct (is_empty_string cur && non_empty (get o key)); auto.
      apply assoc_set_get_neq. exact En.
    + rewrite <- (assoc_set_fresh _ _ _ (get o key) E). apply assoc_set_get_neq. exact En.
Qed.

Lemma normalizeKey_defined newObj key :
  mem (trim key) object_prototype_names = false ->
  get o key <> VUndefined ->
  defined_values newObj ->
  defined_values (normalizeKey rt o newObj key).
Proof.
  intros Hp Hv Hd name. rewrite (normalizeKey_get newObj key name Hp Hd).
  destruct (spec_resolve rt key) as [p|]; [|apply Hd].
  destruct (str_eqb p name); [|apply Hd].
  unfold spec_collide. destruct (assoc_get newObj name) as [cur|] eqn:E.
  - destruct (is_empty_string cur && non_empty (get o key)).
    + congruence.
    + rewrite <- E. apply Hd.
  - congruence.
Qed.

Lemma normalizeKeys_from keys newObj name :
  (forall key, In key keys ->
     mem (trim key) object_prototype_names = false /\ get o key <> VUndefined) ->
  defined_values newObj ->
  assoc_get (fold_left (normalizeKey rt o) keys newObj) name
  = fold_left spec_collide
      (map (get o)
           (filter (fun key => match spec_resolve rt key with
                               | Some p => str_eqb p name
                               | None => false
                               end) keys))
      (assoc_get newObj name).
Proof.
  revert newObj; induction keys as [|key t IH]; intros newObj Hk Hd; simpl; auto.
  destruct (Hk key (or_introl eq_refl)) as [Hp Hv].
  rewrite IH.
  - rewrite (normalizeKey_get newObj key name Hp Hd).
    destruct (spec_resolve rt key) as [p|]; auto.
    destruct (str_eqb p name); auto.
  - intros k Hin. apply Hk. right; exact Hin.
  - apply normalizeKey_defined; auto.
Qed.

End NormalizeFacts.

Lemma sources_defined rt o name :
  sheet_row o -> Forall (fun v => v <> VUndefined) (sources rt o name).
Proof.
  intros [_ Hv]. unfold sources. apply Forall_forall. intros v Hin.
  apply in_map_iff in Hin. destruct Hin as (key & <- & Hin).
  apply filter_In in Hin. destruct Hin as [Hin _].
  apply Hv. apply own_keys_In. exact Hin.
Qed.

Lemma find_all_false {A} (p : A -> bool) (l : list A) :
  (forall x, In x l -> p x = false) -> find p l = None.
Proof.
  induction l as [|x t IH]; simpl; auto.
  intros H. rewrite (H x) by auto. auto.
Qed.

(** The alias keys are ASCII and none is empty. *)
Lemma alias_keys_ascii :
  forall k, In k (map fst COLUMN_ALIASES) ->
            is_ascii k = true /\ str_eqb (ascii_lower k) [] = false.
Proof.
  assert (H : forallb (fun k => is_ascii k && negb (str_eqb (ascii_lower k) []))
                      (map fst COLUMN_ALIASES) = true) by (vm_compute; reflexivity).
  rewrite forallb_forall in H. intros k Hin. specialize (H k Hin).
  apply andb_true_iff in H. rewrite negb_true_iff in H. exact H.
Qed.

(** On the sheet with the single header " " the result is empty. *)
Lemma blank_header_dropped rt :
  lower_on_ascii rt -> normalizeKeys rt blank_header_row = [].
Proof.
  intros Hascii. unfold normalizeKeys.
  change (own_keys blank_header_row) with [str " "].
  cbn [fold_left]. unfold normalizeKey, resolveKey. cbv zeta.
  change (trim (str " ")) with (@nil N).
  change (COLUMN_ALIASES_at []) with KUndefined. cbn [key_truthy].
  rewrite COLUMN_ALIASES_keys.
  rewrite (Hascii []) by reflexivity.
  assert (F : find (fun k => str_eqb (toLowerCase rt k) (ascii_lower []))
                   (map fst COLUMN_ALIASES) = None).
  { apply find_all_false. intros k Hin.
    destruct (alias_keys_ascii k Hin) as [H1 H2].
    rewrite (Hascii k H1). exact H2. }
  rewrite F. reflexivity.
Qed.

(** C6, as stated, fails: the key " " of a row matches no alias and is not
    passed through; it is dropped, and the result is the empty object. *)
Lemma blank_header_not_passed :
  normalizeKeys ascii_runtime blank_header_row = []
  /\ ~ claimed_pass_through ascii_runtime blank_header_row.
Proof.
  pose proof (blank_header_dropped ascii_runtime ascii_runtime_on_ascii) as E.
  split; [exact E|].
  intros H. specialize (H (str " ")). rewrite E in H.
  apply H. left. reflexivity.
Qed.

(** C6, amended.  On a sheet row, a source key resolves to the canonical
    name of the table entry that its trimmed form matches exactly, else to
    that of the first entry matched without regard to case, else to its
    trimmed form, and is dropped when that is empty.  A key adds its value
    under a name not yet present; under a name already present the stored
    value gives way only when it is the empty string and the new value is
    non-empty.  So each name of the result holds the first non-empty value
    among its source keys in enumeration order, or their first value. *)
Theorem alias_resolution (rt : Runtime) (o : obj) :
  sheet_row o ->
  (forall key, In key (map fst o) ->
     (if key_truthy (resolveKey rt key)
      then Some (property_key rt (resolveKey rt key)) else None)
     = spec_resolve rt key)
  /\ (forall newObj key,
        In key (map fst o) -> defined_values newObj ->
        normalizeKey rt o newObj key =
        match spec_resolve rt key with
        | None => newObj
        | Some p =>
            match assoc_get newObj p with
            | None => newObj ++ [(p, get o key)]
            | Some cur =>
                if is_empty_string cur && non_empty (get o key)
                then assoc_set newObj p (get o key)
                else newObj
            end
        end)
  /\ (forall name,
        assoc_get (normalizeKeys rt o) name = spec_kept (sources rt o name)).
Proof.
  intros Hrow. pose proof Hrow as [Hp Hv].
  split; [|split].
  - intros key Hin. apply resolveKey_spec. apply Hp. exact Hin.
  - intros newObj key Hin Hd. apply normalizeKey_spec; auto.
  - intros name. unfold normalizeKeys.
    rewrite normalizeKeys_from.
    + change (assoc_get [] name) with (@None value).
      apply spec_collide_kept. apply sources_defined. exact Hrow.
    + intros key Hin. apply (proj1 (own_keys_In _ o key)) in Hin.
      split; [apply Hp | apply Hv]; exact Hin.
    + intros p. discriminate.
Qed.

(* ================================================================== *)
(** ** Aggregation *)

Lemma rate_completed_iff q : rate_completed q = true <-> 999 # 1000 <= q.
Proof. unfold rate_completed, FULL. apply Qle_bool_iff. Qed.

Lemma rate_inProgress_iff q :
  rate_inProgress q = true <-> 0 < q /\ q < 999 # 1000.
Proof.
  unfold rate_inProgress, FULL. rewrite andb_true_iff, !Qgt_bool_iff. tauto.
Qed.

Lemma rate_notStarted_iff q : rate_notStarted q = true <-> q == 0.
Proof. unfold rate_notStarted. apply Qeq_bool_iff. Qed.

Lemma share_spec n total :
  (total = 0%nat -> share n total = 0)
  /\ (total <> 0%nat -> share n total == Z.of_nat n # Pos.of_nat total).
Proof.
  unfold share. destruct total as [|t].
  - split; [reflexivity | congruence].
  - split; [discriminate|]. intros _. cbn [Nat.ltb Nat.leb].
    rewrite Qmake_Qdiv, Zpos_of_nat_S. reflexivity.
Qed.

Lemma tally_total s q : g_total (tally s q) = S (g_total s).
Proof.
  unfold tally. destruct (rate_completed q); [reflexivity|].
  destruct (rate_inProgress q); reflexivity.
Qed.

(** *** The stable sort *)

Lemma insert_desc_perm e l : Permutation (insert_desc e l) (e :: l).
Proof.
  induction l as [|e' t IH]; simpl; auto.
  destruct (Nat.ltb _ _); auto.
  rewrite IH. apply perm_swap.
Qed.

Lemma sort_desc_perm l : Permutation (sort_desc l) l.
Proof.
  induction l as [|e t IH]; simpl; auto.
  rewrite insert_desc_perm, IH. reflexivity.
Qed.

Lemma insert_desc_HdRel a e l :
  HdRel desc a l -> desc a e -> HdRel desc a (insert_desc e l).
Proof.
  intros H Hae. destruct l as [|e' t]; simpl.
  - constructor. exact Hae.
  - inversion H; subst. destruct (Nat.ltb _ _); constructor; assumption.
Qed.

Lemma insert_desc_Sorted e l :
  Sorted desc l -> Sorted desc (insert_desc e l).
Proof.
  induction l as [|e' t IH]; intros H; simpl.
  - repeat constructor.
  - inversion H as [|? ? Hs Hh]; subst.
    destruct (Nat.ltb (g_total (snd e)) (g_total (snd e'))) eqn:E.
    + apply Nat.ltb_lt in E. constructor; auto.
      apply insert_desc_HdRel; auto. unfold desc. lia.
    + apply Nat.ltb_ge in E.
      constructor; [assumption | constructor; exact E].
Qed.

Lemma sort_desc_Sorted l : Sorted desc (sort_desc l).
Proof.
  induction l as [|e t IH]; simpl; [constructor|].
  apply insert_desc_Sorted, IH.
Qed.

(** Entries of one total keep their order. *)
Lemma insert_desc_stable n e l :
  filter (has_total n) (insert_desc e l) = filter (has_total n) (e :: l).
Proof.
  induction l as [|e' t IH]; [reflexivity|].
  cbn [insert_desc].
  destruct (Nat.ltb (g_total (snd e)) (g_total (snd e'))) eqn:E; [|reflexivity].
  apply Nat.ltb_lt in E.
  cbn [filter] in *. rewrite IH. unfold has_total.
  destruct (Nat.eqb (g_total (snd e')) n) eqn:E1;
  destruct (Nat.eqb (g_total (snd e)) n) eqn:E2; try reflexivity.
  apply Nat.eqb_eq in E1, E2. lia.
Qed.

Lemma sort_desc_stable n l :
  filter (has_total n) (sort_desc l) = filter (has_total n) l.
Proof.
  induction l as [|e t IH]; [reflexivity|].
  cbn [sort_desc fold_right]. fold (sort_desc t).
  rewrite insert_desc_stable. cbn [filter]. rewrite IH. reflexivity.
Qed.

(** *** Enumeration of the array indices *)

Lemma insert_index_Sorted {V} (e : jsstring * V) l :
  Sorted index_le l -> Sorted index_le (insert_index e l).
Proof.
  induction l as [|e' t IH]; intros H; simpl.
  - repeat constructor.
  - inversion H as [|? ? Hs Hh]; subst.
    destruct (N.leb (index_of (fst e)) (index_of (fst e'))) eqn:E.
    + apply N.leb_le in E.
      constructor; [assumption | constructor; exact E].
    + apply N.leb_gt in E. constructor; auto.
      destruct t as [|e'' t']; simpl.
      * constructor. unfold index_le. lia.
      * inversion Hh; subst.
        destruct (N.leb _ _); constructor; auto. unfold index_le. lia.
Qed.

Lemma sort_index_Sorted {V} (l : assoc V) : Sorted index_le (sort_index l).
Proof.
  induction l as [|e t IH]; simpl; [constructor|].
  apply insert_index_Sorted, IH.
Qed.

(** *** Groups *)

Lemma first_seen_snoc keys k :
  first_seen (keys ++ [k]) = set_add k (first_seen keys).
Proof. unfold first_seen. rewrite fold_left_app. reflexivity. Qed.

Lemma first_seen_In keys k : In k (first_seen keys) <-> In k keys.
Proof.
  unfold first_seen. rewrite fold_set_add_In. simpl. tauto.
Qed.

Lemma occurrences_snoc k' keys k :
  occurrences k' (keys ++ [k])
  = (occurrences k' keys + (if str_eqb k' k then 1 else 0))%nat.
Proof.
  unfold occurrences. rewrite filter_app, length_app. simpl.
  destruct (str_eqb k' k); reflexivity.
Qed.

Lemma occurrences_absent k keys : ~ In k keys -> occurrences k keys = 0%nat.
Proof.
  unfold occurrences. induction keys as [|x t IH]; simpl; auto.
  intros H. destruct (str_eqb k x) eqn:E.
  - apply str_eqb_eq in E. subst. tauto.
  - apply IH. tauto.
Qed.

Section GroupFacts.

Variable groupByField : field.

Lemma groupsOf_snoc data r :
  groupsOf groupByField (data ++ [r])
  = groupStep groupByField (groupsOf groupByField data) r.
Proof. unfold groupsOf. rewrite fold_left_app. reflexivity. Qed.

Lemma groupsOf_NoDup data : NoDup (map fst (groupsOf groupByField data)).
Proof.
  induction data as [|r t IH] using rev_ind; [constructor|].
  rewrite groupsOf_snoc. unfold groupStep.
  destruct (assoc_get _ _); [apply assoc_set_NoDup, IH|].
  destruct (mem _ _); [exact IH | apply assoc_set_NoDup, IH].
Qed.

(** The groups are the names in first-encountered order, each with the
    number of its rows. *)
Lemma groupsOf_first_seen data :
  plain_groups groupByField data ->
  map fst (groupsOf groupByField data)
  = first_seen (map (groupKey groupByField) data)
  /\ (forall k s, assoc_get (groupsOf groupByField data) k = Some s ->
                  g_total s
                  = occurrences k (map (groupKey groupByField) data)).
Proof.
  induction data as [|r t IH] using rev_ind; intros Hp.
  - split; [reflexivity | discriminate].
  - assert (Hpt : plain_groups groupByField t).
    { intros x Hx. apply Hp. apply in_or_app. left; exact Hx. }
    assert (Hpr : mem (groupKey groupByField r) object_prototype_names = false).
    { apply Hp. apply in_or_app. right. left; reflexivity. }
    destruct (IH Hpt) as [Hk Ht]. clear IH.
    rewrite groupsOf_snoc, map_app. cbn [map].
    rewrite first_seen_snoc.
    set (G := groupsOf groupByField t) in *.
    set (keys := map (groupKey groupByField) t) in *.
    set (k := groupKey groupByField r) in *.
    unfold groupStep. fold k.
    destruct (assoc_get G k) as [s|] eqn:E.
    + split.
      * rewrite (assoc_set_keys _ _ _ _ s E), Hk. unfold set_add.
        assert (M : mem k (first_seen keys) = true).
        { apply mem_In. rewrite <- Hk.
          apply assoc_get_Some_In in E. apply (in_map fst) in E. exact E. }
        rewrite M. reflexivity.
      * intros k' s'. rewrite occurrences_snoc.
        destruct (str_eqb k' k) eqn:Ek.
        -- apply str_eqb_eq in Ek. subst k'. rewrite assoc_set_get_eq.
           intros [= <-]. rewrite tally_total, (Ht k s E). lia.
        -- apply str_eqb_neq in Ek.
           rewrite assoc_set_get_neq by congruence.
           intros H. rewrite (Ht k' s' H). lia.
    + rewrite Hpr.
      assert (Hnot : ~ In k keys).
      { apply assoc_get_None in E. rewrite Hk in E.
        rewrite first_seen_In in E. exact E. }
      split.
      * rewrite assoc_set_fresh by exact E. rewrite map_app, Hk. cbn [map fst].
        unfold set_add.
        assert (M : mem k (first_seen keys) = false).
        { apply mem_false. rewrite first_seen_In. exact Hnot. }
        rewrite M. reflexivity.
      * intros k' s'. rewrite occurrences_snoc.
        destruct (str_eqb k' k) eqn:Ek.
        -- apply str_eqb_eq in Ek. subst k'. rewrite assoc_set_get_eq.
           intros [= <-]. rewrite tally_total, (occurrences_absent _ _ Hnot).
           reflexivity.
        -- apply str_eqb_neq in Ek.
           rewrite assoc_set_get_neq by congruence.
           intros H. rewrite (Ht k' s' H). lia.
Qed.

End GroupFacts.

Lemma filter_total_keys (G : assoc stats) keys n :
  (forall k s, In (k, s) G -> g_total s = occurrences k keys) ->
  map fst (filter (has_total n) G)
  = filter (fun k => Nat.eqb (occurrences k keys) n) (map fst G).
Proof.
  induction G as [|[k s] t IH]; intros H; [reflexivity|].
  assert (E : has_total n (k, s) = Nat.eqb (occurrences k keys) n).
  { unfold has_total. cbn [snd]. rewrite (H k s) by (left; reflexivity).
    reflexivity. }
  cbn [filter map fst]. rewrite E.
  destruct (Nat.eqb (occurrences k keys) n); cbn [map fst];
    rewrite IH by (intros k' s' Hin; apply H; right; exact Hin); reflexivity.
Qed.

Lemma desc_trans : Relations_1.Transitive desc.
Proof. intros a b c. unfold desc. lia. Qed.

(** C9, as stated, fails on ties: the districts "B" and "7" have one row
    each and "B" is met first, yet "7" is listed first. *)
Lemma numbered_district_listed_first :
  ~ claimed_ties District numbered_district_data.
Proof.
  intros H. specialize (H 1%nat). vm_compute in H. discriminate.
Qed.

(** C9, amended.  The summary counts the rows with rate at least 0.999 as
    completed, those with rate strictly between 0 and 0.999 as in progress
    and those with rate 0 as not started, and the overall percentage is
    completed over total, 0 for no row.  A breakdown puts "(Blank)" for an
    empty value; its groups are the names in first-encountered order, each
    with the number of its rows, and they are listed by descending total,
    groups of one total in the order of [Object.entries]: the names that are
    array indices first, in ascending numeric order, then the other names in
    first-encountered order. *)
Theorem aggregation_counts_and_order (groupByField : field)
                                     (data : list FinalReportRow) :
  plain_groups groupByField data ->
  let keys := map (groupKey groupByField) data in
  let groups := groupsOf groupByField data in
  let listed := pivotGroups groupByField data in
  ((forall q, rate_completed q = true <-> 999 # 1000 <= q)
   /\ (forall q, rate_inProgress q = true <-> 0 < q /\ q < 999 # 1000)
   /\ (forall q, rate_notStarted q = true <-> q == 0)
   /\ total (summaryData data) = List.length data
   /\ completed (summaryData data) = count_rows rate_completed data
   /\ inProgress (summaryData data) = count_rows rate_inProgress data
   /\ notStarted (summaryData data) = count_rows rate_notStarted data
   /\ (data = [] -> completedShare (summaryData data) = 0)
   /\ (data <> [] ->
       completedShare (summaryData data)
       == Z.of_nat (completed (summaryData data))
          # Pos.of_nat (total (summaryData data))))
  /\ (forall r, groupKey groupByField r
                = if is_empty (field_of groupByField r) then str "(Blank)"
                  else field_of groupByField r)
  /\ map fst groups = first_seen keys
  /\ (forall k s, In (k, s) groups -> g_total s = occurrences k keys)
  /\ (forall title,
        createPivotTable groupByField title data
        = [ CText title; CText []; CText []; CText []; CText []; CText [] ]
          :: [ CText (field_name groupByField); CText (str "Total Count");
               CText (str "Completed"); CText (str "In Progress");
               CText (str "Not Started"); CText (str "Completion %") ]
          :: map pivotRow listed ++ [ [ CText [] ] ])
  /\ Permutation listed groups
  /\ StronglySorted desc listed
  /\ (forall n, filter (has_total n) listed
                = filter (has_total n) (own_entries groups))
  /\ own_entries groups
     = sort_index (filter (fun e => is_index (fst e)) groups)
       ++ filter (fun e => negb (is_index (fst e))) groups
  /\ Permutation (sort_index (filter (fun e => is_index (fst e)) groups))
                 (filter (fun e => is_index (fst e)) groups)
  /\ Sorted index_le (sort_index (filter (fun e => is_index (fst e)) groups))
  /\ ((forall k, In k keys -> is_index k = false) ->
      claimed_ties groupByField data).
Proof.
  intros Hp keys groups listed.
  destruct (groupsOf_first_seen groupByField data Hp) as [Hk Ht].
  fold keys in Hk, Ht. fold groups in Hk, Ht.
  assert (Hin : forall k s, In (k, s) groups -> g_total s = occurrences k keys).
  { intros k s H. apply Ht. apply NoDup_assoc_get; auto.
    apply groupsOf_NoDup. }
  split.
  { split; [apply rate_completed_iff|]. split; [apply rate_inProgress_iff|].
    split; [apply rate_notStarted_iff|]. repeat (split; [reflexivity|]).
    split.
    - intros ->. reflexivity.
    - intros Hne. apply share_spec. destruct data; [congruence | discriminate]. }
  split; [reflexivity|]. split; [exact Hk|]. split; [exact Hin|].
  split; [reflexivity|].
  split.
  { unfold listed, pivotGroups. rewrite sort_desc_perm. apply own_entries_perm. }
  split.
  { apply Sorted_StronglySorted; [exact desc_trans | apply sort_desc_Sorted]. }
  split; [intros n; apply sort_desc_stable|].
  split; [reflexivity|]. split; [apply sort_index_perm|].
  split; [apply sort_index_Sorted|].
  intros Hplain n. unfold listed, pivotGroups. fold groups. fold keys.
  rewrite sort_desc_stable, own_entries_plain.
  - rewrite (filter_total_keys groups keys n Hin), Hk. reflexivity.
  - intros k Hkin. apply Hplain. rewrite Hk in Hkin.
    apply first_seen_In. exact Hkin.
Qed.

(* ================================================================== *)
(** ** ASCII data: only ASCII lower-casing matters *)

Lemma fold_left_ext_in {A B} (f g : A -> B -> A) (l : list B) (a : A) :
  (forall acc x, In x l -> f acc x = g acc x) ->
  fold_left f l a = fold_left g l a.
Proof.
  revert a; induction l as [|x t IH]; intros a H; simpl; auto.
  rewrite (H a x) by (left; reflexivity).
  apply IH. intros acc y Hy. apply H. right; exact Hy.
Qed.

Lemma find_ext_in {A} (p q : A -> bool) (l : list A) :
  (forall x, In x l -> p x = q x) -> find p l = find q l.
Proof.
  induction l as [|x t IH]; intros H; simpl; auto.
  rewrite (H x) by (left; reflexivity).
  destruct (q x); auto. apply IH. intros y Hy. apply H. right; exact Hy.
Qed.

Lemma existsb_ext_in {A} (p q : A -> bool) (l : list A) :
  (forall x, In x l -> p x = q x) -> existsb p l = existsb q l.
Proof.
  induction l as [|x t IH]; intros H; simpl; auto.
  rewrite (H x) by (left; reflexivity). f_equal.
  apply IH. intros y Hy. apply H. right; exact Hy.
Qed.

Section AsciiData.

Variable rt : Runtime.
Hypothesis Hascii : lower_on_ascii rt.


Lemma cleanText_ascii v :
  ascii_text v = true -> cleanText rt v = cleanText (with_ascii_lower rt) v.
Proof.
  destruct v as [| |b|n|s]; simpl; try reflexivity; try discriminate.
  - intros _. destruct b; apply Hascii; reflexivity.
  - intros H. apply Hascii. exact H.
Qed.

Lemma get_ascii r key : ascii_row r = true -> ascii_text (get r key) = true.
Proof.
  unfold ascii_row, get. rewrite forallb_forall. intros H.
  destruct (assoc_get r key) as [v|] eqn:E; [|reflexivity].
  apply assoc_get_Some_In in E. apply (H _ E).
Qed.

Lemma cleanText_get_ascii r key :
  ascii_row r = true -> cleanText rt (get r key) = cleanText (with_ascii_lower rt) (get r key).
Proof. intros H. apply cleanText_ascii, get_ascii, H. Qed.

Lemma isLessonCol_ascii combinedLMS key :
  forallb ascii_row combinedLMS = true ->
  isLessonCol rt combinedLMS key = isLessonCol (with_ascii_lower rt) combinedLMS key.
Proof.
  rewrite forallb_forall. intros H. unfold isLessonCol.
  apply existsb_ext_in. intros r Hr.
  rewrite (cleanText_get_ascii r key (H r Hr)). reflexivity.
Qed.

Lemma lessonColumns_ascii combinedLMS :
  forallb ascii_row combinedLMS = true ->
  lessonColumns rt combinedLMS = lessonColumns (with_ascii_lower rt) combinedLMS.
Proof.
  intros H. unfold lessonColumns. apply fold_left_ext_in.
  intros acc key _. rewrite (isLessonCol_ascii combinedLMS key H). reflexivity.
Qed.

Lemma calculateRate_ascii cols r :
  ascii_row r = true -> calculateRate rt cols r = calculateRate (with_ascii_lower rt) cols r.
Proof.
  intros H. unfold calculateRate, completedCount.
  rewrite (filter_ext _ (fun colKey => is_done (cleanText (with_ascii_lower rt) (get r colKey)))).
  - reflexivity.
  - intros key. rewrite (cleanText_get_ascii r key H). reflexivity.
Qed.

Lemma dedupStep_ascii cols lmsMap r :
  ascii_row r = true ->
  dedupStep rt cols lmsMap r = dedupStep (with_ascii_lower rt) cols lmsMap r.
Proof.
  intros H. unfold dedupStep.
  rewrite (cleanText_get_ascii r USERNAME_EMAIL H), (calculateRate_ascii cols r H).
  reflexivity.
Qed.

Lemma dedupe_ascii cols rows :
  forallb ascii_row rows = true ->
  dedupe rt cols rows = dedupe (with_ascii_lower rt) cols rows.
Proof.
  rewrite forallb_forall. intros H. unfold dedupe.
  apply fold_left_ext_in. intros acc r Hr. apply dedupStep_ascii, H, Hr.
Qed.

Lemma masterIndex_ascii master :
  forallb ascii_row master = true ->
  masterIndex rt master = masterIndex (with_ascii_lower rt) master.
Proof.
  rewrite forallb_forall. intros H. unfold masterIndex.
  apply fold_left_ext_in. intros acc r Hr.
  rewrite (cleanText_get_ascii r USERNAME_EMAIL (H r Hr)). reflexivity.
Qed.

Lemma processData_ascii lms1 lms2 master :
  forallb ascii_row (lms1 ++ lms2) = true ->
  forallb ascii_row master = true ->
  processData rt lms1 lms2 master = processData (with_ascii_lower rt) lms1 lms2 master.
Proof.
  intros H1 H2. unfold processData.
  rewrite (lessonColumns_ascii _ H1), (dedupe_ascii _ _ H1),
          (masterIndex_ascii _ H2).
  reflexivity.
Qed.

Lemma resolveKey_ascii key :
  is_ascii (trim key) = true -> resolveKey rt key = resolveKey (with_ascii_lower rt) key.
Proof.
  intros H. unfold resolveKey. cbv zeta.
  rewrite (Hascii _ H).
  rewrite (find_ext_in
             (fun k => str_eqb (toLowerCase rt k) (ascii_lower (trim key)))
             (fun k => str_eqb (toLowerCase (with_ascii_lower rt) k) (toLowerCase (with_ascii_lower rt) (trim key)))).
  - reflexivity.
  - intros k Hk. rewrite COLUMN_ALIASES_keys in Hk.
    destruct (alias_keys_ascii k Hk) as [Hk1 _].
    rewrite (Hascii k Hk1). reflexivity.
Qed.

Lemma normalizeKeys_ascii o :
  ascii_keys o = true -> normalizeKeys rt o = normalizeKeys (with_ascii_lower rt) o.
Proof.
  unfold ascii_keys. rewrite forallb_forall. intros H. unfold normalizeKeys.
  apply fold_left_ext_in. intros acc key Hk.
  apply (proj1 (own_keys_In _ o key)) in Hk.
  apply in_map_iff in Hk. destruct Hk as ([k v] & Ek & Hin).
  simpl in Ek. subst key.
  unfold normalizeKey. rewrite (resolveKey_ascii k (H _ Hin)). reflexivity.
Qed.

End AsciiData.

(** C1.  The end-to-end scenario: the two LMS rows share the identity key
    "a@x.com"; the row of sheet B scores 1 against 1/2 and wins; the master
    row supplies the district.  The report is that one row. *)
Theorem end_to_end_scenario (rt : Runtime) :
  lower_on_ascii rt ->
  exists out,
    processData rt [normalizeKeys rt sheetA_row] [normalizeKeys rt sheetB_row]
                   [normalizeKeys rt master_row]
    = [out]
    /\ r_District out = str "Riyadh"
    /\ CompletionRate out == 1
    /\ r_UsernameEmail out = str "a@x.com".
Proof.
  intros Hascii.
  rewrite !(normalizeKeys_ascii rt Hascii) by reflexivity.
  rewrite (processData_ascii rt Hascii) by (vm_compute; reflexivity).
  eexists. split; [vm_compute; reflexivity|].
  split; [reflexivity|]. split; reflexivity.
Qed.

(* ================================================================== *)
(** ** The theorems at sample data *)

Lemma end_to_end_scenario_witness :
  exists out,
    processData ascii_runtime
      [normalizeKeys ascii_runtime sheetA_row]
      [normalizeKeys ascii_runtime sheetB_row]
      [normalizeKeys ascii_runtime master_row]
    = [out]
    /\ r_District out = str "Riyadh"
    /\ CompletionRate out == 1
    /\ r_UsernameEmail out = str "a@x.com".
Proof.
  exact (end_to_end_scenario ascii_runtime ascii_runtime_on_ascii).
Defined.

Lemma dedup_policy_witness :
  dedupStep ascii_runtime lessons (dedupe ascii_runtime lessons [lmsA]) lmsB
  = [ (str "a@x.com",
       {| row := lmsB; rate := calculateRate ascii_runtime lessons lmsB |}) ]
  /\ dedupStep ascii_runtime lessons
       (dedupe ascii_runtime lessons [dated_row 45000]) (dated_row 45031)
     = [ (str "a@x.com",
          {| row := dated_row 45031;
             rate := calculateRate ascii_runtime lessons (dated_row 45031) |}) ]
  /\ dedupStep ascii_runtime lessons
       (dedupe ascii_runtime lessons [dated_row 45031]) (dated_row 45000)
     = dedupe ascii_runtime lessons [dated_row 45031]
  /\ dedupStep calendar_runtime lessons
       (dedupe calendar_runtime lessons [texted_row "2024-01-01"])
       (texted_row "2024-02-01")
     = [ (str "a@x.com",
          {| row := texted_row "2024-02-01";
             rate := calculateRate calendar_runtime lessons
                       (texted_row "2024-02-01") |}) ]
  /\ dedupStep calendar_runtime lessons
       (dedupe calendar_runtime lessons [texted_row "2024-01-01"])
       (texted_row "2024-01-01")
     = dedupe calendar_runtime lessons [texted_row "2024-01-01"].
Proof.
  pose proof (fun rt stored new =>
                dedup_policy rt lessons (dedupe rt lessons [stored]) new) as T.
  cbv zeta in T.
  split; [|split; [|split; [|split]]].
  - destruct (T ascii_runtime lmsA lmsB) as (_ & _ & H & _).
    destruct (H ltac:(reflexivity) ltac:(vm_compute; discriminate)
                ltac:(vm_compute; discriminate)
                ltac:(vm_compute; discriminate)) as [_ Hold].
    destruct (Hold {| row := lmsA;
                      rate := calculateRate ascii_runtime lessons lmsA |}
                ltac:(vm_compute; reflexivity)) as (Hrep & Hkeep & Hsame).
    rewrite Hrep; [vm_compute; reflexivity|].
    left. vm_compute. reflexivity.
  - destruct (T ascii_runtime (dated_row 45000) (dated_row 45031)) as (_ & _ & H & _).
    destruct (H ltac:(reflexivity) ltac:(vm_compute; discriminate)
                ltac:(vm_compute; discriminate)
                ltac:(vm_compute; discriminate)) as [_ Hold].
    destruct (Hold {| row := (dated_row 45000);
                      rate := calculateRate ascii_runtime lessons (dated_row 45000) |}
                ltac:(vm_compute; reflexivity)) as (Hrep & Hkeep & Hsame).
    rewrite Hrep; [vm_compute; reflexivity|].
    right. split; vm_compute; reflexivity.
  - destruct (T ascii_runtime (dated_row 45031) (dated_row 45000)) as (_ & _ & H & _).
    destruct (H ltac:(reflexivity) ltac:(vm_compute; discriminate)
                ltac:(vm_compute; discriminate)
                ltac:(vm_compute; discriminate)) as [_ Hold].
    destruct (Hold {| row := (dated_row 45031);
                      rate := calculateRate ascii_runtime lessons (dated_row 45031) |}
                ltac:(vm_compute; reflexivity)) as (Hrep & Hkeep & Hsame).
    apply Hkeep. intros [L|[_ L]]; vm_compute in L; discriminate.
  - destruct (T calendar_runtime (texted_row "2024-01-01") (texted_row "2024-02-01")) as (_ & _ & H & _).
    destruct (H ltac:(reflexivity) ltac:(vm_compute; discriminate)
                ltac:(vm_compute; discriminate)
                ltac:(vm_compute; discriminate)) as [_ Hold].
    destruct (Hold {| row := (texted_row "2024-01-01");
                      rate := calculateRate calendar_runtime lessons (texted_row "2024-01-01") |}
                ltac:(vm_compute; reflexivity)) as (Hrep & Hkeep & Hsame).
    rewrite Hrep; [vm_compute; reflexivity|].
    right. split; vm_compute; reflexivity.
  - destruct (T calendar_runtime (texted_row "2024-01-01") (texted_row "2024-01-01")) as (_ & _ & H & _).
    destruct (H ltac:(reflexivity) ltac:(vm_compute; discriminate)
                ltac:(vm_compute; discriminate)
                ltac:(vm_compute; discriminate)) as [_ Hold].
    destruct (Hold {| row := (texted_row "2024-01-01");
                      rate := calculateRate calendar_runtime lessons (texted_row "2024-01-01") |}
                ltac:(vm_compute; reflexivity)) as (Hrep & Hkeep & Hsame).
    apply Hsame; vm_compute; reflexivity.
Defined.

Lemma merge_precedence_witness :
  In scenario_row (processData ascii_runtime [lmsA] [lmsB] [master_row])
  /\ exists emailKey lmsRow,
       In lmsRow ([lmsA] ++ [lmsB])
       /\ emailKey = cleanText ascii_runtime (get lmsRow USERNAME_EMAIL)
       /\ field_of District scenario_row
          = ToString ascii_runtime
              (spec_precedence
                 (assoc_get (masterIndex ascii_runtime [master_row]) emailKey)
                 lmsRow (str "District"))
       /\ CompletionRate scenario_row
          = calculateRate ascii_runtime
              (lessonColumns ascii_runtime ([lmsA] ++ [lmsB])) lmsRow.
Proof.
  assert (Hin : In scenario_row
                   (processData ascii_runtime [lmsA] [lmsB] [master_row]))
    by (left; vm_compute; reflexivity).
  split; [exact Hin|].
  destruct (merge_precedence ascii_runtime [lmsA] [lmsB] [master_row]
              scenario_row Hin)
    as (k & r & _ & H2 & H3 & H4 & H5 & _).
  exists k, r. split; [exact H2|]. split; [exact H3|].
  split; [exact (H4 District) | exact H5].
Defined.

Lemma two_emails_sheet_row : sheet_row two_emails_row.
Proof.
  split; intros key Hin; simpl in Hin;
    repeat (destruct Hin as [<-|Hin]; [vm_compute; try reflexivity; discriminate|]);
    destruct Hin.
Qed.

Lemma alias_resolution_witness :
  sheet_row two_emails_row
  /\ assoc_get (normalizeKeys ascii_runtime two_emails_row) (str "Username (Email)")
     = Some (VStr (str "x@y.sa"))
  /\ assoc_get (normalizeKeys ascii_runtime two_emails_row)
               (str "Display Name (Pharmacist name)")
     = Some (VStr (str "Noura")).
Proof.
  split; [exact two_emails_sheet_row|].
  destruct (alias_resolution ascii_runtime two_emails_row two_emails_sheet_row)
    as (_ & _ & H).
  split; rewrite H; vm_compute; reflexivity.
Defined.

Lemma aggregation_plain_groups : plain_groups District aggregation_data.
Proof.
  intros r Hin; simpl in Hin;
    repeat (destruct Hin as [<-|Hin]; [vm_compute; reflexivity|]);
    destruct Hin.
Qed.

Lemma aggregation_counts_and_order_witness :
  plain_groups District aggregation_data
  /\ map fst (groupsOf District aggregation_data)
     = [ str "Riyadh"; str "(Blank)"; str "Jeddah" ]
  /\ StronglySorted desc (pivotGroups District aggregation_data)
  /\ claimed_ties District aggregation_data.
Proof.
  split; [exact aggregation_plain_groups|].
  destruct (aggregation_counts_and_order District aggregation_data
              aggregation_plain_groups)
    as (_ & _ & Hk & _ & _ & _ & Hs & _ & _ & _ & _ & Ht).
  split; [rewrite Hk; vm_compute; reflexivity|].
  split; [exact Hs|].
  apply Ht. intros k Hin. simpl in Hin.
  repeat (destruct Hin as [<-|Hin]; [vm_compute; reflexivity|]).
  destruct Hin.
Defined.

Lemma non_string_email_skipped_witness :
  is_string (get numeric_email_row USERNAME_EMAIL) = false
  /\ dedupe ascii_runtime lessons ([lmsA] ++ numeric_email_row :: [lmsB])
     = dedupe ascii_runtime lessons ([lmsA] ++ [lmsB])
  /\ cleanText ascii_runtime (get numeric_email_row USERNAME_EMAIL)
     = str "12345".
Proof.
  assert (H : is_string (get numeric_email_row USERNAME_EMAIL) = false)
    by reflexivity.
  split; [exact H|].
  destruct (non_string_email_skipped ascii_runtime lessons [lmsA] [lmsB]
              numeric_email_row ascii_runtime_on_ascii H)
    as (_ & H2 & _ & H4).
  split; [exact H2|].
  destruct (H4 12345%Z) as [H5 _].
  - vm_compute. reflexivity.
  - reflexivity.
  - rewrite H5. vm_compute. reflexivity.
Defined.

(* ================================================================== *)
(** ** The examples of the specification *)

(** Scores 1/2 and 1 for one key: the higher score is kept in either order
    of arrival. *)
Example higher_score_kept :
  map (fun kv => row (snd kv)) (dedupe ascii_runtime lessons [lmsA; lmsB]) = [lmsB]
  /\ map (fun kv => row (snd kv)) (dedupe ascii_runtime lessons [lmsB; lmsA]) = [lmsB].
Proof. split; vm_compute; reflexivity. Qed.

(** Equal scores: the later date is kept; equal dates: the first row. *)
Example later_date_kept :
  map (fun kv => row (snd kv))
      (dedupe ascii_runtime lessons [dated_row 45000; dated_row 45031])
  = [dated_row 45031]
  /\ map (fun kv => row (snd kv))
         (dedupe ascii_runtime lessons [dated_row 45031; dated_row 45000])
     = [dated_row 45031]
  /\ map (fun kv => row (snd kv))
         (dedupe ascii_runtime lessons [lmsA; dated_row 0; lmsA])
     = [lmsA].
Proof. repeat split; vm_compute; reflexivity. Qed.

(** Master "Riyadh" over an empty LMS district; LMS "Jeddah" under an empty
    master district. *)
Example district_precedence :
  mergeField (Some [(str "District", VStr (str "Riyadh"))])
             [(str "District", VStr [])] (str "District")
  = VStr (str "Riyadh")
  /\ mergeField (Some [(str "District", VStr [])])
                [(str "District", VStr (str "Jeddah"))] (str "District")
     = VStr (str "Jeddah").
Proof. split; reflexivity. Qed.

(** A phone number alone does not make a record. *)
Example phone_alone_suppressed :
  mergeEntry ascii_runtime None
    {| row := [(PHONE_NUMBER, VStr (str "0550000000"))]; rate := 1 |} = None.
Proof. reflexivity. Qed.

(** Rates 1, 0.999, 0.5 and 0: two completed, one in progress, one not
    started, half completed. *)
Example summary_of_four :
  let s := summaryData aggregation_data in
  total s = 4%nat /\ completed s = 2%nat /\ inProgress s = 1%nat
  /\ notStarted s = 1%nat /\ completedShare s == 1 # 2.
Proof. repeat split. Qed.

(** A group of five rows stands before a group of three. *)
Example five_before_three :
  map fst (pivotGroups City
             (repeat (district_row (str "R") 1) 3
              ++ map (fun r => {| r_District := []; r_City := str "Jeddah";
                                  r_SupervisorName := []; r_PharmacyNo := [];
                                  r_UserEmployeeID := []; r_UsernameEmail := [];
                                  r_DisplayName := []; r_PhoneNumber := [];
                                  r_SCFHS := [];
                                  CompletionRate := CompletionRate r |})
                     (repeat (district_row [] 0) 5)))
  = [ str "Jeddah"; str "(Blank)" ].
Proof. vm_compute. reflexivity. Qed.

(** Districts "B" and "7", one row each: "7" is listed first. *)
Example numbered_district_order :
  map fst (pivotGroups District numbered_district_data) = [ str "7"; str "B" ]
  /\ first_seen (map (groupKey District) numbered_district_data)
     = [ str "B"; str "7" ].
Proof. split; vm_compute; reflexivity. Qed.

(** A column named as a member of [Object.prototype] is not stored under
    its own name. *)
Example inherited_name_rewritten :
  map fst (normalizeKeys ascii_runtime [(str "constructor", VStr (str "x"))])
  = [ str "function Object() { [native code] }" ].
Proof. vm_compute. reflexivity. Qed.
(* ================================================================== *)
(** ** More on text normalisation *)









(* ================================================================== *)
(** ** More on alias resolution *)

Lemma fold_left_invariant {A B} (P : A -> Prop) (f : A -> B -> A)
                          (l : list B) (a : A) :
  (forall acc x, In x l -> P acc -> P (f acc x)) ->
  P a -> P (fold_left f l a).
Proof.
  revert a; induction l as [|x t IH]; intros a Hstep Ha; simpl; auto.
  apply IH.
  - intros acc y Hy. apply Hstep. right; exact Hy.
  - apply Hstep; [left; reflexivity | exact Ha].
Qed.

Lemma trim_start_head s c t :
  trim_start s = c :: t -> is_space c = false.
Proof.
  induction s as [|a s' IH]; simpl; [discriminate|].
  destruct (is_space a) eqn:E; auto.
  intros [= <- _]. exact E.
Qed.

Lemma trim_end_head c t :
  is_space c = false -> exists t', trim_end (c :: t) = c :: t'.
Proof.
  intros H. simpl. destruct (trim_end t) as [|d r].
  - rewrite H. eauto.
  - eauto.
Qed.

Lemma trim_idem s : trim (trim s) = trim s.
Proof.
  unfold trim. destruct (trim_start s) as [|c t] eqn:E; [reflexivity|].
  pose proof (trim_start_head s c t E) as Hc.
  destruct (trim_end_head c t Hc) as [t' Et]. rewrite Et.
  cbn [trim_start]. rewrite Hc. rewrite <- Et. apply trim_end_idem.
Qed.

Lemma normalizeKey_cases rt (o newObj : obj) key :
  normalizeKey rt o newObj key = newObj
  \/ (key_truthy (resolveKey rt key) = true
      /\ normalizeKey rt o newObj key
         = assoc_set newObj (property_key rt (resolveKey rt key)) (get o key)).
Proof.
  unfold normalizeKey. cbv zeta.
  destruct (key_truthy (resolveKey rt key)); [|left; reflexivity].
  destruct (_ || _); [right; split; reflexivity | left; reflexivity].
Qed.

Lemma assoc_set_length {V} (o : assoc V) k v :
  (List.length (assoc_set o k v) <= S (List.length o))%nat.
Proof.
  induction o as [|[k' v'] t IH]; simpl; [lia|].
  destruct (str_eqb k' k); simpl; lia.
Qed.

Section NormalizeMore.

Variable rt : Runtime.

Lemma spec_resolve_ascii key :
  lower_on_ascii rt -> is_ascii (trim key) = true ->
  spec_resolve rt key = spec_resolve ascii_runtime key.
Proof.
  intros Hascii H. unfold spec_resolve. cbv zeta.
  destruct (assoc_get COLUMN_ALIASES (trim key)); [reflexivity|].
  rewrite (find_ext_in
             (fun e => str_eqb (toLowerCase rt (fst e)) (toLowerCase rt (trim key)))
             (fun e => str_eqb (toLowerCase ascii_runtime (fst e))
                               (toLowerCase ascii_runtime (trim key)))).
  - reflexivity.
  - intros [a c] Hin. cbn [fst].
    destruct (alias_keys_ascii a (in_map fst _ _ Hin)) as [Ha _].
    rewrite (Hascii _ Ha), (Hascii _ H). reflexivity.
Qed.

Lemma canonical_settled c :
  lower_on_ascii rt -> In c (map snd COLUMN_ALIASES) -> settled rt c.
Proof.
  intros Hascii Hin.
  assert (H : forallb (fun c => str_eqb (trim c) c
                                && negb (mem c object_prototype_names)
                                && is_ascii (trim c)
                                && match spec_resolve ascii_runtime c with
                                   | Some p => str_eqb p c
                                   | None => false
                                   end)
                      (map snd COLUMN_ALIASES) = true)
    by (vm_compute; reflexivity).
  rewrite forallb_forall in H. specialize (H c Hin).
  rewrite !andb_true_iff in H. destruct H as [[[H1 H2] H3] H4].
  apply str_eqb_eq in H1. apply negb_true_iff in H2.
  split; [exact H1|]. split; [exact H2|].
  rewrite (spec_resolve_ascii c Hascii H3).
  destruct (spec_resolve ascii_runtime c) as [p|]; [|discriminate].
  apply str_eqb_eq in H4. subst p. reflexivity.
Qed.

(** The name a key resolves to resolves to itself. *)
Lemma spec_resolve_settled key p :
  lower_on_ascii rt ->
  mem (trim key) object_prototype_names = false ->
  spec_resolve rt key = Some p -> settled rt p.
Proof.
  intros Hascii Hp. unfold spec_resolve. cbv zeta.
  destruct (assoc_get COLUMN_ALIASES (trim key)) as [c|] eqn:E.
  - intros [= <-]. apply canonical_settled; auto.
    apply assoc_get_Some_In in E. apply (in_map snd) in E. exact E.
  - destruct (find _ COLUMN_ALIASES) as [e|] eqn:F.
    + intros [= <-]. apply canonical_settled; auto.
      apply find_some in F. destruct F as [F _]. apply in_map. exact F.
    + destruct (is_empty (trim key)) eqn:Ee; [discriminate|].
      intros [= <-]. split; [apply trim_idem|]. split; [exact Hp|].
      unfold spec_resolve. cbv zeta. rewrite trim_idem, E, F, Ee. reflexivity.
Qed.

Lemma settled_nonempty p : settled rt p -> p <> [].
Proof.
  intros (H1 & _ & H3) ->. unfold spec_resolve in H3. cbv zeta in H3.
  change (trim []) with (@nil N) in H3.
  change (assoc_get COLUMN_ALIASES []) with (@None jsstring) in H3.
  destruct (find _ COLUMN_ALIASES) as [e|] eqn:F.
  - apply find_some in F. destruct F as [F _]. destruct e as [a c].
    apply COLUMN_ALIASES_nonempty in F. destruct F as [_ F].
    injection H3 as H3. cbn [snd] in H3. subst c. discriminate.
  - discriminate.
Qed.

Variable o : obj.

(** Every property of the result holds the value of a source key that
    resolves to its name. *)
Lemma normalizeKeys_origin p v :
  In (p, v) (normalizeKeys rt o) ->
  exists key, In key (map fst o) /\ v = get o key
              /\ key_truthy (resolveKey rt key) = true
              /\ property_key rt (resolveKey rt key) = p.
Proof.
  unfold normalizeKeys. revert p v.
  apply (fold_left_invariant
           (fun acc => forall p v, In (p, v) acc ->
              exists key, In key (map fst o) /\ v = get o key
                          /\ key_truthy (resolveKey rt key) = true
                          /\ property_key rt (resolveKey rt key) = p)).
  - intros acc key Hkey Hacc p v Hin.
    destruct (normalizeKey_cases rt o acc key) as [E|[Ht E]];
      rewrite E in Hin; [apply Hacc; exact Hin|].
    apply assoc_set_In in Hin. destruct Hin as [[-> ->]|Hin]; [|auto].
    exists key. split; [apply own_keys_In; exact Hkey | auto].
  - intros p v [].
Qed.

Lemma normalizeKeys_NoDup : NoDup (map fst (normalizeKeys rt o)).
Proof.
  unfold normalizeKeys.
  apply (fold_left_invariant (fun acc : obj => NoDup (map fst acc))).
  - intros acc key _ Hacc.
    destruct (normalizeKey_cases rt o acc key) as [E|[_ E]]; rewrite E;
      [exact Hacc | apply assoc_set_NoDup, Hacc].
  - constructor.
Qed.

Lemma normalizeKeys_length :
  (List.length (normalizeKeys rt o) <= List.length o)%nat.
Proof.
  unfold normalizeKeys.
  assert (L : List.length (own_keys o) = List.length o).
  { unfold own_keys. rewrite length_map.
    apply Permutation_length, own_entries_perm. }
  rewrite <- L. generalize (own_keys o) as keys.
  assert (G : forall keys (acc : obj),
            (List.length (fold_left (normalizeKey rt o) keys acc)
             <= List.length acc + List.length keys)%nat).
  { induction keys as [|key t IH]; intros acc; simpl; [lia|].
    specialize (IH (normalizeKey rt o acc key)).
    destruct (normalizeKey_cases rt o acc key) as [E|[_ E]]; rewrite E in *.
    - lia.
    - pose proof (assoc_set_length acc
                    (property_key rt (resolveKey rt key)) (get o key)). lia. }
  intros keys. apply (G keys []).
Qed.

Lemma normalizeKeys_lookup name :
  sheet_row o ->
  assoc_get (normalizeKeys rt o) name = spec_kept (sources rt o name).
Proof.
  intros Hrow. pose proof Hrow as [Hp Hv]. unfold normalizeKeys.
  rewrite normalizeKeys_from.
  - change (assoc_get [] name) with (@None value).
    apply spec_collide_kept. apply sources_defined. exact Hrow.
  - intros key Hin. apply (proj1 (own_keys_In _ o key)) in Hin.
    split; [apply Hp | apply Hv]; exact Hin.
  - intros p. discriminate.
Qed.

Lemma normalizeKeys_key_resolved p :
  sheet_row o ->
  In p (map fst (normalizeKeys rt o)) ->
  exists key, In key (map fst o) /\ spec_resolve rt key = Some p.
Proof.
  intros [Hp _] Hin. apply in_map_iff in Hin.
  destruct Hin as ([p' v] & E & Hin). cbn [fst] in E. subst p'.
  apply normalizeKeys_origin in Hin.
  destruct Hin as (key & Hk & _ & Ht & Hpk).
  exists key. split; [exact Hk|].
  rewrite <- (resolveKey_spec rt key (Hp key Hk)), Ht, Hpk. reflexivity.
Qed.

Lemma normalizeKeys_defined :
  sheet_row o -> defined_values (normalizeKeys rt o).
Proof.
  intros [_ Hv] name E. apply assoc_get_Some_In in E.
  apply normalizeKeys_origin in E. destruct E as (key & Hk & Hval & _).
  apply (Hv key Hk). symmetry. exact Hval.
Qed.

End NormalizeMore.

Lemma spec_resolve_nonempty rt key p : spec_resolve rt key = Some p -> p <> [].
Proof.
  unfold spec_resolve. cbv zeta.
  destruct (assoc_get COLUMN_ALIASES (trim key)) as [c|] eqn:E.
  - intros [= <-] ->. apply assoc_get_Some_In, COLUMN_ALIASES_nonempty in E.
    destruct E as [_ E]. discriminate.
  - destruct (find _ COLUMN_ALIASES) as [[a c]|] eqn:F.
    + intros [= <-]. cbn [snd]. intros ->.
      apply find_some in F. destruct F as [F _].
      apply COLUMN_ALIASES_nonempty in F. destruct F as [_ F]. discriminate.
    + destruct (trim key); [discriminate|]. intros [= <-]. discriminate.
Qed.

Lemma filter_eqb_NoDup name l :
  NoDup l ->
  filter (fun k => str_eqb k name) l = if mem name l then [name] else [].
Proof.
  induction 1 as [|x t Hnot Hnd IH]; [reflexivity|].
  cbn [filter mem existsb]. fold (mem name t). rewrite IH.
  rewrite (str_eqb_sym name x).
  destruct (str_eqb x name) eqn:E; cbn [orb].
  - apply str_eqb_eq in E. subst x.
    apply mem_false in Hnot. rewrite Hnot. reflexivity.
  - reflexivity.
Qed.

Lemma NoDup_assoc_In_iff {V} (o : assoc V) k v :
  NoDup (map fst o) -> (In (k, v) o <-> assoc_get o k = Some v).
Proof.
  intros H. split; [apply NoDup_assoc_get; exact H | apply assoc_get_Some_In].
Qed.

Lemma NoDup_keys_pairs {V} (o : assoc V) : NoDup (map fst o) -> NoDup o.
Proof.
  induction o as [|e t IH]; simpl; intros H; [constructor|].
  inversion H as [|? ? Hnot Hnd]; subst. constructor; auto.
  intros Hin. apply Hnot. apply in_map. exact Hin.
Qed.

(** X4.  The result of [normalizeKeys] on a sheet row is a well-formed row
    that invents nothing: its names are distinct and not empty and are
    exactly the names that the source keys resolve to; it has at most as
    many columns as the source; every value is the value of a source key
    that resolves to its name, and none is [undefined]. *)
Theorem normalizeKeys_invents_nothing (rt : Runtime) (o : obj) :
  sheet_row o ->
  let out := normalizeKeys rt o in
  NoDup (map fst out)
  /\ (List.length out <= List.length o)%nat
  /\ (forall p, In p (map fst out)
                <-> exists key, In key (map fst o)
                                /\ spec_resolve rt key = Some p)
  /\ (forall p, In p (map fst out) -> p <> [])
  /\ (forall p v, In (p, v) out ->
        exists key, In key (map fst o) /\ spec_resolve rt key = Some p
                    /\ v = get o key /\ v <> VUndefined).
Proof.
  intros Hrow out. pose proof Hrow as [Hp Hv].
  assert (Names : forall p, In p (map fst out)
                <-> exists key, In key (map fst o)
                                /\ spec_resolve rt key = Some p).
  { intros p. split; [apply normalizeKeys_key_resolved; exact Hrow|].
    intros (key & Hk & Hr).
    destruct (assoc_get out p) as [v|] eqn:E.
    - apply assoc_get_Some_In in E. apply (in_map fst) in E. exact E.
    - exfalso. unfold out in E. rewrite (normalizeKeys_lookup rt o p Hrow) in E.
      assert (S : In (get o key) (sources rt o p)).
      { unfold sources. apply in_map. apply filter_In.
        split; [apply own_keys_In; exact Hk|].
        rewrite Hr. apply str_eqb_refl. }
      unfold spec_kept in E. destruct (sources rt o p); [destruct S|].
      destruct (find non_empty (v :: l)); discriminate. }
  split; [apply normalizeKeys_NoDup|].
  split; [apply normalizeKeys_length|].
  split; [exact Names|].
  split.
  - intros p Hin. apply Names in Hin. destruct Hin as (key & _ & Hr).
    apply (spec_resolve_nonempty rt key p Hr).
  - intros p v Hin. apply normalizeKeys_origin in Hin.
    destruct Hin as (key & Hk & Hval & Ht & Hpk).
    exists key. split; [exact Hk|]. split; [|split; [exact Hval|]].
    + rewrite <- (resolveKey_spec rt key (Hp key Hk)), Ht, Hpk. reflexivity.
    + rewrite Hval. apply Hv. exact Hk.
Qed.

Lemma normalizeKeys_invents_nothing_witness :
  map fst (normalizeKeys ascii_runtime two_emails_row)
  = [ str "Username (Email)"; str "Display Name (Pharmacist name)";
      str "Lesson 1" ]
  /\ NoDup (map fst (normalizeKeys ascii_runtime two_emails_row))
  /\ (List.length (normalizeKeys ascii_runtime two_emails_row)
      <= List.length two_emails_row)%nat.
Proof.
  destruct (normalizeKeys_invents_nothing ascii_runtime two_emails_row
              two_emails_sheet_row) as (H1 & H2 & _).
  split; [vm_compute; reflexivity|]. split; [exact H1 | exact H2].
Defined.

Section Idempotence.

Variable rt : Runtime.
Hypothesis Hascii : lower_on_ascii rt.
Variable o : obj.
Hypothesis Hrow : sheet_row o.

Lemma normalized_keys_settled p :
  In p (map fst (normalizeKeys rt o)) -> settled rt p.
Proof.
  intros Hin. destruct (normalizeKeys_key_resolved rt o p Hrow Hin)
    as (key & Hk & Hr).
  destruct Hrow as [Hp _].
  apply (spec_resolve_settled rt key p Hascii (Hp key Hk) Hr).
Qed.

Lemma normalized_sheet_row : sheet_row (normalizeKeys rt o).
Proof.
  split; intros p Hin.
  - destruct (normalized_keys_settled p Hin) as (H1 & H2 & _).
    rewrite H1. exact H2.
  - destruct (assoc_get_In_key _ _ p Hin) as [v E].
    unfold get. rewrite E. intros ->.
    apply (normalizeKeys_defined rt o Hrow p). exact E.
Qed.

Lemma normalized_sources name :
  sources rt (normalizeKeys rt o) name
  = match assoc_get (normalizeKeys rt o) name with
    | Some v => [v]
    | None => []
    end.
Proof.
  set (o' := normalizeKeys rt o).
  assert (Hnd : NoDup (own_keys o')).
  { unfold own_keys.
    apply (Permutation_NoDup
             (Permutation_sym (Permutation_map fst (own_entries_perm _ o')))).
    apply normalizeKeys_NoDup. }
  unfold sources.
  rewrite (filter_ext_in _ (fun k => str_eqb k name)).
  2:{ intros k Hk. apply (proj1 (own_keys_In _ o' k)) in Hk.
      destruct (normalized_keys_settled k Hk) as (_ & _ & ->). reflexivity. }
  rewrite (filter_eqb_NoDup name _ Hnd).
  destruct (mem name (own_keys o')) eqn:M.
  - apply mem_In in M. apply (proj1 (own_keys_In _ o' name)) in M.
    destruct (assoc_get_In_key _ _ name M) as [v E].
    cbn [map]. unfold get. rewrite E. reflexivity.
  - apply mem_false in M.
    assert (E : assoc_get o' name = None).
    { apply assoc_get_None. intros H. apply M. apply own_keys_In. exact H. }
    rewrite E. reflexivity.
Qed.

Lemma normalized_twice_lookup name :
  assoc_get (normalizeKeys rt (normalizeKeys rt o)) name
  = assoc_get (normalizeKeys rt o) name.
Proof.
  rewrite (normalizeKeys_lookup rt _ name normalized_sheet_row).
  rewrite normalized_sources.
  destruct (assoc_get (normalizeKeys rt o) name) as [v|]; [|reflexivity].
  unfold spec_kept. cbn [find]. destruct (non_empty v); reflexivity.
Qed.

End Idempotence.

(** X3.  Alias resolution is idempotent on sheet rows: the result is again
    a sheet row, and resolving it once more yields the same columns with
    the same values. *)
Theorem normalizeKeys_idempotent (rt : Runtime) (o : obj) :
  lower_on_ascii rt -> sheet_row o ->
  sheet_row (normalizeKeys rt o)
  /\ (forall name,
        assoc_get (normalizeKeys rt (normalizeKeys rt o)) name
        = assoc_get (normalizeKeys rt o) name)
  /\ Permutation (normalizeKeys rt (normalizeKeys rt o)) (normalizeKeys rt o).
Proof.
  intros Hascii Hrow.
  split; [apply normalized_sheet_row; assumption|].
  split; [apply normalized_twice_lookup; assumption|].
  apply NoDup_Permutation.
  - apply NoDup_keys_pairs, normalizeKeys_NoDup.
  - apply NoDup_keys_pairs, normalizeKeys_NoDup.
  - intros [p v].
    rewrite !NoDup_assoc_In_iff by apply normalizeKeys_NoDup.
    rewrite normalized_twice_lookup by assumption. tauto.
Qed.

Lemma normalizeKeys_idempotent_witness :
  normalizeKeys ascii_runtime (normalizeKeys ascii_runtime two_emails_row)
  = normalizeKeys ascii_runtime two_emails_row
  /\ Permutation
       (normalizeKeys ascii_runtime (normalizeKeys ascii_runtime two_emails_row))
       (normalizeKeys ascii_runtime two_emails_row).
Proof.
  destruct (normalizeKeys_idempotent ascii_runtime two_emails_row
              ascii_runtime_on_ascii two_emails_sheet_row) as (_ & _ & H).
  split; [vm_compute; reflexivity | exact H].
Defined.

(* ================================================================== *)
(** ** More on reconciliation *)

Lemma assoc_set_keys_add {V} (o : assoc V) k v :
  map fst (assoc_set o k v) = set_add k (map fst o).
Proof.
  unfold set_add. destruct (assoc_get o k) as [v0|] eqn:E.
  - rewrite (assoc_set_keys _ _ _ v v0 E).
    assert (M : mem k (map fst o) = true).
    { apply mem_In. apply assoc_get_Some_In in E.
      apply (in_map fst) in E. exact E. }
    rewrite M. reflexivity.
  - rewrite (assoc_set_fresh _ _ _ v E), map_app.
    assert (M : mem k (map fst o) = false).
    { apply mem_false. apply assoc_get_None. exact E. }
    rewrite M. reflexivity.
Qed.

Lemma set_add_present k s : In k s -> set_add k s = s.
Proof.
  intros H. unfold set_add. apply mem_In in H. rewrite H. reflexivity.
Qed.

Section ReportFacts.

Variable rt : Runtime.
Implicit Types (rows : list obj) (r : obj) (cols : list jsstring).

Lemma dedupe_snoc cols rows r :
  dedupe rt cols (rows ++ [r]) = dedupStep rt cols (dedupe rt cols rows) r.
Proof. unfold dedupe. rewrite fold_left_app. reflexivity. Qed.

Lemma dedupStep_keys cols (lmsMap : assoc entry) r :
  map fst (dedupStep rt cols lmsMap r)
  = if admitted rt r then set_add (identity rt r) (map fst lmsMap)
    else map fst lmsMap.
Proof.
  destruct (admitted rt r) eqn:Ea.
  2:{ rewrite dedupStep_rejected by assumption. reflexivity. }
  rewrite dedupStep_admitted by assumption. cbv zeta. fold (identity rt r).
  destruct (assoc_get lmsMap (identity rt r)) as [old|] eqn:E.
  - assert (K : set_add (identity rt r) (map fst lmsMap) = map fst lmsMap).
    { apply set_add_present. apply assoc_get_Some_In in E.
      apply (in_map fst) in E. exact E. }
    rewrite K.
    destruct (negb _); [rewrite assoc_set_keys_add; exact K|].
    destruct (Qeq_bool _ _); [|reflexivity].
    destruct (num_gt _ _); [rewrite assoc_set_keys_add; exact K | reflexivity].
  - apply assoc_set_keys_add.
Qed.

(** The identity map lists the identity keys of the admitted rows in the
    order of their first appearance. *)
Lemma dedupe_keys cols rows :
  map fst (dedupe rt cols rows)
  = first_seen (map (identity rt) (filter (admitted rt) rows)).
Proof.
  induction rows as [|r t IH] using rev_ind; [reflexivity|].
  rewrite dedupe_snoc, dedupStep_keys, filter_app. cbn [filter].
  destruct (admitted rt r).
  - rewrite map_app. cbn [map]. rewrite first_seen_snoc, IH. reflexivity.
  - rewrite app_nil_r. exact IH.
Qed.

Lemma stored_entry cols rows key e :
  assoc_get (dedupe rt cols rows) key = Some e ->
  In (row e) rows /\ admitted rt (row e) = true
  /\ identity rt (row e) = key
  /\ rate e = calculateRate rt cols (row e).
Proof.
  intros H. apply assoc_get_Some_In in H.
  pose proof (dedupe_stored rt cols rows) as S.
  rewrite Forall_forall in S. destruct (S _ H) as (H1 & H2 & H3 & H4).
  cbn [fst snd] in *. unfold identity. auto.
Qed.

(** An admitted row has a truthy email, which the merge keeps. *)
Lemma admitted_emits masterRow e :
  admitted rt (row e) = true ->
  exists out, mergeEntry rt masterRow e = Some out.
Proof.
  intros Ha. destruct (mergeEntry rt masterRow e) as [out|] eqn:E; [eauto|].
  apply mergeEntry_None in E. destruct E as (_ & E & _).
  unfold admitted in Ha. rewrite !andb_true_iff in Ha.
  destruct Ha as [[[Ht _] _] _].
  unfold spec_precedence in E. rewrite Ht in E.
  destruct masterRow as [m|].
  - destruct (truthy (get m USERNAME_EMAIL)) eqn:Em; rewrite E in *; discriminate.
  - rewrite E in Ht. discriminate.
Qed.

Lemma finalRows_one_each (lmsMap : assoc entry) (masterMap : assoc obj) :
  Forall (fun kv => admitted rt (row (snd kv)) = true) lmsMap ->
  Forall2 (fun kv out =>
             mergeEntry rt (assoc_get masterMap (fst kv)) (snd kv) = Some out)
          lmsMap (finalRows rt lmsMap masterMap).
Proof.
  induction 1 as [|kv t Ha _ IH]; [constructor|].
  unfold finalRows. cbn [flat_map].
  destruct (admitted_emits (assoc_get masterMap (fst kv)) (snd kv) Ha)
    as [out E].
  rewrite E. cbn [app]. constructor; [exact E | exact IH].
Qed.

Lemma dedupe_admitted cols rows :
  Forall (fun kv => admitted rt (row (snd kv)) = true) (dedupe rt cols rows).
Proof.
  eapply Forall_impl; [|apply dedupe_stored].
  intros kv (_ & H & _). exact H.
Qed.

Lemma Forall2_rates (lmsMap : assoc entry) (masterMap : assoc obj) outs :
  Forall2 (fun kv out =>
             mergeEntry rt (assoc_get masterMap (fst kv)) (snd kv) = Some out)
          lmsMap outs ->
  map CompletionRate outs = map (fun kv => rate (snd kv)) lmsMap.
Proof.
  induction 1 as [|kv out t outs' H _ IH]; [reflexivity|].
  cbn [map]. rewrite IH. f_equal.
  apply mergeEntry_Some in H. apply H.
Qed.

Lemma lessonColumns_member rows key :
  In key (lessonColumns rt rows)
  <-> exists r, In r rows /\ is_target (cleanText rt (get r key)) = true.
Proof.
  unfold lessonColumns. rewrite lessonColumns_from_In. simpl.
  unfold isLessonCol. rewrite existsb_exists. split.
  - intros [[]|[_ H]]. exact H.
  - intros (r & Hr & Ht). right. split; [|eauto].
    apply allKeys_In. exists r. split; auto.
    apply (target_read_defined rt). exact Ht.
Qed.

Lemma lessonColumns_NoDup rows : NoDup (lessonColumns rt rows).
Proof. unfold lessonColumns. apply lessonColumns_from_NoDup. constructor. Qed.

Lemma calculateRate_bounds cols r :
  0 <= calculateRate rt cols r /\ calculateRate rt cols r <= 1.
Proof.
  destruct cols as [|c0 t].
  { cbn. split; discriminate. }
  assert (Hne : c0 :: t <> []) by discriminate.
  pose proof (calculateRate_quotient rt (c0 :: t) r Hne) as E.
  pose proof (completedCount_le rt (c0 :: t) r) as Hle.
  set (n := List.length (c0 :: t)) in *.
  assert (Hn : n = S (List.length t)) by reflexivity.
  rewrite E. unfold Qle. cbn [Qnum Qden]. split; lia.
Qed.

End ReportFacts.

(** X5.  Inside [processData] the guard on empty identity never drops a
    record: the report has exactly one row for each distinct identity key
    of the admitted LMS rows, in the order in which the keys first appear,
    each row being the merge of the entry of its key; and the rates of the
    report are those of the identity map. *)
Theorem report_one_row_per_identity (rt : Runtime)
                                    (lms1 lms2 master : list obj) :
  let combinedLMS := lms1 ++ lms2 in
  let lmsMap := dedupe rt (lessonColumns rt combinedLMS) combinedLMS in
  map fst lmsMap
  = first_seen (map (identity rt) (filter (admitted rt) combinedLMS))
  /\ NoDup (map fst lmsMap)
  /\ Forall2 (fun kv out =>
                mergeEntry rt (assoc_get (masterIndex rt master) (fst kv))
                           (snd kv) = Some out)
             lmsMap (processData rt lms1 lms2 master)
  /\ List.length (processData rt lms1 lms2 master)
     = List.length
         (first_seen (map (identity rt) (filter (admitted rt) combinedLMS)))
  /\ map CompletionRate (processData rt lms1 lms2 master)
     = map (fun kv => rate (snd kv)) lmsMap.
Proof.
  intros combinedLMS lmsMap.
  assert (F : Forall2 (fun kv out =>
                mergeEntry rt (assoc_get (masterIndex rt master) (fst kv))
                           (snd kv) = Some out)
             lmsMap (processData rt lms1 lms2 master)).
  { unfold processData. apply finalRows_one_each, dedupe_admitted. }
  assert (K : map fst lmsMap
              = first_seen (map (identity rt)
                                (filter (admitted rt) combinedLMS)))
    by apply dedupe_keys.
  split; [exact K|]. split; [apply dedupe_NoDup|]. split; [exact F|].
  split.
  - rewrite <- K, length_map. symmetry. apply (Forall2_length F).
  - apply (Forall2_rates rt _ _ _ F).
Qed.

(** X6.  The master sheet decides neither who is reported nor any rate:
    with any two master sheets the report has the same number of rows and
    the same rates in the same order, and without LMS rows it is empty. *)
Theorem master_cannot_change_rates (rt : Runtime)
                                   (lms1 lms2 master master' : list obj) :
  map CompletionRate (processData rt lms1 lms2 master)
  = map CompletionRate (processData rt lms1 lms2 master')
  /\ List.length (processData rt lms1 lms2 master)
     = List.length (processData rt lms1 lms2 master')
  /\ processData rt [] [] master = [].
Proof.
  assert (R : forall m,
            map CompletionRate (processData rt lms1 lms2 m)
            = map (fun kv => rate (snd kv))
                  (dedupe rt (lessonColumns rt (lms1 ++ lms2)) (lms1 ++ lms2))).
  { intros m. apply (Forall2_rates rt _ (masterIndex rt m)).
    unfold processData. apply finalRows_one_each, dedupe_admitted. }
  assert (E : map CompletionRate (processData rt lms1 lms2 master)
              = map CompletionRate (processData rt lms1 lms2 master'))
    by (rewrite !R; reflexivity).
  split; [exact E|]. split; [|reflexivity].
  rewrite <- (length_map CompletionRate), E, length_map. reflexivity.
Qed.

(** X7.  The entry kept for an identity key is one of the admitted rows of
    that key, with its own score, and no admitted row of that key scores
    higher: the reported rate is the best score of the person. *)
Theorem kept_rate_is_best (rt : Runtime) (lms1 lms2 : list obj)
                          (key : jsstring) (e : entry) :
  let combinedLMS := lms1 ++ lms2 in
  let cols := lessonColumns rt combinedLMS in
  assoc_get (dedupe rt cols combinedLMS) key = Some e ->
  In (row e) combinedLMS
  /\ admitted rt (row e) = true
  /\ identity rt (row e) = key
  /\ rate e = calculateRate rt cols (row e)
  /\ (forall r, In r combinedLMS -> admitted rt r = true ->
                identity rt r = key ->
                calculateRate rt cols r <= rate e).
Proof.
  intros combinedLMS cols He.
  destruct (stored_entry rt cols combinedLMS key e He) as (H1 & H2 & H3 & H4).
  repeat (split; [assumption|]).
  intros r Hr Ha Hk.
  destruct (dedupe_keeps_best rt cols combinedLMS r Hr Ha) as (e' & He' & Hle).
  fold (identity rt r) in He'. rewrite Hk, He in He'.
  injection He' as <-. exact Hle.
Qed.

Lemma kept_rate_is_best_witness :
  rate {| row := lmsB; rate := calculateRate ascii_runtime lessons lmsB |}
  = calculateRate ascii_runtime (lessonColumns ascii_runtime ([lmsA] ++ [lmsB]))
                  lmsB
  /\ calculateRate ascii_runtime
       (lessonColumns ascii_runtime ([lmsA] ++ [lmsB])) lmsA
     <= calculateRate ascii_runtime lessons lmsB.
Proof.
  destruct (kept_rate_is_best ascii_runtime [lmsA] [lmsB] (str "a@x.com")
              {| row := lmsB; rate := calculateRate ascii_runtime lessons lmsB |})
    as (_ & _ & _ & H4 & H5).
  - vm_compute. reflexivity.
  - split; [exact H4|].
    apply (H5 lmsA); [left; reflexivity | reflexivity | reflexivity].
Defined.

Section OrderFacts.

Variable rt : Runtime.

Lemma completedCount_perm cols cols' r :
  Permutation cols cols' ->
  completedCount rt cols r = completedCount rt cols' r.
Proof.
  unfold completedCount. induction 1; simpl; auto.
  - destruct (is_done _); simpl; auto.
  - destruct (is_done _), (is_done _); reflexivity.
  - congruence.
Qed.

Lemma calculateRate_perm cols cols' r :
  Permutation cols cols' ->
  calculateRate rt cols r = calculateRate rt cols' r.
Proof.
  intros P. unfold calculateRate.
  rewrite (completedCount_perm cols cols' r P), (Permutation_length P).
  reflexivity.
Qed.

Lemma dedupe_cols_perm cols cols' rows :
  Permutation cols cols' -> dedupe rt cols rows = dedupe rt cols' rows.
Proof.
  intros P. unfold dedupe. apply fold_left_ext_in. intros acc r _.
  unfold dedupStep. rewrite (calculateRate_perm cols cols' r P). reflexivity.
Qed.

Lemma lessonColumns_perm rows rows' :
  Permutation rows rows' ->
  Permutation (lessonColumns rt rows) (lessonColumns rt rows').
Proof.
  intros P. apply NoDup_Permutation; try apply lessonColumns_NoDup.
  intros key. rewrite !lessonColumns_member. split.
  - intros (r & Hr & Ht). exists r. split; [|exact Ht].
    apply (Permutation_in _ P). exact Hr.
  - intros (r & Hr & Ht). exists r. split; [|exact Ht].
    apply (Permutation_in _ (Permutation_sym P)). exact Hr.
Qed.

Lemma dedupe_rate_le cols rows rows' key e :
  incl rows rows' ->
  assoc_get (dedupe rt cols rows) key = Some e ->
  exists e', assoc_get (dedupe rt cols rows') key = Some e'
             /\ rate e <= rate e'.
Proof.
  intros Hi He.
  destruct (stored_entry rt cols rows key e He) as (H1 & H2 & H3 & H4).
  destruct (dedupe_keeps_best rt cols rows' (row e) (Hi _ H1) H2)
    as (e' & He' & Hle).
  fold (identity rt (row e)) in He'. rewrite H3 in He'.
  exists e'. split; [exact He'|]. rewrite H4. exact Hle.
Qed.

Lemma dedupe_rate_perm cols rows rows' key :
  Permutation rows rows' ->
  same_rate (assoc_get (dedupe rt cols rows) key)
            (assoc_get (dedupe rt cols rows') key).
Proof.
  intros P.
  assert (I1 : incl rows rows') by (intros x; apply (Permutation_in _ P)).
  assert (I2 : incl rows' rows)
    by (intros x; apply (Permutation_in _ (Permutation_sym P))).
  unfold same_rate.
  destruct (assoc_get (dedupe rt cols rows) key) as [e|] eqn:E;
  destruct (assoc_get (dedupe rt cols rows') key) as [e'|] eqn:E'; auto.
  - destruct (dedupe_rate_le cols rows rows' key e I1 E) as (x & Hx & L1).
    destruct (dedupe_rate_le cols rows' rows key e' I2 E') as (y & Hy & L2).
    rewrite E' in Hx. rewrite E in Hy.
    injection Hx as <-. injection Hy as <-.
    apply Qle_antisym; assumption.
  - destruct (dedupe_rate_le cols rows rows' key e I1 E) as (x & Hx & _).
    congruence.
  - destruct (dedupe_rate_le cols rows' rows key e' I2 E') as (y & Hy & _).
    congruence.
Qed.

End OrderFacts.

(** X8.  The order of arrival does not matter to the rates: for any
    rearrangement of the LMS rows, and so with the two sheets exchanged,
    the same identity keys are kept, each with the same rate. *)
Theorem rates_ignore_arrival_order (rt : Runtime) (rows rows' : list obj)
                                   (key : jsstring) :
  Permutation rows rows' ->
  same_rate (assoc_get (dedupe rt (lessonColumns rt rows) rows) key)
            (assoc_get (dedupe rt (lessonColumns rt rows') rows') key)
  /\ (forall lms1 lms2 master,
        rows = lms1 ++ lms2 -> rows' = lms2 ++ lms1 ->
        List.length (processData rt lms1 lms2 master)
        = List.length (processData rt lms2 lms1 master)).
Proof.
  intros P. split.
  - rewrite (dedupe_cols_perm rt (lessonColumns rt rows')
               (lessonColumns rt rows) rows'
               (Permutation_sym (lessonColumns_perm rt _ _ P))).
    apply dedupe_rate_perm. exact P.
  - intros lms1 lms2 master -> ->.
    assert (L : forall a b,
              List.length (processData rt a b master)
              = List.length (dedupe rt (lessonColumns rt (a ++ b)) (a ++ b))).
    { intros a b. symmetry. eapply Forall2_length.
      unfold processData. apply finalRows_one_each, dedupe_admitted. }
    rewrite !L.
    rewrite <- !(length_map fst), !dedupe_keys.
    apply Permutation_length, NoDup_Permutation.
    + unfold first_seen. apply fold_set_add_NoDup. constructor.
    + unfold first_seen. apply fold_set_add_NoDup. constructor.
    + intros k. rewrite !first_seen_In, !in_map_iff.
      split; intros (r & E & Hr); exists r; (split; [exact E|]);
        apply filter_In in Hr; apply filter_In;
        (split; [|tauto]); destruct Hr as [Hr _];
        apply in_app_or in Hr; apply in_or_app; tauto.
Qed.

Lemma rates_ignore_arrival_order_witness :
  same_rate
    (assoc_get (dedupe ascii_runtime (lessonColumns ascii_runtime [lmsA; lmsB])
                       [lmsA; lmsB]) (str "a@x.com"))
    (assoc_get (dedupe ascii_runtime (lessonColumns ascii_runtime [lmsB; lmsA])
                       [lmsB; lmsA]) (str "a@x.com"))
  /\ (forall lms1 lms2 master,
        [lmsA; lmsB] = lms1 ++ lms2 -> [lmsB; lmsA] = lms2 ++ lms1 ->
        List.length (processData ascii_runtime lms1 lms2 master)
        = List.length (processData ascii_runtime lms2 lms1 master)).
Proof.
  exact (rates_ignore_arrival_order ascii_runtime [lmsA; lmsB] [lmsB; lmsA]
           (str "a@x.com") (perm_swap lmsB lmsA [])).
Defined.

(** X9.  Every rate of the report lies between 0 and 1. *)
Theorem report_rates_bounded (rt : Runtime) (lms1 lms2 master : list obj)
                             (out : FinalReportRow) :
  In out (processData rt lms1 lms2 master) ->
  0 <= CompletionRate out /\ CompletionRate out <= 1.
Proof.
  intros Hin. unfold processData in Hin. apply finalRows_In in Hin.
  destruct Hin as (k & e & Hin & Hm).
  apply mergeEntry_Some in Hm. destruct Hm as [_ Hr].
  pose proof (dedupe_stored rt (lessonColumns rt (lms1 ++ lms2)) (lms1 ++ lms2))
    as S.
  rewrite Forall_forall in S. destruct (S _ Hin) as (_ & _ & _ & H4).
  cbn [snd] in H4. rewrite Hr, H4. apply calculateRate_bounds.
Qed.

Lemma report_rates_bounded_witness :
  0 <= CompletionRate scenario_row /\ CompletionRate scenario_row <= 1.
Proof.
  apply (report_rates_bounded ascii_runtime [lmsA] [lmsB] [master_row]).
  assert (E : processData ascii_runtime [lmsA] [lmsB] [master_row]
              = [scenario_row]) by (vm_compute; reflexivity).
  rewrite E. left. reflexivity.
Defined.

(** X10.  When no cell of any LMS row holds one of the three phrases there
    is no lesson column, and every rate of the report is 0. *)
Theorem no_lesson_column_no_progress (rt : Runtime)
                                     (lms1 lms2 master : list obj) :
  (forall r key, In r (lms1 ++ lms2) ->
                 is_target (cleanText rt (get r key)) = false) ->
  lessonColumns rt (lms1 ++ lms2) = []
  /\ (forall out, In out (processData rt lms1 lms2 master) ->
                  CompletionRate out = 0).
Proof.
  intros Hno.
  assert (E : lessonColumns rt (lms1 ++ lms2) = []).
  { destruct (lessonColumns rt (lms1 ++ lms2)) as [|k t] eqn:L; [reflexivity|].
    assert (Hin : In k (lessonColumns rt (lms1 ++ lms2)))
      by (rewrite L; left; reflexivity).
    apply lessonColumns_member in Hin. destruct Hin as (r & Hr & Ht).
    rewrite (Hno r k Hr) in Ht. discriminate. }
  split; [exact E|].
  intros out Hin. unfold processData in Hin. apply finalRows_In in Hin.
  destruct Hin as (k & e & Hin & Hm).
  apply mergeEntry_Some in Hm. destruct Hm as [_ Hr].
  pose proof (dedupe_stored rt (lessonColumns rt (lms1 ++ lms2)) (lms1 ++ lms2))
    as S.
  rewrite Forall_forall in S. destruct (S _ Hin) as (_ & _ & _ & H4).
  cbn [snd] in H4. rewrite Hr, H4, E. reflexivity.
Qed.

Lemma no_lesson_column_no_progress_witness :
  map CompletionRate
      (processData ascii_runtime
         [[(USERNAME_EMAIL, VStr (str "n@x.sa")); (str "Notes", VStr (str "done"))]]
         [] [])
  = [0].
Proof.
  destruct (no_lesson_column_no_progress ascii_runtime
              [[(USERNAME_EMAIL, VStr (str "n@x.sa"));
                (str "Notes", VStr (str "done"))]] [] []) as [_ H].
  - intros r key [<-|[]]. unfold get. cbn [assoc_get].
    destruct (str_eqb USERNAME_EMAIL key); [reflexivity|].
    destruct (str_eqb (str "Notes") key); reflexivity.
  - vm_compute. reflexivity.
Defined.

(** X11.  In the master sheet the last row of an identity key wins: a master
    row with a truthy email is the one found under its key when no later
    row with a truthy email has the same key. *)
Theorem master_last_row_wins (rt : Runtime) (before after : list obj)
                             (m : obj) :
  truthy (get m USERNAME_EMAIL) = true ->
  (forall x, In x after -> truthy (get x USERNAME_EMAIL) = true ->
             cleanText rt (get x USERNAME_EMAIL)
             <> cleanText rt (get m USERNAME_EMAIL)) ->
  assoc_get (masterIndex rt (before ++ m :: after))
            (cleanText rt (get m USERNAME_EMAIL)) = Some m.
Proof.
  intros Ht Hafter. unfold masterIndex.
  rewrite fold_left_app. cbn [fold_left]. rewrite Ht.
  set (key := cleanText rt (get m USERNAME_EMAIL)) in *.
  generalize (fold_left
    (fun masterMap r =>
       if truthy (get r USERNAME_EMAIL)
       then assoc_set masterMap (cleanText rt (get r USERNAME_EMAIL)) r
       else masterMap) before []) as acc0.
  intros acc0.
  assert (G : forall rest acc,
            (forall x, In x rest -> truthy (get x USERNAME_EMAIL) = true ->
                       cleanText rt (get x USERNAME_EMAIL) <> key) ->
            assoc_get acc key = Some m ->
            assoc_get (fold_left
              (fun masterMap r =>
                 if truthy (get r USERNAME_EMAIL)
                 then assoc_set masterMap (cleanText rt (get r USERNAME_EMAIL)) r
                 else masterMap) rest acc) key = Some m).
  { induction rest as [|x t IH]; intros acc Hr Hacc; simpl; [exact Hacc|].
    apply IH; [intros y Hy; apply Hr; right; exact Hy|].
    destruct (truthy (get x USERNAME_EMAIL)) eqn:Ex; [|exact Hacc].
    rewrite assoc_set_get_neq; [exact Hacc|].
    apply Hr; [left; reflexivity | exact Ex]. }
  apply G; [exact Hafter | apply assoc_set_get_eq].
Qed.

Lemma master_last_row_wins_witness :
  assoc_get
    (masterIndex ascii_runtime
       ([ [(USERNAME_EMAIL, VStr (str "a@x.com"));
           (str "District", VStr (str "Jeddah"))] ]
        ++ master_row :: [ [(str "District", VStr (str "Makkah"))] ]))
    (str "a@x.com")
  = Some master_row.
Proof.
  apply (master_last_row_wins ascii_runtime
           [ [(USERNAME_EMAIL, VStr (str "a@x.com"));
              (str "District", VStr (str "Jeddah"))] ]
           [ [(str "District", VStr (str "Makkah"))] ] master_row).
  - reflexivity.
  - intros x [<-|[]] H. vm_compute in H. discriminate.
Defined.

(* ================================================================== *)
(** ** More on aggregation *)

Lemma rate_inProgress_not_completed q :
  rate_inProgress q = true -> rate_completed q = false.
Proof.
  unfold rate_inProgress, rate_completed. rewrite andb_true_iff.
  intros [_ H]. apply negb_true_iff in H. exact H.
Qed.

(** A rate that is not negative falls in exactly one of the three
    classes. *)
Lemma rate_classes q :
  0 <= q ->
  ((if rate_completed q then 1 else 0)
   + (if rate_inProgress q then 1 else 0)
   + (if rate_notStarted q then 1 else 0) = 1)%nat.
Proof.
  intros Hq. unfold rate_inProgress, rate_notStarted.
  destruct (rate_completed q) eqn:C.
  - unfold rate_completed in C. rewrite C. cbn [negb andb].
    rewrite andb_false_r.
    destruct (Qeq_bool q 0) eqn:Z; [|reflexivity].
    apply Qeq_bool_iff in Z. apply Qle_bool_iff in C.
    rewrite Z in C. unfold FULL, Qle in C. simpl in C. lia.
  - unfold rate_completed in C. rewrite C. cbn [negb]. rewrite andb_true_r.
    destruct (Qle_bool q 0) eqn:L; cbn [negb].
    + apply Qle_bool_iff in L.
      assert (Z : Qeq_bool q 0 = true)
        by (apply Qeq_bool_iff, Qle_antisym; assumption).
      rewrite Z. reflexivity.
    + destruct (Qeq_bool q 0) eqn:Z; [|reflexivity].
      apply Qeq_bool_iff in Z. rewrite Z in L. discriminate.
Qed.

Lemma count_rows_cons p d data :
  count_rows p (d :: data)
  = ((if p (CompletionRate d) then 1 else 0) + count_rows p data)%nat.
Proof.
  unfold count_rows. cbn [filter]. destruct (p (CompletionRate d)); reflexivity.
Qed.

Lemma summary_partition data :
  (forall d, In d data -> 0 <= CompletionRate d) ->
  (count_rows rate_completed data + count_rows rate_inProgress data
   + count_rows rate_notStarted data = List.length data)%nat.
Proof.
  induction data as [|d t IH]; intros H; [reflexivity|].
  rewrite !count_rows_cons. cbn [List.length].
  pose proof (rate_classes (CompletionRate d) (H d (or_introl eq_refl))) as C.
  specialize (IH (fun x Hx => H x (or_intror Hx))). lia.
Qed.

Lemma processData_rate_not_negative rt lms1 lms2 master d :
  In d (processData rt lms1 lms2 master) -> 0 <= CompletionRate d.
Proof.
  intros Hin. unfold processData in Hin. apply finalRows_In in Hin.
  destruct Hin as (k & e & Hin & Hm).
  apply mergeEntry_Some in Hm. destruct Hm as [_ Hr].
  pose proof (dedupe_stored rt (lessonColumns rt (lms1 ++ lms2)) (lms1 ++ lms2))
    as S.
  rewrite Forall_forall in S. destruct (S _ Hin) as (_ & _ & _ & H4).
  cbn [snd] in H4. rewrite Hr, H4. apply calculateRate_bounds.
Qed.

(** X12.  The three counts of the summary add up to the total whenever no
    rate is negative, and so, with no condition, for every report of
    [processData]; the total is the number of rows. *)
Theorem summary_counts_add_up (rt : Runtime) (lms1 lms2 master : list obj)
                              (data : list FinalReportRow) :
  let s := summaryData data in
  let report := summaryData (processData rt lms1 lms2 master) in
  total s = List.length data
  /\ ((forall d, In d data -> 0 <= CompletionRate d) ->
      (completed s + inProgress s + notStarted s = total s)%nat)
  /\ (completed report + inProgress report + notStarted report
      = total report)%nat
  /\ total report = List.length (processData rt lms1 lms2 master).
Proof.
  cbv zeta. split; [reflexivity|]. split; [|split; [|reflexivity]].
  - apply summary_partition.
  - apply summary_partition. apply processData_rate_not_negative.
Qed.

(** *** Counters of the groups *)

Lemma sum_of_set_present f (G : assoc stats) k s s' :
  assoc_get G k = Some s ->
  (sum_of f (assoc_set G k s') + f s = sum_of f G + f s')%nat.
Proof.
  induction G as [|[k0 s0] t IH]; simpl; [discriminate|].
  destruct (str_eqb k0 k).
  - intros [= ->]. simpl. lia.
  - intros H. specialize (IH H). simpl. lia.
Qed.

Lemma sum_of_set_fresh f (G : assoc stats) k s' :
  assoc_get G k = None ->
  sum_of f (assoc_set G k s') = (sum_of f G + f s')%nat.
Proof.
  induction G as [|[k0 s0] t IH]; simpl; [lia|].
  destruct (str_eqb k0 k); [discriminate|].
  intros H. specialize (IH H). simpl. lia.
Qed.

Lemma sum_of_perm f (G G' : assoc stats) :
  Permutation G G' -> sum_of f G = sum_of f G'.
Proof.
  induction 1; simpl; lia.
Qed.

Lemma tally_counters s q :
  g_total (tally s q) = S (g_total s)
  /\ g_comp (tally s q)
     = (g_comp s + if rate_completed q then 1 else 0)%nat
  /\ g_prog (tally s q)
     = (g_prog s + if rate_inProgress q then 1 else 0)%nat
  /\ g_not (tally s q)
     = (g_not s + if rate_completed q || rate_inProgress q then 0 else 1)%nat.
Proof.
  unfold tally. destruct (rate_completed q) eqn:C.
  - destruct (rate_inProgress q) eqn:I.
    + apply rate_inProgress_not_completed in I. congruence.
    + simpl. repeat split; lia.
  - destruct (rate_inProgress q); simpl; repeat split; lia.
Qed.

Lemma count_rows_snoc p data d :
  count_rows p (data ++ [d])
  = (count_rows p data + if p (CompletionRate d) then 1 else 0)%nat.
Proof.
  unfold count_rows. rewrite filter_app, length_app. cbn [filter].
  destruct (p (CompletionRate d)); reflexivity.
Qed.

Section PivotFacts.

Variable groupByField : field.

(** In every group the three counters add up to the total, which is at
    least 1. *)
Lemma groupsOf_balanced data :
  Forall (fun e => (g_comp (snd e) + g_prog (snd e) + g_not (snd e)
                    = g_total (snd e))%nat
                   /\ (1 <= g_total (snd e))%nat)
         (groupsOf groupByField data).
Proof.
  induction data as [|r t IH] using rev_ind; [constructor|].
  rewrite groupsOf_snoc. unfold groupStep.
  set (G := groupsOf groupByField t) in *.
  set (k := groupKey groupByField r).
  assert (Step : forall s,
            (g_comp s + g_prog s + g_not s = g_total s)%nat ->
            Forall (fun e => (g_comp (snd e) + g_prog (snd e) + g_not (snd e)
                              = g_total (snd e))%nat
                             /\ (1 <= g_total (snd e))%nat)
                   (assoc_set G k (tally s (CompletionRate r)))).
  { intros s Hs. apply Forall_forall. intros [k' s'] Hin.
    apply assoc_set_In in Hin. destruct Hin as [[-> ->]|Hin].
    - cbn [snd].
      destruct (tally_counters s (CompletionRate r)) as (T1 & T2 & T3 & T4).
      rewrite T1, T2, T3, T4.
      destruct (rate_completed (CompletionRate r)) eqn:C;
      destruct (rate_inProgress (CompletionRate r)) eqn:I; cbn [orb];
        try lia.
      apply rate_inProgress_not_completed in I. congruence.
    - rewrite Forall_forall in IH. apply (IH _ Hin). }
  destruct (assoc_get G k) as [s|] eqn:E.
  - apply Step. apply assoc_get_Some_In in E.
    rewrite Forall_forall in IH. apply (IH _ E).
  - destruct (mem k object_prototype_names); [exact IH|].
    apply Step. reflexivity.
Qed.

(** Every row is counted once, in one group and in one class. *)
Lemma groupsOf_sums data :
  plain_groups groupByField data ->
  sum_of g_total (groupsOf groupByField data) = List.length data
  /\ sum_of g_comp (groupsOf groupByField data)
     = count_rows rate_completed data
  /\ sum_of g_prog (groupsOf groupByField data)
     = count_rows rate_inProgress data
  /\ sum_of g_not (groupsOf groupByField data)
     = count_rows (fun q => negb (rate_completed q || rate_inProgress q)) data.
Proof.
  induction data as [|r t IH] using rev_ind; intros Hp.
  - repeat split; reflexivity.
  - assert (Hpt : plain_groups groupByField t).
    { intros x Hx. apply Hp. apply in_or_app. left; exact Hx. }
    assert (Hpr : mem (groupKey groupByField r) object_prototype_names = false).
    { apply Hp. apply in_or_app. right. left; reflexivity. }
    destruct (IH Hpt) as (I1 & I2 & I3 & I4). clear IH.
    rewrite groupsOf_snoc, !count_rows_snoc, length_app. cbn [List.length].
    unfold groupStep.
    set (G := groupsOf groupByField t) in *.
    set (k := groupKey groupByField r) in *.
    set (q := CompletionRate r).
    destruct (assoc_get G k) as [s|] eqn:E.
    + destruct (tally_counters s q) as (T1 & T2 & T3 & T4).
      pose proof (sum_of_set_present g_total G k s (tally s q) E) as S1.
      pose proof (sum_of_set_present g_comp G k s (tally s q) E) as S2.
      pose proof (sum_of_set_present g_prog G k s (tally s q) E) as S3.
      pose proof (sum_of_set_present g_not G k s (tally s q) E) as S4.
      rewrite T1 in S1. rewrite T2 in S2. rewrite T3 in S3. rewrite T4 in S4.
      destruct (rate_completed q || rate_inProgress q); cbn [negb];
        repeat split; lia.
    + rewrite Hpr.
      set (z := {| g_total := 0; g_comp := 0; g_prog := 0; g_not := 0 |}).
      destruct (tally_counters z q) as (T1 & T2 & T3 & T4).
      rewrite (sum_of_set_fresh g_total G k _ E), (sum_of_set_fresh g_comp G k _ E),
              (sum_of_set_fresh g_prog G k _ E), (sum_of_set_fresh g_not G k _ E).
      rewrite T1, T2, T3, T4. cbn [g_total g_comp g_prog g_not z].
      destruct (rate_completed q || rate_inProgress q); cbn [negb];
        repeat split; lia.
Qed.

End PivotFacts.

Lemma share_bounds n total :
  (n <= total)%nat -> 0 <= share n total /\ share n total <= 1.
Proof.
  intros H. destruct total as [|t].
  - destruct (share_spec n 0) as [E _]. rewrite (E eq_refl).
    split; discriminate.
  - destruct (share_spec n (S t)) as [_ E]. rewrite (E ltac:(discriminate)).
    unfold Qle. cbn [Qnum Qden]. rewrite Zpos_of_nat_S. split; lia.
Qed.

Lemma not_class_notStarted data :
  (forall d, In d data -> 0 <= CompletionRate d) ->
  count_rows (fun q => negb (rate_completed q || rate_inProgress q)) data
  = count_rows rate_notStarted data.
Proof.
  induction data as [|d t IH]; intros H; [reflexivity|].
  rewrite !count_rows_cons.
  rewrite IH by (intros x Hx; apply H; right; exact Hx).
  f_equal.
  pose proof (rate_classes (CompletionRate d) (H d (or_introl eq_refl))) as C.
  destruct (rate_completed (CompletionRate d)),
           (rate_inProgress (CompletionRate d)),
           (rate_notStarted (CompletionRate d)); cbn [orb negb] in *; lia.
Qed.

(** X13.  In every group of a pivot table the completed, in-progress and
    not-started counters add up to the total of the group, no listed group
    is empty, so that the completion fraction is never computed over zero,
    and the fraction lies between 0 and 1. *)
Theorem pivot_groups_balanced (groupByField : field)
                              (data : list FinalReportRow)
                              (e : jsstring * stats) :
  In e (pivotGroups groupByField data) ->
  (g_comp (snd e) + g_prog (snd e) + g_not (snd e) = g_total (snd e))%nat
  /\ (1 <= g_total (snd e))%nat
  /\ In (CNumber (share (g_comp (snd e)) (g_total (snd e)))) (pivotRow e)
  /\ share (g_comp (snd e)) (g_total (snd e))
     == Z.of_nat (g_comp (snd e)) # Pos.of_nat (g_total (snd e))
  /\ 0 <= share (g_comp (snd e)) (g_total (snd e))
  /\ share (g_comp (snd e)) (g_total (snd e)) <= 1.
Proof.
  intros Hin.
  assert (Hg : In e (groupsOf groupByField data)).
  { unfold pivotGroups in Hin.
    apply (Permutation_in _ (sort_desc_perm _)) in Hin.
    apply (Permutation_in _ (own_entries_perm _ _)) in Hin. exact Hin. }
  pose proof (groupsOf_balanced groupByField data) as B.
  rewrite Forall_forall in B. destruct (B e Hg) as [B1 B2].
  split; [exact B1|]. split; [exact B2|].
  split; [unfold pivotRow; simpl; tauto|].
  split; [apply share_spec; lia|].
  apply share_bounds. lia.
Qed.

Lemma pivot_groups_balanced_witness :
  (1 <= g_total {| g_total := 2; g_comp := 1; g_prog := 0; g_not := 1 |})%nat
  /\ share 1 2 <= 1.
Proof.
  destruct (pivot_groups_balanced District aggregation_data
              (str "Riyadh",
               {| g_total := 2; g_comp := 1; g_prog := 0; g_not := 1 |}))
    as (_ & H2 & _ & _ & _ & H6).
  - left. vm_compute. reflexivity.
  - split; [exact H2 | exact H6].
Defined.

(** X14.  A pivot table counts every row once: over its groups the totals
    add up to the number of rows, the completed and in-progress counters to
    the completed and in-progress counts of the summary, and, for rates
    that are not negative, the not-started counters to the not-started
    count of the summary. *)
Theorem pivot_agrees_with_summary (groupByField : field)
                                  (data : list FinalReportRow) :
  plain_groups groupByField data ->
  let listed := pivotGroups groupByField data in
  let s := summaryData data in
  sum_of g_total listed = total s
  /\ sum_of g_comp listed = completed s
  /\ sum_of g_prog listed = inProgress s
  /\ ((forall d, In d data -> 0 <= CompletionRate d) ->
      sum_of g_not listed = notStarted s).
Proof.
  intros Hp listed s.
  assert (P : Permutation listed (groupsOf groupByField data)).
  { unfold listed, pivotGroups. rewrite sort_desc_perm.
    apply own_entries_perm. }
  destruct (groupsOf_sums groupByField data Hp) as (S1 & S2 & S3 & S4).
  rewrite !(sum_of_perm _ _ _ P).
  split; [exact S1|]. split; [exact S2|]. split; [exact S3|].
  intros Hq. rewrite S4. apply not_class_notStarted. exact Hq.
Qed.

Lemma pivot_agrees_with_summary_witness :
  sum_of g_total (pivotGroups District aggregation_data) = 4%nat
  /\ sum_of g_comp (pivotGroups District aggregation_data)
     = completed (summaryData aggregation_data).
Proof.
  destruct (pivot_agrees_with_summary District aggregation_data
              aggregation_plain_groups) as (H1 & H2 & _).
  split; [exact H1 | exact H2].
Defined.

(** X15.  The colour of a rate in the dashboard follows the classes of the
    summary: green exactly for a completed rate, amber exactly for a rate
    in progress, grey otherwise, which for a rate that is not negative is
    exactly the not-started class; the initial black is never used. *)
Theorem rateColor_follows_summary (q : Q) :
  (rateColor q = str "008000" <-> rate_completed q = true)
  /\ (rateColor q = str "F4A460" <-> rate_inProgress q = true)
  /\ (rateColor q = str "808080"
      <-> rate_completed q = false /\ rate_inProgress q = false)
  /\ (0 <= q -> (rateColor q = str "808080" <-> rate_notStarted q = true))
  /\ rateColor q <> str "000000".
Proof.
  assert (Inner : (rateColor q = str "008000" <-> rate_completed q = true)
    /\ (rateColor q = str "F4A460" <-> rate_inProgress q = true)
    /\ (rateColor q = str "808080"
        <-> rate_completed q = false /\ rate_inProgress q = false)
    /\ rateColor q <> str "000000").
  { assert (D1 : str "008000" <> str "F4A460") by (vm_compute; discriminate).
    assert (D2 : str "008000" <> str "808080") by (vm_compute; discriminate).
    assert (D3 : str "F4A460" <> str "808080") by (vm_compute; discriminate).
    assert (D4 : str "008000" <> str "000000") by (vm_compute; discriminate).
    assert (D5 : str "F4A460" <> str "000000") by (vm_compute; discriminate).
    assert (D6 : str "808080" <> str "000000") by (vm_compute; discriminate).
    unfold rateColor, rate_completed, rate_inProgress. cbv zeta.
    destruct (Qle_bool FULL q), (Qle_bool q 0); cbn [negb andb];
      intuition congruence. }
  destruct Inner as (I1 & I2 & I3 & I4).
  split; [exact I1|]. split; [exact I2|]. split; [exact I3|].
  split; [|exact I4].
  intros Hq. rewrite I3.
  pose proof (rate_classes q Hq) as C.
  destruct (rate_completed q), (rate_inProgress q), (rate_notStarted q);
    cbn in C; split; try tauto; try discriminate; try lia;
    try (intros [H1 H2]; discriminate).
Qed.

(* ================================================================== *)
(** ** The library and the reading of a file *)

Lemma getXLSX_find env : getXLSX env = find utils (candidates env).
Proof.
  unfold getXLSX, candidates, has_utils.
  destruct (window_XLSX env) as [w|]; cbn [app find].
  - destruct (utils w); [reflexivity|].
    destruct (XLSXPkg env) as [pkg|]; [|reflexivity]. cbn [find].
    destruct (utils (pkg_self pkg)); [reflexivity|].
    destruct (pkg_default pkg) as [d|]; cbn [app find].
    + destruct (utils d); [reflexivity|].
      destruct (pkg_XLSX pkg) as [x|]; cbn [find]; [|reflexivity].
      destruct (utils x); reflexivity.
    + destruct (pkg_XLSX pkg) as [x|]; cbn [find]; [|reflexivity].
      destruct (utils x); reflexivity.
  - destruct (XLSXPkg env) as [pkg|]; [|reflexivity]. cbn [find].
    destruct (utils (pkg_self pkg)); [reflexivity|].
    destruct (pkg_default pkg) as [d|]; cbn [app find].
    + destruct (utils d); [reflexivity|].
      destruct (pkg_XLSX pkg) as [x|]; cbn [find]; [|reflexivity].
      destruct (utils x); reflexivity.
    + destruct (pkg_XLSX pkg) as [x|]; cbn [find]; [|reflexivity].
      destruct (utils x); reflexivity.
Qed.

(** X16.  [getXLSX] returns the first candidate that has [utils], in the
    order global object, package, default export, named export: what it
    returns always has [utils], so the second test of its callers never
    fires, and it returns [null] exactly when no candidate has [utils], in
    which case [parseExcel] rejects with the message of the missing
    library whatever the file holds. *)
Theorem getXLSX_first_usable (env : environment) :
  getXLSX env = find utils (candidates env)
  /\ (forall l, getXLSX env = Some l -> utils l = true /\ In l (candidates env))
  /\ (getXLSX env = None <-> forall l, In l (candidates env) -> utils l = false)
  /\ (forall w, window_XLSX env = Some w -> utils w = true ->
                getXLSX env = Some w)
  /\ (forall rt sheet (sheet_to_json : sheet -> list obj) read,
        getXLSX env = None ->
        parseExcel rt sheet sheet_to_json (getXLSX env) read
        = Rejected LIBRARY_MISSING).
Proof.
  split; [apply getXLSX_find|]. rewrite getXLSX_find.
  split; [|split; [|split]].
  - intros l H. apply find_some in H. tauto.
  - split.
    + intros H l Hin. apply (find_none _ _ H l Hin).
    + intros H. apply find_all_false. exact H.
  - intros w Hw Hu. rewrite <- getXLSX_find. unfold getXLSX, has_utils.
    rewrite Hw, Hu. reflexivity.
  - intros rt sheet sheet_to_json read H. rewrite H. reflexivity.
Qed.

(** X17.  [parseExcel] resolves exactly when the library is usable, the
    file is read, the workbook names a sheet and that first sheet is found;
    it then yields one row for each row of the first sheet, in order, each
    one the alias resolution of the raw row, with distinct column names.
    No other sheet is looked at, and an error of the reading is passed on
    as it is. *)
Theorem parseExcel_first_sheet (rt : Runtime) (sheet : Type)
                               (sheet_to_json : sheet -> list obj)
                               (lib : option library)
                               (read : outcome (workbook sheet)) :
  ((exists rows, parseExcel rt sheet sheet_to_json lib read = Resolved rows)
   <-> has_utils lib = true
       /\ exists wb first rest sh,
            read = Resolved wb /\ SheetNames wb = Some (first :: rest)
            /\ Sheets wb first = Some sh)
  /\ (forall rows,
        parseExcel rt sheet sheet_to_json lib read = Resolved rows ->
        exists wb first rest sh,
          read = Resolved wb /\ SheetNames wb = Some (first :: rest)
          /\ Sheets wb first = Some sh
          /\ rows = map (normalizeKeys rt) (sheet_to_json sh)
          /\ List.length rows = List.length (sheet_to_json sh)
          /\ Forall (fun r => NoDup (map fst r)) rows)
  /\ (forall wb wb' first rest rest',
        read = Resolved wb ->
        SheetNames wb = Some (first :: rest) ->
        SheetNames wb' = Some (first :: rest') ->
        Sheets wb' first = Sheets wb first ->
        parseExcel rt sheet sheet_to_json lib (Resolved wb')
        = parseExcel rt sheet sheet_to_json lib read)
  /\ (forall error,
        has_utils lib = true -> read = Rejected error ->
        parseExcel rt sheet sheet_to_json lib read = Rejected error).
Proof.
  assert (Shape : forall rows,
        parseExcel rt sheet sheet_to_json lib read = Resolved rows ->
        has_utils lib = true
        /\ exists wb first rest sh,
          read = Resolved wb /\ SheetNames wb = Some (first :: rest)
          /\ Sheets wb first = Some sh
          /\ rows = map (normalizeKeys rt) (sheet_to_json sh)).
  { intros rows. unfold parseExcel, has_utils.
    destruct lib as [l|]; [|discriminate].
    destruct (utils l); cbn [negb]; [|discriminate].
    destruct read as [wb|err]; [|discriminate].
    destruct (SheetNames wb) as [[|first rest]|] eqn:N; try discriminate.
    destruct (Sheets wb first) as [sh|] eqn:S; [|discriminate].
    intros [= <-]. split; [reflexivity|].
    exists wb, first, rest, sh. auto. }
  split; [|split; [|split]].
  - split.
    + intros [rows H]. destruct (Shape rows H) as (Hu & wb & f & r & sh & H1 & H2 & H3 & _).
      split; [exact Hu|]. exists wb, f, r, sh. auto.
    + intros (Hu & wb & f & r & sh & -> & H2 & H3).
      unfold parseExcel. destruct lib as [l|]; [|discriminate].
      cbn [has_utils] in Hu. rewrite Hu, H2, H3. cbn [negb]. eauto.
  - intros rows H. destruct (Shape rows H) as (_ & wb & f & r & sh & H1 & H2 & H3 & H4).
    exists wb, f, r, sh. repeat (split; [assumption|]).
    split.
    + rewrite H4, length_map. reflexivity.
    + rewrite H4. apply Forall_forall. intros x Hx.
      apply in_map_iff in Hx. destruct Hx as (raw & <- & _).
      apply normalizeKeys_NoDup.
  - intros wb wb' first rest rest' -> N N' S.
    unfold parseExcel. destruct lib as [l|]; [|reflexivity].
    destruct (negb (utils l)); [reflexivity|].
    rewrite N, N', S. reflexivity.
  - intros error Hu ->. unfold parseExcel.
    destruct lib as [l|]; [|discriminate].
    cbn [has_utils] in Hu. rewrite Hu. reflexivity.
Qed.

(* ================================================================== *)
(** ** Headers that mean the same column *)

(** Alias keys that agree up to ASCII case name the same column, and no
    alias key agrees up to case with a name of [Object.prototype]. *)
Lemma COLUMN_ALIASES_case_consistent a c a' c' :
  In (a, c) COLUMN_ALIASES -> In (a', c') COLUMN_ALIASES ->
  ascii_lower a = ascii_lower a' -> c = c'.
Proof.
  assert (H : forallb (fun e1 =>
              forallb (fun e2 =>
                implb (str_eqb (ascii_lower (fst e1)) (ascii_lower (fst e2)))
                      (str_eqb (snd e1) (snd e2))) COLUMN_ALIASES)
              COLUMN_ALIASES = true) by (vm_compute; reflexivity).
  rewrite forallb_forall in H. intros H1 H2 E.
  specialize (H _ H1). rewrite forallb_forall in H. specialize (H _ H2).
  cbn [fst snd] in H. rewrite E, str_eqb_refl in H. cbn [implb] in H.
  apply str_eqb_eq. exact H.
Qed.

Lemma alias_not_inherited a c t :
  In (a, c) COLUMN_ALIASES -> ascii_lower t = ascii_lower a ->
  mem t object_prototype_names = false.
Proof.
  assert (H : forallb (fun e =>
              forallb (fun p =>
                negb (str_eqb (ascii_lower p) (ascii_lower (fst e))))
                object_prototype_names) COLUMN_ALIASES = true)
    by (vm_compute; reflexivity).
  rewrite forallb_forall in H. intros H1 E.
  specialize (H _ H1). rewrite forallb_forall in H. cbn [fst] in H.
  apply mem_false. intros Hin. specialize (H _ Hin).
  rewrite E, str_eqb_refl in H. discriminate.
Qed.

Lemma spec_resolve_any_case rt key a c :
  lower_on_ascii rt -> is_ascii (trim key) = true ->
  In (a, c) COLUMN_ALIASES ->
  ascii_lower (trim key) = ascii_lower a ->
  spec_resolve rt key = Some c.
Proof.
  intros Hascii Ht Hin E.
  rewrite (spec_resolve_ascii rt key Hascii Ht).
  unfold spec_resolve. cbv zeta.
  destruct (assoc_get COLUMN_ALIASES (trim key)) as [c0|] eqn:G.
  - apply assoc_get_Some_In in G. f_equal.
    apply (COLUMN_ALIASES_case_consistent _ _ _ _ G Hin E).
  - cbn [toLowerCase ascii_runtime].
    destruct (find _ COLUMN_ALIASES) as [[a1 c1]|] eqn:F.
    + apply find_some in F. destruct F as [F1 F2]. cbn [fst snd] in *.
      apply str_eqb_eq in F2. f_equal.
      apply (COLUMN_ALIASES_case_consistent _ _ _ _ F1 Hin). congruence.
    + pose proof (find_none _ _ F _ Hin) as N. cbn [fst] in N.
      rewrite E, str_eqb_refl in N. discriminate.
Qed.

(** X18.  A header is recognised whatever its ASCII case and the whitespace
    around it: when the trimmed header equals an alias key up to case, the
    header resolves to the canonical name of that alias, and a row with
    that single header becomes a row with the canonical name. *)
Theorem alias_any_case (rt : Runtime) (key a c : jsstring) (v : value) :
  lower_on_ascii rt -> is_ascii (trim key) = true ->
  In (a, c) COLUMN_ALIASES ->
  ascii_lower (trim key) = ascii_lower a ->
  key_truthy (resolveKey rt key) = true
  /\ property_key rt (resolveKey rt key) = c
  /\ normalizeKeys rt [(key, v)] = [(c, v)].
Proof.
  intros Hascii Ht Hin E.
  pose proof (alias_not_inherited a c (trim key) Hin E) as Hp.
  pose proof (spec_resolve_any_case rt key a c Hascii Ht Hin E) as R.
  pose proof (resolveKey_spec rt key Hp) as S. rewrite R in S.
  destruct (key_truthy (resolveKey rt key)) eqn:T; [|discriminate].
  injection S as S.
  split; [reflexivity|]. split; [exact S|].
  unfold normalizeKeys.
  assert (K : own_keys [(key, v)] = [key]).
  { unfold own_keys, own_entries. cbn [filter fst].
    destruct (is_index key); reflexivity. }
  rewrite K. cbn [fold_left].
  unfold normalizeKey. cbv zeta. rewrite T, S.
  unfold get. cbn [assoc_get]. rewrite str_eqb_refl. reflexivity.
Qed.

Lemma alias_any_case_witness :
  normalizeKeys ascii_runtime [(str "  e-MAIL ", VStr (str "x@y.sa"))]
  = [(str "Username (Email)", VStr (str "x@y.sa"))].
Proof.
  apply (alias_any_case ascii_runtime (str "  e-MAIL ") (str "E-mail")
           (str "Username (Email)") (VStr (str "x@y.sa"))
           ascii_runtime_on_ascii).
  - reflexivity.
  - vm_compute. tauto.
  - reflexivity.
Defined.

Lemma normalizeKeys_same_headers rt (o o' : obj) keys keys' (acc : obj) :
  (forall k, In k keys ->
     mem (trim k) object_prototype_names = false /\ get o k <> VUndefined) ->
  (forall k, In k keys' ->
     mem (trim k) object_prototype_names = false /\ get o' k <> VUndefined) ->
  Forall2 (fun k k' => spec_resolve rt k = spec_resolve rt k'
                       /\ get o k = get o' k') keys keys' ->
  defined_values acc ->
  fold_left (normalizeKey rt o) keys acc
  = fold_left (normalizeKey rt o') keys' acc.
Proof.
  intros H1 H2 F. revert acc H1 H2.
  induction F as [|k k' t t' [Hr Hv] _ IH]; intros acc H1 H2 Hd; [reflexivity|].
  cbn [fold_left].
  destruct (H1 k (or_introl eq_refl)) as [P1 V1].
  destruct (H2 k' (or_introl eq_refl)) as [P2 V2].
  assert (E : normalizeKey rt o acc k = normalizeKey rt o' acc k').
  { rewrite (normalizeKey_spec rt o acc k P1 Hd).
    rewrite (normalizeKey_spec rt o' acc k' P2 Hd).
    rewrite Hr, Hv. reflexivity. }
  rewrite E. apply IH.
  - intros x Hx. apply H1. right; exact Hx.
  - intros x Hx. apply H2. right; exact Hx.
  - apply normalizeKey_defined; assumption.
Qed.

(** X19.  The result of [normalizeKeys] depends on the headers of a sheet
    row only through the names they resolve to: two sheet rows whose
    headers, in enumeration order, resolve alike and hold the same values
    give the same row. *)
Theorem headers_matter_by_meaning (rt : Runtime) (o o' : obj) :
  sheet_row o -> sheet_row o' ->
  Forall2 (fun k k' => spec_resolve rt k = spec_resolve rt k'
                       /\ get o k = get o' k')
          (own_keys o) (own_keys o') ->
  normalizeKeys rt o = normalizeKeys rt o'.
Proof.
  intros [P1 V1] [P2 V2] F. unfold normalizeKeys.
  apply normalizeKeys_same_headers; auto.
  - intros k Hk. apply (proj1 (own_keys_In _ o k)) in Hk. auto.
  - intros k Hk. apply (proj1 (own_keys_In _ o' k)) in Hk. auto.
  - intros p. discriminate.
Qed.

Lemma two_headers_sheet_rows :
  sheet_row shouted_row /\ sheet_row canonical_row.
Proof.
  split; split; intros key Hin; simpl in Hin;
    repeat (destruct Hin as [<-|Hin]; [vm_compute; try reflexivity; discriminate|]);
    destruct Hin.
Qed.

Lemma headers_matter_by_meaning_witness :
  normalizeKeys ascii_runtime shouted_row
  = normalizeKeys ascii_runtime canonical_row.
Proof.
  apply (headers_matter_by_meaning ascii_runtime shouted_row canonical_row
           (proj1 two_headers_sheet_rows) (proj2 two_headers_sheet_rows)).
  assert (K1 : own_keys shouted_row = [str "E-MAIL"; str "Manager"])
    by (vm_compute; reflexivity).
  assert (K2 : own_keys canonical_row
               = [str "Username (Email)"; str "Supervisor Name"])
    by (vm_compute; reflexivity).
  rewrite K1, K2.
  repeat (apply Forall2_cons || apply Forall2_nil); split;
    vm_compute; reflexivity.
Defined.
